(** * reshade_fx_viewer: the uniform schema and the INI store of
      [fx_ui_generator_V1_2.py]

    A shallow embedding of the data paths of the program: [parse_fx_uniforms]
    (schema extraction from shader text), [parse_ini] (configuration store,
    built on Python's [configparser]), the file-writing part of
    [FXUniformUI.save_ini], the layout check of [FXUniformUI.load_ini], and the
    two binding functions [update_ini_from_widgets] and [set_widgets_from_ini].

    Conventions.
    - A Python [str] is a [list ascii].  The character classes below are the
      ones Python applies to the 7-bit range; the development is about ASCII
      texts, codes above 127 are ordinary symbols.
    - A Python [dict] is an association list in insertion order: assigning to an
      existing key keeps its position, a new key goes to the end.
    - The regular expressions of the source are values of [re] below, run by a
      backtracking matcher that follows the order in which Python's [re] module
      explores alternatives (greedy: longest first, lazy: shortest first).
    - [configparser] is embedded from CPython's [RawConfigParser._read] and
      the mapping protocol of [SectionProxy], with the options the program
      sets: [interpolation=None], [optionxform = str], and the defaults
      [strict=True], [allow_no_value=False], [empty_lines_in_values=True],
      delimiters [=] and [:], comment prefixes [#] and [;].
    - Floating point is not modelled: [float(value)] and [str(float)] are
      section variables. *)

From Stdlib Require Import List Ascii String Bool Arith ZArith Lia.
From Stdlib Require Import DecimalString Sorted.
Import ListNotations.

Local Open Scope string_scope.
Local Open Scope list_scope.
Local Open Scope nat_scope.

Abbreviation str := (list ascii).

(** A string literal used as a Python string. *)
Definition L (s : string) : str := list_ascii_of_string s.

(* ================================================================= *)
(** ** Python string primitives *)

Module Py.

Definition str_eqb (a b : str) : bool :=
  if list_eq_dec ascii_dec a b then true else false.

Definition code (c : ascii) : nat := nat_of_ascii c.

(** [str.isspace] on the 7-bit range: TAB, LF, VT, FF, CR, FS, GS, RS, US and
    the blank.  The class [\s] of [re] on [str] patterns is the same set. *)
Definition isspace (c : ascii) : bool :=
  let n := code c in
  ((9 <=? n) && (n <=? 13)) || ((28 <=? n) && (n <=? 32)).

Definition isdigit (c : ascii) : bool :=
  let n := code c in (48 <=? n) && (n <=? 57).

Definition isupper (c : ascii) : bool :=
  let n := code c in (65 <=? n) && (n <=? 90).

Definition islower (c : ascii) : bool :=
  let n := code c in (97 <=? n) && (n <=? 122).

(** The class [\w]: letters, digits and the underscore. *)
Definition isword (c : ascii) : bool :=
  isupper c || islower c || isdigit c || Ascii.eqb c "_".

Definition lower_char (c : ascii) : ascii :=
  if isupper c then ascii_of_nat (code c + 32) else c.

(** [s.lower()] *)
Definition lower (s : str) : str := map lower_char s.

(** [s.lstrip()], [s.rstrip()], [s.strip()] *)
Fixpoint lstrip (s : str) : str :=
  match s with
  | c :: s' => if isspace c then lstrip s' else s
  | [] => []
  end.

Definition rstrip (s : str) : str := rev (lstrip (rev s)).

Definition strip (s : str) : str := rstrip (lstrip s).

(** [s.startswith(p)] *)
Fixpoint startswith (p s : str) : bool :=
  match p, s with
  | [], _ => true
  | a :: p', b :: s' => Ascii.eqb a b && startswith p' s'
  | _ :: _, [] => false
  end.

(** [c in s] for a one-character [c] *)
Definition contains (c : ascii) (s : str) : bool :=
  existsb (Ascii.eqb c) s.

(** [s.split(c, 1)]: the text before the first [c] and the text after it. *)
Fixpoint split1 (c : ascii) (s : str) : str * option str :=
  match s with
  | [] => ([], None)
  | x :: s' =>
      if Ascii.eqb x c then ([], Some s')
      else let '(a, b) := split1 c s' in (x :: a, b)
  end.

(** [s.replace(c, '')] for a one-character [c] *)
Definition remove_char (c : ascii) (s : str) : str :=
  filter (fun x => negb (Ascii.eqb x c)) s.

(** [sep.join(l)] *)
Fixpoint join (sep : str) (l : list str) : str :=
  match l with
  | [] => []
  | [a] => a
  | a :: l' => a ++ sep ++ join sep l'
  end.

Definition LF : ascii := "010"%char.
Definition CR : ascii := "013"%char.

(** Line boundaries of [str.splitlines] on the 7-bit range:
    LF, VT, FF, CR, FS, GS, RS (CR LF counts once). *)
Definition islinebreak (c : ascii) : bool :=
  let n := code c in
  ((10 <=? n) && (n <=? 13)) || ((28 <=? n) && (n <=? 30)).

(** [s.splitlines()]: [cur] is the line being read, reversed; [skiplf] is set
    right after a CR, whose LF belongs to the same boundary. *)
Fixpoint splitlines_aux (s : str) (cur : str) (skiplf : bool) : list str :=
  match s with
  | [] => match cur with [] => [] | _ => [rev cur] end
  | c :: s' =>
      if skiplf && Ascii.eqb c LF then splitlines_aux s' cur false
      else if islinebreak c
           then rev cur :: splitlines_aux s' [] (Ascii.eqb c CR)
           else splitlines_aux s' (c :: cur) false
  end.

Definition splitlines (s : str) : list str := splitlines_aux s [] false.

(** Iterating an [io.StringIO]: lines end after each LF and keep it; a last
    line without LF is yielded as it is. *)
Fixpoint readlines_aux (s : str) (cur : str) : list str :=
  match s with
  | [] => match cur with [] => [] | _ => [rev cur] end
  | c :: s' =>
      if Ascii.eqb c LF then rev (c :: cur) :: readlines_aux s' []
      else readlines_aux s' (c :: cur)
  end.

Definition readlines (s : str) : list str := readlines_aux s [].

(** [str(n)] for an [int] *)
Definition str_of_int (z : Z) : str :=
  L (NilZero.string_of_int (Z.to_int z)).

Definition digit_val (c : ascii) : Z := Z.of_nat (code c - 48).

(** The digits of [int(s)]: decimal digits, single underscores allowed between
    two digits.  [acc] is the value read so far, [prev_digit] tells whether the
    previous character was a digit. *)
Fixpoint int_digits (s : str) (acc : Z) (prev_digit : bool) : option Z :=
  match s with
  | [] => if prev_digit then Some acc else None
  | c :: s' =>
      if isdigit c then int_digits s' (10 * acc + digit_val c)%Z true
      else if Ascii.eqb c "_" && prev_digit
           then match s' with
                | d :: _ => if isdigit d then int_digits s' acc false else None
                | [] => None
                end
           else None
  end.

(** [int(s)]: surrounding whitespace, an optional sign, then the digits;
    [None] stands for [ValueError]. *)
Definition int_of_str (s : str) : option Z :=
  match strip s with
  | "-"%char :: d => option_map Z.opp (int_digits d 0%Z false)
  | "+"%char :: d => int_digits d 0%Z false
  | d => int_digits d 0%Z false
  end.

End Py.

(* ================================================================= *)
(** ** Dictionaries in insertion order *)

Module Dict.

(** The dictionaries with values in [V]. *)
Abbreviation t V := (list (str * V)).

Section Ops.
Context {V : Type}.

Fixpoint get (k : str) (d : t V) : option V :=
  match d with
  | [] => None
  | (k', v) :: d' => if Py.str_eqb k k' then Some v else get k d'
  end.

Definition mem (k : str) (d : t V) : bool :=
  match get k d with Some _ => true | None => false end.

(** [d[k] = v] *)
Fixpoint set (k : str) (v : V) (d : t V) : t V :=
  match d with
  | [] => [(k, v)]
  | (k', v') :: d' =>
      if Py.str_eqb k k' then (k', v) :: d' else (k', v') :: set k v d'
  end.

Definition keys (d : t V) : list str := map fst d.

(** [dict(pairs)] *)
Definition of_pairs (l : list (str * V)) : t V :=
  fold_left (fun d kv => set (fst kv) (snd kv) d) l [].

(** [d.get(k, dflt)] *)
Definition get_default (k : str) (dflt : V) (d : t V) : V :=
  match get k d with Some v => v | None => dflt end.
End Ops.


End Dict.

(* ================================================================= *)
(** ** Regular expressions *)

Module Re.

(** The fragment of Python's [re] syntax the program uses.  [Rep lazy plus p]
    repeats the one-character class [p]: [p*], [p+], [p*?], [p+?]. *)
Inductive re : Type :=
| Eps
| Lit (c : ascii)
| Cls (p : ascii -> bool)
| Seq (r1 r2 : re)
| Opt (r : re)
| Rep (lazy plus : bool) (p : ascii -> bool)
| Cap (r : re)
| Bol (multiline : bool)
| Eol.

Definition seq (l : list re) : re := fold_right Seq Eps l.

(** The literal text [s]. *)
Definition lit (s : string) : re := seq (map Lit (L s)).

(** [.] without DOTALL *)
Definition dot (c : ascii) : bool := negb (Ascii.eqb c Py.LF).
Definition space := Py.isspace.
Definition nonspace (c : ascii) : bool := negb (Py.isspace c).
Definition word := Py.isword.
Definition digit := Py.isdigit.
Definition none_of (s : string) (c : ascii) : bool := negb (Py.contains c (L s)).
Definition one_of (s : string) (c : ascii) : bool := Py.contains c (L s).

Section Matcher.
Context {A : Type}.

(** A continuation receives the character before the current position and
    the remaining input. *)

Fixpoint rep_greedy (p : ascii -> bool) (prev : option ascii) (s : str)
         (k : option ascii -> str -> option A) : option A :=
  match s with
  | c :: s' =>
      if p c then
        match rep_greedy p (Some c) s' k with
        | Some r => Some r
        | None => k prev s
        end
      else k prev s
  | [] => k prev []
  end.

Fixpoint rep_lazy (p : ascii -> bool) (prev : option ascii) (s : str)
         (k : option ascii -> str -> option A) : option A :=
  match k prev s with
  | Some r => Some r
  | None =>
      match s with
      | c :: s' => if p c then rep_lazy p (Some c) s' k else None
      | [] => None
      end
  end.

Definition rep (lazy plus : bool) (p : ascii -> bool) (prev : option ascii)
           (s : str) (k : option ascii -> str -> option A) : option A :=
  let star := if lazy then rep_lazy p else rep_greedy p in
  if plus then
    match s with
    | c :: s' => if p c then star (Some c) s' k else None
    | [] => None
    end
  else star prev s k.
End Matcher.

(** The text consumed between the input [s] and its suffix [s']. *)
Definition consumed (s s' : str) : str := firstn (List.length s - List.length s') s.

Definition at_bol (multiline : bool) (prev : option ascii) : bool :=
  match prev with
  | None => true
  | Some c => multiline && Ascii.eqb c Py.LF
  end.

Definition at_eol (s : str) : bool :=
  match s with
  | [] => true
  | [c] => Ascii.eqb c Py.LF
  | _ => false
  end.

Definition result := (list str * str)%type.
Definition cont := option ascii -> str -> list str -> option result.

(** [run r prev s caps k]: match [r] at the current position, then [k].
    Groups are recorded in [caps] in the order in which they close. *)
Fixpoint run (r : re) (prev : option ascii) (s : str) (caps : list str)
         (k : cont) : option result :=
  match r with
  | Eps => k prev s caps
  | Lit c =>
      match s with
      | x :: s' => if Ascii.eqb x c then k (Some x) s' caps else None
      | [] => None
      end
  | Cls p =>
      match s with
      | x :: s' => if p x then k (Some x) s' caps else None
      | [] => None
      end
  | Seq r1 r2 =>
      run r1 prev s caps (fun prev' s' caps' => run r2 prev' s' caps' k)
  | Opt r' =>
      match run r' prev s caps k with
      | Some x => Some x
      | None => k prev s caps
      end
  | Rep lazy plus p =>
      rep lazy plus p prev s (fun prev' s' => k prev' s' caps)
  | Cap r' =>
      run r' prev s caps
          (fun prev' s' caps' => k prev' s' (caps' ++ [consumed s s']))
  | Bol ml => if at_bol ml prev then k prev s caps else None
  | Eol => if at_eol s then k prev s caps else None
  end.

(** Matching at a position whose previous character is [prev]: the groups and
    the unread input. *)
Definition match_at (r : re) (prev : option ascii) (s : str) : option result :=
  run r prev s [] (fun _ s' caps => Some (caps, s')).

(** [re.match(r, s)] *)
Definition match_ (r : re) (s : str) : option result := match_at r None s.

(** One match of a scan: where it starts and its groups. *)
Record found := { start : nat; groups : list str }.

(** [r.finditer(s)]: leftmost matches, the scan resuming where the previous
    match ended.  [skip] counts the characters of the previous match that are
    still to be passed, [off] is the current offset. *)
Fixpoint scan (r : re) (prev : option ascii) (s : str) (skip off : nat)
  : list found :=
  match s with
  | [] =>
      match skip with
      | O => match match_at r prev [] with
             | Some (caps, _) => [{| start := off; groups := caps |}]
             | None => []
             end
      | S _ => []
      end
  | c :: s' =>
      match skip with
      | S n => scan r (Some c) s' n (S off)
      | O =>
          match match_at r prev s with
          | Some (caps, rest) =>
              {| start := off; groups := caps |}
                :: scan r (Some c) s' (List.length s - List.length rest - 1) (S off)
          | None => scan r (Some c) s' 0 (S off)
          end
      end
  end.

Definition finditer (r : re) (s : str) : list found := scan r None s 0 0.

End Re.

(* ================================================================= *)
(** ** Schema extraction: [parse_fx_uniforms] *)

Definition dquote : ascii := "034"%char.

(** One entry of the list [uniforms]: the dictionary with the keys
    [type], [name], [meta] and [default]. *)
Record uniform : Type := {
  utype : str;
  name : str;
  meta : Dict.t str;
  default : str
}.

(** [#define\s+(\w+)\s+([\d\.]+)] *)
Definition define_pattern : Re.re :=
  Re.seq [Re.lit "#define"; Re.Rep false true Re.space;
          Re.Cap (Re.Rep false true Re.word); Re.Rep false true Re.space;
          Re.Cap (Re.Rep false true
                         (fun c => Re.digit c || Ascii.eqb c "."))].

(** [uniform\s+(\w+)\s+(\w+)\s*<(G)>\s*=\s*([^;]+);] where the group [G] is
    any run, possibly empty, of characters other than [>]. *)
Definition pattern : Re.re :=
  Re.seq [Re.lit "uniform"; Re.Rep false true Re.space;
          Re.Cap (Re.Rep false true Re.word); Re.Rep false true Re.space;
          Re.Cap (Re.Rep false true Re.word); Re.Rep false false Re.space;
          Re.Lit "<"; Re.Cap (Re.Rep false false (Re.none_of ">"));
          Re.Lit ">"; Re.Rep false false Re.space; Re.Lit "=";
          Re.Rep false false Re.space;
          Re.Cap (Re.Rep false true (Re.none_of ";")); Re.Lit ";"].

(** The class of the characters other than [;], LF and the double quote. *)
Definition meta_value_char (c : ascii) : bool :=
  negb (Ascii.eqb c ";" || Ascii.eqb c Py.LF || Ascii.eqb c dquote).

(** [(\w+)\s*=\s*Q?(V+)Q?;?] where [Q] is the double quote and [V] the class
    above. *)
Definition meta_pattern : Re.re :=
  Re.seq [Re.Cap (Re.Rep false true Re.word); Re.Rep false false Re.space;
          Re.Lit "="; Re.Rep false false Re.space; Re.Opt (Re.Lit dquote);
          Re.Cap (Re.Rep false true meta_value_char);
          Re.Opt (Re.Lit dquote); Re.Opt (Re.Lit ";")].

(** [^-?\d+(\.\d+)?$] *)
Definition number_pattern : Re.re :=
  Re.seq [Re.Bol false; Re.Opt (Re.Lit "-"); Re.Rep false true Re.digit;
          Re.Opt (Re.Cap (Re.Seq (Re.Lit ".") (Re.Rep false true Re.digit)));
          Re.Eol].

Definition group (i : nat) (m : Re.found) : str := nth i (Re.groups m) [].

(** The loop filling [defines]. *)
Definition parse_defines (text : str) : Dict.t str :=
  fold_left (fun d m => Dict.set (group 0 m) (group 1 m) d)
            (Re.finditer define_pattern text) [].

(** [dict(meta_pattern.findall(meta))] *)
Definition parse_meta (m : str) : Dict.t str :=
  Dict.of_pairs (map (fun f => (group 0 f, group 1 f))
                     (Re.finditer meta_pattern m)).

Definition is_number (v : str) : bool :=
  match Re.match_ number_pattern v with Some _ => true | None => false end.

Definition fallback (k : str) : str :=
  if Py.str_eqb k (L "ui_min") then L "0" else L "100".

(** One turn of the loop [for k in ('ui_min', 'ui_max')]. *)
Definition resolve_key (defines : Dict.t str) (k : str) (meta_dict : Dict.t str)
  : Dict.t str :=
  match Dict.get k meta_dict with
  | Some v =>
      match v with
      | [] => meta_dict
      | _ :: _ =>
          if is_number v then meta_dict
          else match Dict.get v defines with
               | Some d => Dict.set k d meta_dict
               | None => Dict.set k (fallback k) meta_dict
               end
      end
  | None => meta_dict
  end.

Definition resolve (defines : Dict.t str) (meta_dict : Dict.t str) : Dict.t str :=
  resolve_key defines (L "ui_max") (resolve_key defines (L "ui_min") meta_dict).

(** The body of the loop over [pattern.finditer(text)]. *)
Definition make_uniform (defines : Dict.t str) (m : Re.found) : uniform :=
  {| utype := group 0 m;
     name := group 1 m;
     meta := resolve defines (parse_meta (group 2 m));
     default := Py.strip (group 3 m) |}.

(** [parse_fx_uniforms], on the text of the file. *)
Definition parse_fx_uniforms (text : str) : list uniform :=
  map (make_uniform (parse_defines text)) (Re.finditer pattern text).

(* ================================================================= *)
(** ** [configparser]: the reader and the mapping protocol *)

Definition nl : str := [Py.LF].

Module ConfigParser.

(** [default_section] *)
Definition DEFAULTSECT : str := L "DEFAULT".

(** The exceptions [read_string] can raise.  [ParsingError] carries the
    numbers and texts of the lines that were refused. *)
Inductive error : Type :=
| DuplicateSectionError (section : str) (lineno : nat)
| DuplicateOptionError (section option : str) (lineno : nat)
| MissingSectionHeaderError (lineno : nat) (line : str)
| ParsingError (lines : list (nat * str)).

(** A parser after reading: [_sections] and [_defaults]. *)
Record t : Type := {
  _sections : Dict.t (Dict.t str);
  _defaults : Dict.t str
}.

(** [ConfigParser(interpolation=None)] *)
Definition empty : t := {| _sections := []; _defaults := [] |}.

(** [SECTCRE]: an opening bracket, the group [(.+)], a closing bracket. *)
Definition SECTCRE : Re.re :=
  Re.seq [Re.Lit "["; Re.Cap (Re.Rep false true Re.dot); Re.Lit "]"].

(** [OPTCRE]: the lazy group [option], [\s*], the group [vi] (one of the two
    delimiters), [\s*], the greedy group [value], [$]. *)
Definition OPTCRE : Re.re :=
  Re.seq [Re.Cap (Re.Rep true false Re.dot); Re.Rep false false Re.space;
          Re.Cap (Re.Cls (Re.one_of "=:")); Re.Rep false false Re.space;
          Re.Cap (Re.Rep false false Re.dot); Re.Eol].

(** [cursect]: which dictionary the reader is filling. *)
Inductive cursor : Type :=
| NoSection
| InDefaults
| InSection (name : str).

(** The local state of [_read].  While reading, a value is the list of its
    lines. *)
Record reader : Type := {
  r_sections : Dict.t (Dict.t (list str));
  r_defaults : Dict.t (list str);
  added_sections : list str;
  added_options : list (str * str);
  cursect : cursor;
  sectname : option str;
  optname : option str;
  indent_level : nat;
  e : list (nat * str)
}.

Definition start : reader :=
  {| r_sections := []; r_defaults := []; added_sections := [];
     added_options := []; cursect := NoSection; sectname := None;
     optname := None; indent_level := 0; e := [] |}.

(** The dictionary [cursect] points to. *)
Definition cur_dict (st : reader) : Dict.t (list str) :=
  match cursect st with
  | NoSection => []
  | InDefaults => r_defaults st
  | InSection n => Dict.get_default n [] (r_sections st)
  end.

Definition with_cur_dict (st : reader) (d : Dict.t (list str)) : reader :=
  match cursect st with
  | NoSection => st
  | InDefaults =>
      {| r_sections := r_sections st; r_defaults := d;
         added_sections := added_sections st;
         added_options := added_options st; cursect := cursect st;
         sectname := sectname st; optname := optname st;
         indent_level := indent_level st; e := e st |}
  | InSection n =>
      {| r_sections := Dict.set n d (r_sections st);
         r_defaults := r_defaults st;
         added_sections := added_sections st;
         added_options := added_options st; cursect := cursect st;
         sectname := sectname st; optname := optname st;
         indent_level := indent_level st; e := e st |}
  end.

(** [cursect[optname].append(v)] *)
Definition append_value (st : reader) (o : str) (v : str) : reader :=
  match Dict.get o (cur_dict st) with
  | Some l => with_cur_dict st (Dict.set o (l ++ [v]) (cur_dict st))
  | None => st
  end.

(** Truth of [cursect is not None and optname]. *)
Definition in_option (st : reader) : option str :=
  match cursect st, optname st with
  | NoSection, _ => None
  | _, Some (c :: o) => Some (c :: o)
  | _, _ => None
  end.

Definition is_comment (line : str) : bool :=
  Py.startswith (L "#") (Py.strip line) || Py.startswith (L ";") (Py.strip line).

(** [NONSPACECRE.search(line).start()] *)
Fixpoint first_nonspace (line : str) : nat :=
  match line with
  | c :: l => if Py.isspace c then S (first_nonspace l) else 0
  | [] => 0
  end.

Definition pair_eqb (a b : str * str) : bool :=
  Py.str_eqb (fst a) (fst b) && Py.str_eqb (snd a) (snd b).

Definition set_indent (st : reader) (n : nat) : reader :=
  {| r_sections := r_sections st; r_defaults := r_defaults st;
     added_sections := added_sections st; added_options := added_options st;
     cursect := cursect st; sectname := sectname st; optname := optname st;
     indent_level := n; e := e st |}.

Definition handle_error (st : reader) (lineno : nat) (line : str) : reader :=
  {| r_sections := r_sections st; r_defaults := r_defaults st;
     added_sections := added_sections st; added_options := added_options st;
     cursect := cursect st; sectname := sectname st; optname := optname st;
     indent_level := indent_level st; e := e st ++ [(lineno, line)] |}.

(** A section header [sectname] at line [lineno]. *)
Definition enter_section (st : reader) (lineno : nat) (header : str)
  : reader + error :=
  if Dict.mem header (r_sections st) then
    if existsb (Py.str_eqb header) (added_sections st)
    then inr (DuplicateSectionError header lineno)
    else inl {| r_sections := r_sections st; r_defaults := r_defaults st;
                added_sections := added_sections st ++ [header];
                added_options := added_options st;
                cursect := InSection header; sectname := Some header;
                optname := None; indent_level := indent_level st; e := e st |}
  else if Py.str_eqb header DEFAULTSECT then
    inl {| r_sections := r_sections st; r_defaults := r_defaults st;
           added_sections := added_sections st;
           added_options := added_options st;
           cursect := InDefaults; sectname := Some header;
           optname := None; indent_level := indent_level st; e := e st |}
  else
    inl {| r_sections := Dict.set header [] (r_sections st);
           r_defaults := r_defaults st;
           added_sections := added_sections st ++ [header];
           added_options := added_options st;
           cursect := InSection header; sectname := Some header;
           optname := None; indent_level := indent_level st; e := e st |}.

(** An option line whose groups are [option] and [value]. *)
Definition enter_option (st : reader) (lineno : nat) (line option value : str)
  : reader + error :=
  let st1 := match option with [] => handle_error st lineno line | _ => st end in
  let o := Py.rstrip option in
  let sn := match sectname st1 with Some n => n | None => [] end in
  if existsb (pair_eqb (sn, o)) (added_options st1)
  then inr (DuplicateOptionError sn o lineno)
  else
    let st2 := with_cur_dict st1 (Dict.set o [Py.strip value] (cur_dict st1)) in
    inl {| r_sections := r_sections st2; r_defaults := r_defaults st2;
           added_sections := added_sections st2;
           added_options := added_options st2 ++ [(sn, o)];
           cursect := cursect st2; sectname := sectname st2;
           optname := Some o; indent_level := indent_level st2; e := e st2 |}.

(** The branch of [_read] that looks for a section header, then for an
    option. *)
Definition header_or_option (st : reader) (lineno : nat) (line value : str)
  : reader + error :=
  match Re.match_ SECTCRE value with
  | Some (caps, _) => enter_section st lineno (nth 0 caps [])
  | None =>
      match cursect st with
      | NoSection => inr (MissingSectionHeaderError lineno line)
      | _ =>
          match Re.match_ OPTCRE value with
          | Some (caps, _) =>
              enter_option st lineno line (nth 0 caps []) (nth 2 caps [])
          | None => inl (handle_error st lineno line)
          end
      end
  end.

(** The body of the loop of [_read] for the line [line], numbered [lineno]. *)
Definition read_line (st : reader) (lineno : nat) (line : str) : reader + error :=
  let comment := is_comment line in
  let value := if comment then [] else Py.strip line in
  match value with
  | [] =>
      match in_option st with
      | Some o => if comment then inl st else inl (append_value st o [])
      | None => inl st
      end
  | _ :: _ =>
      let cur_indent_level := first_nonspace line in
      match in_option st with
      | Some o =>
          if indent_level st <? cur_indent_level
          then inl (append_value st o value)
          else header_or_option (set_indent st cur_indent_level) lineno line value
      | None => header_or_option (set_indent st cur_indent_level) lineno line value
      end
  end.

(** The loop of [_read]: an exception raised in the body ends it. *)
Fixpoint read_lines (st : reader) (lineno : nat) (lines : list str)
  : reader + error :=
  match lines with
  | [] => inl st
  | line :: rest =>
      match read_line st lineno line with
      | inl st' => read_lines st' (S lineno) rest
      | inr err => inr err
      end
  end.

(** [_join_multiline_values] on one dictionary. *)
Definition join_values (d : Dict.t (list str)) : Dict.t str :=
  map (fun kv => (fst kv, Py.rstrip (Py.join nl (snd kv)))) d.

Definition finish (st : reader) : t :=
  {| _sections := map (fun sd => (fst sd, join_values (snd sd))) (r_sections st);
     _defaults := join_values (r_defaults st) |}.

(** [read_string] on a fresh parser: the parser read, or the exception. *)
Definition read_string (content : str) : t + error :=
  match read_lines start 1 (Py.readlines content) with
  | inl st =>
      match e st with
      | [] => inl (finish st)
      | bad => inr (ParsingError bad)
      end
  | inr err => inr err
  end.

(** [parser.sections()] *)
Definition sections (c : t) : list str := Dict.keys (_sections c).

(** [parser.has_section(s)] *)
Definition has_section (c : t) (s : str) : bool := Dict.mem s (_sections c).

(** [s in parser] *)
Definition contains (c : t) (s : str) : bool :=
  Py.str_eqb s DEFAULTSECT || has_section c s.

(** [parser.add_section(s)], for a section that is not in the parser. *)
Definition add_section (c : t) (s : str) : t :=
  {| _sections := Dict.set s [] (_sections c); _defaults := _defaults c |}.

(** [parser[s].items()] for a section in the parser: the section's own
    entries, then those of [_defaults] whose key the section does not have. *)
Definition items (c : t) (s : str) : Dict.t str :=
  if Py.str_eqb s DEFAULTSECT then _defaults c
  else
    let own := Dict.get_default s [] (_sections c) in
    own ++ filter (fun kv => negb (Dict.mem (fst kv) own)) (_defaults c).

(** [parser[s].keys()] *)
Definition keys (c : t) (s : str) : list str := Dict.keys (items c s).

(** [parser[s].get(k, fallback)] for a section in the parser. *)
Definition get (c : t) (s k : str) (fallback : str) : str :=
  Dict.get_default k fallback (items c s).

(** Truth of [not section or section == self.default_section]: the section
    names [RawConfigParser.set] files under [_defaults]. *)
Definition to_defaults (s : str) : bool :=
  match s with
  | [] => true
  | _ :: _ => Py.str_eqb s DEFAULTSECT
  end.

(** [parser[s][k] = v] for a section in the parser: the entry goes to
    [_defaults] when the name of the section is empty or that of the default
    section, else to the dictionary of the section. *)
Definition set (c : t) (s k v : str) : t :=
  if to_defaults s
  then {| _sections := _sections c; _defaults := Dict.set k v (_defaults c) |}
  else {| _sections :=
            Dict.set s (Dict.set k v (Dict.get_default s [] (_sections c)))
                     (_sections c);
          _defaults := _defaults c |}.

End ConfigParser.

(* ================================================================= *)
(** ** The configuration store: [parse_ini] *)

(** [^\[(.+?)\]], applied to one line with [re.match]. *)
Definition header_line_pattern : Re.re :=
  Re.seq [Re.Bol false; Re.Lit "["; Re.Cap (Re.Rep true true Re.dot);
          Re.Lit "]"].

(** [\s*\[.*?\]], applied to the whole text with [re.match]. *)
Definition leading_header_pattern : Re.re :=
  Re.seq [Re.Rep false false Re.space; Re.Lit "[";
          Re.Rep true false Re.dot; Re.Lit "]"].

(** [^(\w+)\s*=] with [re.MULTILINE] *)
Definition bare_key_pattern : Re.re :=
  Re.seq [Re.Bol true; Re.Cap (Re.Rep false true Re.word);
          Re.Rep false false Re.space; Re.Lit "="].

(** The two casing maps and [current_section] while the lines are scanned. *)
Record casing : Type := {
  section_name_map : Dict.t str;
  key_name_map : Dict.t (Dict.t str);
  current_section : option str
}.

(** The body of the loop over [content.splitlines()]. *)
Definition scan_line (st : casing) (line : str) : casing :=
  match Re.match_ header_line_pattern line with
  | Some (caps, _) =>
      let cs := nth 0 caps [] in
      {| section_name_map := Dict.set (Py.lower cs) cs (section_name_map st);
         key_name_map := Dict.set (Py.lower cs) [] (key_name_map st);
         current_section := Some cs |}
  | None =>
      match current_section st with
      | Some (c :: cs') =>
          let cs := c :: cs' in
          if Py.contains "=" line then
            let key := Py.strip (fst (Py.split1 "=" line)) in
            let inner := Dict.get_default (Py.lower cs) [] (key_name_map st) in
            {| section_name_map := section_name_map st;
               key_name_map :=
                 Dict.set (Py.lower cs) (Dict.set (Py.lower key) key inner)
                          (key_name_map st);
               current_section := current_section st |}
          else st
      | _ => st
      end
  end.

Definition scan_casing (content : str) : casing :=
  fold_left scan_line (Py.splitlines content)
            {| section_name_map := []; key_name_map := [];
               current_section := None |}.

(** Truth of [re.match(r'\s*\[.*?\]', content)]. *)
Definition has_leading_header (content : str) : bool :=
  match Re.match_ leading_header_pattern content with
  | Some _ => true
  | None => false
  end.

(** [re.findall(r'^(\w+)\s*=', content, re.MULTILINE)] *)
Definition bare_keys (content : str) : list str :=
  map (group 0) (Re.finditer bare_key_pattern content).

(** What a call of [parse_ini] on an existing file ends with: the tuple it
    returns ([config] is [None] in the duplicate-section branch, and [err]
    stands for [str(e)]), or the exception that leaves it. *)
Inductive outcome : Type :=
| Returned (config : option ConfigParser.t) (smap : Dict.t str)
           (kmap : Dict.t (Dict.t str)) (err : option ConfigParser.error)
| Raised (exn : ConfigParser.error).

(** [parse_ini] on the text [content] read from the file. *)
Definition parse_ini (content : str) : outcome :=
  let maps := scan_casing content in
  let '(content', smap, kmap) :=
    if has_leading_header content
    then (content, section_name_map maps, key_name_map maps)
    else
      let content' := L "[GLOBAL]" ++ nl ++ content in
      (content',
       Dict.set (L "global") (L "GLOBAL") (section_name_map maps),
       Dict.set (L "global")
                (Dict.of_pairs (map (fun k => (k, k)) (bare_keys content')))
                (key_name_map maps)) in
  match ConfigParser.read_string content' with
  | inl config => Returned (Some config) smap kmap None
  | inr (ConfigParser.DuplicateSectionError s n) =>
      Returned None smap kmap (Some (ConfigParser.DuplicateSectionError s n))
  | inr exn => Raised exn
  end.

(* ================================================================= *)
(** ** Writing the store: the file-writing part of [save_ini] *)

Definition GLOBAL : str := L "GLOBAL".

(** The inner loop: one line [orig_key=v] per entry of the section. *)
Definition write_items (km : Dict.t str) (entries : Dict.t str) : str :=
  flat_map (fun kv => Dict.get_default (fst kv) (fst kv) km
                        ++ L "=" ++ snd kv ++ nl) entries.

(** The loop over [config.sections()]; [wrote_any] as in the source. *)
Fixpoint write_sections (config : ConfigParser.t) (smap : Dict.t str)
         (kmap : Dict.t (Dict.t str)) (names : list str) (wrote_any : bool)
  : str :=
  match names with
  | [] => []
  | section :: rest =>
      if Py.str_eqb section GLOBAL
      then write_sections config smap kmap rest wrote_any
      else
        (if wrote_any then nl else [])
          ++ L "[" ++ Dict.get_default (Py.lower section) section smap
          ++ L "]" ++ nl
          ++ write_items (Dict.get_default (Py.lower section) [] kmap)
                         (ConfigParser.items config section)
          ++ write_sections config smap kmap rest true
  end.

(** The text [save_ini] writes to the file for the store [config]. *)
Definition write_ini (config : ConfigParser.t) (smap : Dict.t str)
           (kmap : Dict.t (Dict.t str)) : str :=
  if ConfigParser.contains config GLOBAL
  then write_items (Dict.get_default (L "global") [] kmap)
                   (ConfigParser.items config GLOBAL)
         ++ write_sections config smap kmap (ConfigParser.sections config) true
  else write_sections config smap kmap (ConfigParser.sections config) false.

(* ================================================================= *)
(** ** The layout check of [load_ini] *)

(** [normkey] *)
Definition normkey (k : str) : str := Py.lower (Py.remove_char "_" k).

Definition mem_str (k : str) (l : list str) : bool := existsb (Py.str_eqb k) l.

(** [fx_keys], [ini_keys] and [missing]; the three sets are kept as lists,
    only membership and emptiness are used. *)
Definition fx_keys (uniforms : list uniform) : list str :=
  map (fun u => normkey (name u)) uniforms.

Definition ini_keys (config : ConfigParser.t) (section : str) : list str :=
  if ConfigParser.contains config section
  then map normkey (ConfigParser.keys config section)
  else [].

Definition missing (config : ConfigParser.t) (section : str)
           (uniforms : list uniform) : list str :=
  filter (fun k => negb (mem_str k (ini_keys config section))) (fx_keys uniforms).

Inductive layout : Type :=
| LayoutOk
| LayoutMismatch (orig_fx : list str).

(** The check: [LayoutMismatch orig_fx] is the branch that reports the names
    (the message lists [sorted(orig_fx)]) and returns. *)
Definition check_layout (config : ConfigParser.t) (section : str)
           (uniforms : list uniform) : layout :=
  match missing config section uniforms with
  | [] => LayoutOk
  | m => LayoutMismatch
           (map name (filter (fun u => mem_str (normkey (name u)) m) uniforms))
  end.

(* ================================================================= *)
(** ** The binding functions *)

Section Binding.

(** Python's [float]: the type, [float(s)] ([None] for [ValueError]) and
    [str(x)]. *)
Variable float : Type.
Variable float_of_str : str -> option float.
Variable str_of_float : float -> str.

(** The widget classes the two functions tell apart, with the value each
    holds; any other widget is read through [text()]. *)
Inductive widget : Type :=
| QComboBox (currentIndex : Z)
| QSpinBox (value : Z)
| QDoubleSpinBox (value : float)
| QCheckBox (isChecked : bool)
| QLineEdit (text : str).

(** The string [update_ini_from_widgets] computes for a widget. *)
Definition widget_value (w : widget) : str :=
  match w with
  | QComboBox i => Py.str_of_int i
  | QSpinBox v => Py.str_of_int v
  | QDoubleSpinBox x => str_of_float x
  | QCheckBox b => if b then L "1" else L "0"
  | QLineEdit s => s
  end.

Definition update_ini_from_widgets (config : ConfigParser.t) (section : str)
           (uniforms : list uniform) (widgets : Dict.t widget) : ConfigParser.t :=
  let config1 :=
    if ConfigParser.contains config section then config
    else ConfigParser.add_section config section in
  fold_left (fun c u =>
               match Dict.get (name u) widgets with
               | None => c
               | Some w => ConfigParser.set c section (name u) (widget_value w)
               end)
            uniforms config1.

(** The setter [set_widgets_from_ini] calls on a widget, with its argument. *)
Inductive call : Type :=
| setCurrentIndex (i : Z)
| setValue (x : float)
| setChecked (b : bool)
| setText (s : str).

Definition truth_set : list str := [L "1"; L "true"; L "yes"].

(** The [try] block: the call made for [value], or [None] when the conversion
    raises and the [except] clause passes. *)
Definition set_widget (w : widget) (value : str) : option call :=
  match w with
  | QComboBox _ => option_map setCurrentIndex (Py.int_of_str value)
  | QSpinBox _ | QDoubleSpinBox _ => option_map setValue (float_of_str value)
  | QCheckBox _ => Some (setChecked (mem_str (Py.lower value) truth_set))
  | QLineEdit _ => Some (setText value)
  end.

(** [set_widgets_from_ini]: the setter calls it makes, in order, each with
    the name of the widget it is made on. *)
Definition set_widgets_from_ini (config : ConfigParser.t) (section : str)
           (uniforms : list uniform) (widgets : Dict.t widget)
  : list (str * call) :=
  if negb (ConfigParser.contains config section) then []
  else
    flat_map (fun u =>
                match Dict.get (name u) widgets with
                | None => []
                | Some w =>
                    match set_widget w (ConfigParser.get config section (name u)
                                                         (default u)) with
                    | Some c => [(name u, c)]
                    | None => []
                    end
                end)
             uniforms.

End Binding.

Arguments QComboBox {float}.
Arguments QSpinBox {float}.
Arguments QDoubleSpinBox {float}.
Arguments QCheckBox {float}.
Arguments QLineEdit {float}.
Arguments setCurrentIndex {float}.
Arguments setValue {float}.
Arguments setChecked {float}.
Arguments setText {float}.

(** The text made of the given lines, each ended by LF. *)
Definition lines (l : list string) : str := flat_map (fun s => L s ++ nl) l.

(* ================================================================= *)
(** ** Vocabulary of the statements *)

(** The value the dictionary of section [s] itself holds for [k]
    ([_defaults] when [s] is the default section). *)
Definition stored (c : ConfigParser.t) (s k : str) : option str :=
  if Py.str_eqb s ConfigParser.DEFAULTSECT then Dict.get k (ConfigParser._defaults c)
  else match Dict.get s (ConfigParser._sections c) with
       | Some d => Dict.get k d
       | None => None
       end.

(** The keys of the dictionary of section [s] itself, in its order. *)
Definition own_keys (c : ConfigParser.t) (s : str) : list str :=
  if Py.str_eqb s ConfigParser.DEFAULTSECT
  then Dict.keys (ConfigParser._defaults c)
  else Dict.keys (Dict.get_default s [] (ConfigParser._sections c)).

(** The value a lookup in section [s] finds for [k]: the section's own, else
    the one of the default section. *)
Definition lookup (c : ConfigParser.t) (s k : str) : option str :=
  match stored c s k with
  | Some v => Some v
  | None => Dict.get k (ConfigParser._defaults c)
  end.

(** The declaration [u] has, among the keys the parser shows for the target
    section (the section's own and those of the default section), one with
    the same normalized name. *)
Definition has_match (config : ConfigParser.t) (section : str) (u : uniform)
  : Prop :=
  ConfigParser.contains config section = true /\
  exists k, In k (ConfigParser.keys config section) /\ normkey k = normkey (name u).

(** The keys the check can see in the target section. *)
Definition visible_keys (config : ConfigParser.t) (section : str) : list str :=
  if ConfigParser.contains config section
  then ConfigParser.keys config section else [].

Definition ex_decls : list uniform :=
  parse_fx_uniforms
    (lines ["uniform float Strength < ui_min = 0.0; ui_max = 1.0; > = 0.5;";
            "uniform float MaxRadius < ui_label = R; > = 2.0;"]).

Definition config_of (content : str) : ConfigParser.t :=
  match ConfigParser.read_string content with
  | inl c => c
  | inr _ => ConfigParser.empty
  end.

Arguments widget_value {float} str_of_float w.

(** One turn of the loop of [update_ini_from_widgets]. *)
Definition push_value {float : Type} (str_of_float : float -> str)
           (section : str) (widgets : Dict.t (widget float))
           (config : ConfigParser.t) (u : uniform) : ConfigParser.t :=
  match Dict.get (name u) widgets with
  | None => config
  | Some w => ConfigParser.set config section (name u) (widget_value str_of_float w)
  end.
Arguments update_ini_from_widgets {float} str_of_float config section uniforms widgets.
Arguments set_widget {float} float_of_str w value.
Arguments set_widgets_from_ini {float} float_of_str config section uniforms widgets.

(** The value [set_widgets_from_ini] takes for the declaration [u], described
    from the store: the section's own value, else the one of the default
    section, else the default of the declaration. *)
Definition value_for (config : ConfigParser.t) (section : str) (u : uniform) : str :=
  match stored config section (name u) with
  | Some v => v
  | None =>
      match Dict.get (name u) (ConfigParser._defaults config) with
      | Some v => v
      | None => default u
      end
  end.

(** The setter calls made for the declaration [u] once its value is chosen. *)
Definition calls_with {float : Type} (float_of_str : str -> option float)
           (widgets : Dict.t (widget float)) (u : uniform) (value : str)
  : list (str * call float) :=
  match Dict.get (name u) widgets with
  | None => []
  | Some (QComboBox _) =>
      match Py.int_of_str value with
      | Some i => [(name u, setCurrentIndex i)]
      | None => []
      end
  | Some (QSpinBox _) | Some (QDoubleSpinBox _) =>
      match float_of_str value with
      | Some x => [(name u, setValue x)]
      | None => []
      end
  | Some (QCheckBox _) =>
      [(name u, setChecked (mem_str (Py.lower value) [L "1"; L "true"; L "yes"]))]
  | Some (QLineEdit _) => [(name u, setText value)]
  end.

(** The character before the position reached after reading [x] from a
    position preceded by [prev]. *)
Definition prev_after (prev : option ascii) (x : str) : option ascii :=
  match rev x with
  | c :: _ => Some c
  | [] => prev
  end.

(** What a match is, without the search: [matches r prev x rest prev' gs]
    says that, at a position preceded by [prev] and followed by [x ++ rest],
    the expression [r] can take exactly [x], closing the groups [gs]. *)
Inductive matches : Re.re -> option ascii -> str -> str -> option ascii
                    -> list str -> Prop :=
| M_Eps prev rest : matches Re.Eps prev [] rest prev []
| M_Lit c prev rest : matches (Re.Lit c) prev [c] rest (Some c) []
| M_Cls p c prev rest :
    p c = true -> matches (Re.Cls p) prev [c] rest (Some c) []
| M_Seq r1 r2 prev x1 x2 rest p1 p2 g1 g2 :
    matches r1 prev x1 (x2 ++ rest) p1 g1 ->
    matches r2 p1 x2 rest p2 g2 ->
    matches (Re.Seq r1 r2) prev (x1 ++ x2) rest p2 (g1 ++ g2)
| M_Opt_some r prev x rest p' g :
    matches r prev x rest p' g -> matches (Re.Opt r) prev x rest p' g
| M_Opt_none r prev rest : matches (Re.Opt r) prev [] rest prev []
| M_Rep lazy plus p prev x rest :
    Forall (fun c => p c = true) x ->
    (plus = true -> x <> []) ->
    matches (Re.Rep lazy plus p) prev x rest (prev_after prev x) []
| M_Cap r prev x rest p' g :
    matches r prev x rest p' g -> matches (Re.Cap r) prev x rest p' (g ++ [x])
| M_Bol ml prev rest :
    Re.at_bol ml prev = true -> matches (Re.Bol ml) prev [] rest prev []
| M_Eol prev rest :
    Re.at_eol rest = true -> matches Re.Eol prev [] rest prev [].

(** The match [m] reported by a scan of [text] is a match of [r] at the
    offset [start m]. *)
Definition matched_at (r : Re.re) (text : str) (m : Re.found) : Prop :=
  exists pre s rest,
    text = pre ++ s /\ List.length pre = Re.start m /\
    Re.match_at r (prev_after None pre) s = Some (Re.groups m, rest).

Definition ex_twice : str :=
  lines ["uniform float Gain < ui_min = 0.0; > = 1.0;";
         "uniform float Gain < ui_min = 0.5; > = 2.0;"].

(** The header the reader can see on a line: the line is not a comment and
    its stripped text begins with a bracketed name. *)
Definition header_of (line : str) : option str :=
  if ConfigParser.is_comment line then None
  else match Re.match_ ConfigParser.SECTCRE (Py.strip line) with
       | Some (caps, _) => Some (nth 0 caps [])
       | None => None
       end.

(** The text [parse_ini] hands to [read_string]. *)
Definition text_read (content : str) : str :=
  if has_leading_header content then content
  else L "[GLOBAL]" ++ nl ++ content.





(** The text begins, after whitespace, with a bracketed name on one line. *)
Definition leading_header (content : str) : Prop :=
  exists ws body rest,
    content = ws ++ "["%char :: body ++ "]"%char :: rest /\
    Forall (fun c => Py.isspace c = true) ws /\
    Forall (fun c => c <> Py.LF) body.

(** The block written for an explicit section: its header line in the casing
    the section map gives, then its entries. *)
Definition block (config : ConfigParser.t) (smap : Dict.t str)
           (kmap : Dict.t (Dict.t str)) (section : str) : str :=
  L "[" ++ Dict.get_default (Py.lower section) section smap ++ L "]" ++ nl
    ++ write_items (Dict.get_default (Py.lower section) [] kmap)
                   (ConfigParser.items config section).

(** The sections other than GLOBAL, in the order of the store. *)
Definition explicit_sections (config : ConfigParser.t) : list str :=
  filter (fun s => negb (Py.str_eqb s GLOBAL)) (ConfigParser.sections config).

Definition ex_late_header : str := lines ["a=1"; "[S]"; "b=2"].

Definition ex_explicit_global : str := lines ["[S]"; "b=2"; "[GLOBAL]"; "a=1"].

Definition ex_late_global : str := lines ["a=1"; "[GLOBAL]"; "b=2"].

Definition ex_global_after_comment : str := lines ["; note"; "[GLOBAL]"; "a=1"].

(** The text [save_ini] writes right after [parse_ini] read [content]. *)
Definition rewritten (content : str) : option str :=
  match parse_ini content with
  | Returned (Some c) smap kmap _ => Some (write_ini c smap kmap)
  | _ => None
  end.

(** ** Instances used by the examples *)

(** A stand-in for [float] in the examples: whole numbers only. *)
Definition ex_float_of_str (s : str) : option Z := Py.int_of_str s.
Definition ex_str_of_float (x : Z) : str := Py.str_of_int x.

Definition ex_store : ConfigParser.t :=
  config_of (lines ["[Demo.fx]"; "strength=1"; "MaxRadius = 7"; "Mode=two"]).

Definition ex_uniform (n d : string) : uniform :=
  {| utype := L "float"; name := L n; meta := []; default := L d |}.

Definition ex_widgets : Dict.t (widget Z) :=
  [(L "Strength", QDoubleSpinBox 5%Z); (L "MaxRadius", QDoubleSpinBox 3%Z);
   (L "Mode", QComboBox 0%Z)].

Definition ex_define : str :=
  lines ["#define MAX_STR 2.0";
         "uniform float Strength <ui_min=0.0; ui_max=MAX_STR;> = 0.5;"].

Definition ex_inherited : ConfigParser.t :=
  config_of (lines ["[DEFAULT]"; "Strength=9"; "[Demo.fx]"; "foo=1"]).

(** ** Stores that can be written line by line *)

(** No line feed in the text. *)
Definition one_line (s : str) : bool :=
  forallb (fun c => negb (Ascii.eqb c Py.LF)) s.

(** No whitespace at either end. *)
Definition stripped (s : str) : bool :=
  match s with
  | [] => true
  | c :: _ => negb (Py.isspace c) && negb (Py.isspace (last s c))
  end.

(** A key that reads back as itself: not empty, stripped, on one line, without
    delimiter, and not starting like a comment or a header. *)
Definition plain_key (k : str) : bool :=
  match k with
  | [] => false
  | c :: _ => negb (Re.one_of "#;[" c)
  end && stripped k && one_line k && forallb (fun c => negb (Re.one_of "=:" c)) k.

Definition plain_value (v : str) : bool := stripped v && one_line v.

Definition plain_name (s : str) : bool :=
  match s with [] => false | _ :: _ => true end
  && one_line s && negb (Py.str_eqb s ConfigParser.DEFAULTSECT).

Fixpoint nodupb (l : list str) : bool :=
  match l with
  | [] => true
  | a :: l' => negb (mem_str a l') && nodupb l'
  end.

Definition plain_entries (d : Dict.t str) : bool :=
  forallb (fun kv => plain_key (fst kv) && plain_value (snd kv)) d
  && nodupb (Dict.keys d).

Definition plain_sections (sects : Dict.t (Dict.t str)) : bool :=
  forallb (fun sd => plain_name (fst sd) && plain_entries (snd sd)) sects
  && nodupb (Dict.keys sects).

(** The sections a reader state stands for: what [finish] makes of it. *)
Definition view (st : ConfigParser.reader) : Dict.t (Dict.t str) :=
  ConfigParser._sections (ConfigParser.finish st).

(** The lines of a written store, without their line feeds. *)
Definition item_line (kv : str * str) : str := fst kv ++ "="%char :: snd kv.
Definition header_line (s : str) : str := "["%char :: s ++ ["]"%char].

(** The lines of one section; [sep] tells whether an empty line comes first. *)
Definition block_lines (sep : bool) (sd : str * Dict.t str) : list str :=
  (if sep then [[]] else []) ++ header_line (fst sd) :: map item_line (snd sd).

Definition terminated (ls : list str) : list str :=
  map (fun l => l ++ [Py.LF]) ls.

(** The reader is in a state that stands for the sections [done], all read
    without complaint, the last of them being the current one. *)
Record reading (st : ConfigParser.reader) (done : Dict.t (Dict.t str)) : Prop := {
  rd_view : view st = done;
  rd_defaults : ConfigParser.r_defaults st = [];
  rd_e : ConfigParser.e st = [];
  rd_indent : ConfigParser.indent_level st = 0;
  rd_options :
    forall a k, In (a, k) (ConfigParser.added_options st) ->
                exists d, Dict.get a done = Some d /\ In k (Dict.keys d);
  rd_cursor :
    (done = [] /\ ConfigParser.cursect st = ConfigParser.NoSection) \/
    (exists done' s d,
        done = done' ++ [(s, d)] /\
        ConfigParser.cursect st = ConfigParser.InSection s /\
        ConfigParser.sectname st = Some s)
}.

(** The text made of the given lines, each followed by a line feed. *)
Definition flatten (ls : list str) : str := flat_map (fun l => l ++ [Py.LF]) ls.

(** The entries of the sections other than GLOBAL. *)
Definition explicit_entries (c : ConfigParser.t) : Dict.t (Dict.t str) :=
  filter (fun sd => negb (Py.str_eqb (fst sd) GLOBAL)) (ConfigParser._sections c).

(** The store as it is read back from its own text: GLOBAL comes first; an
    empty GLOBAL followed by other sections is left out; a store without any
    section gets an empty GLOBAL. *)
Definition reread_store (c : ConfigParser.t) : ConfigParser.t :=
  {| ConfigParser._sections :=
       match Dict.get GLOBAL (ConfigParser._sections c), explicit_entries c with
       | Some [], b :: rest => b :: rest
       | Some g, rest => (GLOBAL, g) :: rest
       | None, [] => [(GLOBAL, [])]
       | None, rest => rest
       end;
     ConfigParser._defaults := ConfigParser._defaults c |}.

(** The casing maps give back every name of the store as it is stored. *)
Definition casing_kept (c : ConfigParser.t) (smap : Dict.t str)
           (kmap : Dict.t (Dict.t str)) : bool :=
  forallb
    (fun sd =>
       (Py.str_eqb (fst sd) GLOBAL
        || Py.str_eqb (Dict.get_default (Py.lower (fst sd)) (fst sd) smap) (fst sd))
       && forallb
            (fun kv =>
               Py.str_eqb
                 (Dict.get_default (fst kv) (fst kv)
                    (Dict.get_default (Py.lower (fst sd)) [] kmap))
                 (fst kv))
            (snd sd))
    (ConfigParser._sections c).

(** A store whose written text can be read back: no entry in the default
    section, names, keys and values that fit on a line of their own kind, and
    casing maps that keep the names. *)
Definition writable (c : ConfigParser.t) (smap : Dict.t str)
           (kmap : Dict.t (Dict.t str)) : bool :=
  match ConfigParser._defaults c with [] => true | _ :: _ => false end
  && plain_sections (ConfigParser._sections c)
  && casing_kept c smap kmap.

Definition ex_case_clash : str := lines ["[Foo]"; "a=1"; "[foo]"; "b=2"].
Definition ex_default_section : str := lines ["[DEFAULT]"; "z=9"; "[S]"; "a=1"].
Definition ex_multiline : str := lines ["[S]"; "a=1"; " more"; "b=2"].
Definition ex_bracket_key : str := lines ["# settings"; "[]=1"].
Definition ex_plain : str :=
  lines ["[Demo.fx]"; "; tuned by hand"; "Strength = 0.5"; "MaxRadius: 2"; "";
         "[GLOBAL]"; "game_window_title=Demo"].

Definition ex_plain_store : ConfigParser.t :=
  match parse_ini ex_plain with
  | Returned (Some c) _ _ _ => c
  | _ => ConfigParser.empty
  end.

Definition ex_plain_smap : Dict.t str :=
  match parse_ini ex_plain with Returned _ smap _ _ => smap | _ => [] end.

Definition ex_plain_kmap : Dict.t (Dict.t str) :=
  match parse_ini ex_plain with Returned _ _ kmap _ => kmap | _ => [] end.

(** ** What the reader guarantees *)

(** A key as the reader stores it: not empty, stripped, on one line, without
    delimiter, and not starting like a comment. *)
Definition parsed_key (k : str) : bool :=
  match k with
  | [] => false
  | c :: _ => negb (Re.one_of "#;" c)
  end && stripped k && one_line k && forallb (fun c => negb (Re.one_of "=:" c)) k.

(** The lines of a value being read: there is a first one, and it has no
    whitespace in front. *)
Definition head_ok (vs : list str) : Prop :=
  exists v0 rest, vs = v0 :: rest /\ Py.lstrip v0 = v0.

(** An entry of the reader: its key is a parsed key unless some line was
    refused. *)
Definition entry_ok (errs : list (nat * str)) (kvs : str * list str) : Prop :=
  (parsed_key (fst kvs) = true \/ errs <> []) /\ head_ok (snd kvs).

Definition section_ok (errs : list (nat * str)) (sd : str * Dict.t (list str))
  : Prop :=
  plain_name (fst sd) = true /\ NoDup (Dict.keys (snd sd)) /\
  Forall (entry_ok errs) (snd sd).

Record reader_ok (st : ConfigParser.reader) : Prop := {
  ok_names : NoDup (Dict.keys (ConfigParser.r_sections st));
  ok_sections : Forall (section_ok (ConfigParser.e st)) (ConfigParser.r_sections st);
  ok_cursor : forall n, ConfigParser.cursect st = ConfigParser.InSection n ->
                        In n (Dict.keys (ConfigParser.r_sections st))
}.

(** An entry of a store that was read: a parsed key, and a value that is
    stripped when it has one line. *)
Definition parsed_entry (kv : str * str) : Prop :=
  parsed_key (fst kv) = true /\ (one_line (snd kv) = true -> stripped (snd kv) = true).

Definition parsed_store (c : ConfigParser.t) : Prop :=
  NoDup (Dict.keys (ConfigParser._sections c)) /\
  Forall (fun sd => plain_name (fst sd) = true /\ NoDup (Dict.keys (snd sd)) /\
                    Forall parsed_entry (snd sd))
         (ConfigParser._sections c).

(** The conditions of the round trip that depend on the text: nothing in the
    DEFAULT section, one line per value, no key that begins with a bracket,
    casing maps that keep the names. *)
Definition round_trippable (c : ConfigParser.t) (smap : Dict.t str)
           (kmap : Dict.t (Dict.t str)) : bool :=
  match ConfigParser._defaults c with [] => true | _ :: _ => false end
  && forallb
       (fun sd =>
          forallb (fun kv => negb (Py.startswith (L "[") (fst kv))
                             && one_line (snd kv))
                  (snd sd))
       (ConfigParser._sections c)
  && casing_kept c smap kmap.

(* ================================================================= *)
(** * The rest of the program: file lookup, the form, loading and saving *)

(** ** More of Python's strings *)

Module PyStr.

(** [sub in s] for a string [sub] *)
Fixpoint isin (sub s : str) : bool :=
  Py.startswith sub s
  || match s with
     | [] => false
     | _ :: s' => isin sub s'
     end.

(** [s.endswith(suffix)] *)
Definition endswith (suffix s : str) : bool :=
  Py.startswith (rev suffix) (rev s).

(** [s.split(sep)] for a non-empty [sep]: the occurrences of [sep] are found
    from the left and do not overlap.  [cur] is the piece being read,
    reversed; [skip] counts the characters of the separator just found that
    are still to be passed. *)
Fixpoint split_aux (sep s cur : str) (skip : nat) : list str :=
  match s with
  | [] => [rev cur]
  | c :: s' =>
      match skip with
      | S n => split_aux sep s' cur n
      | O =>
          if Py.startswith sep s
          then rev cur :: split_aux sep s' [] (List.length sep - 1)
          else split_aux sep s' (c :: cur) 0
      end
  end.

Definition split (sep s : str) : list str := split_aux sep s [] 0.

(** [a < b] on strings: the order of the code points, a proper prefix first. *)
Fixpoint ltb (a b : str) : bool :=
  match a, b with
  | _, [] => false
  | [], _ :: _ => true
  | x :: a', y :: b' =>
      (Py.code x <? Py.code y) || ((Py.code x =? Py.code y) && ltb a' b')
  end.

Definition leb (a b : str) : bool := negb (ltb b a).

Fixpoint insert (x : str) (l : list str) : list str :=
  match l with
  | [] => [x]
  | y :: l' => if leb x y then x :: l else y :: insert x l'
  end.

(** [sorted(l)] for a list or a set of strings *)
Definition sorted (l : list str) : list str := fold_right insert [] l.

(** [set(l)], as the list of its elements in some order *)
Definition set_of (l : list str) : list str := nodup (list_eq_dec ascii_dec) l.

Definition nonempty (s : str) : bool :=
  match s with [] => false | _ :: _ => true end.

End PyStr.

(* ================================================================= *)
(** ** [find_ini_for_fx] *)

Section FindIni.

(** The functions of [os.path] and [os.listdir]; [listdir] gives [None] when
    it raises [OSError]. *)
Variables basename dirname : str -> str.
Variable splitext : str -> str * str.
Variable path_join : str -> str -> str.
Variable listdir : str -> option (list str).

(** The test of the loop for the directory entry [fname]. *)
Definition ini_candidate (base fname : str) : bool :=
  PyStr.endswith (L ".ini") (Py.lower fname)
  && PyStr.isin (Py.lower base) (Py.lower fname).

(** [find_ini_for_fx]: [None] when [os.listdir] raises, else the value
    returned ([None] of Python is the inner [None]). *)
Definition find_ini_for_fx (fx_path : str) : option (option str) :=
  let base := fst (splitext (basename fx_path)) in
  let dir_ := dirname fx_path in
  match listdir dir_ with
  | Some names =>
      Some (option_map (path_join dir_) (find (ini_candidate base) names))
  | None => None
  end.

End FindIni.

(* ================================================================= *)
(** ** The window class [FXUniformUI] *)

Module FXUniformUI.

(** [get_all_window_titles]: [windows] is [None] when [win32gui] could not be
    imported, else the top-level windows [EnumWindows] goes through, each
    with the answers of [IsWindowVisible] and [GetWindowText]. *)
Definition get_all_window_titles (windows : option (list (bool * str)))
  : list str :=
  match windows with
  | None => []
  | Some ws =>
      let titles :=
        flat_map (fun w : bool * str =>
                    if fst w
                    then if PyStr.nonempty (snd w) then [snd w] else []
                    else [])
                 ws in
      PyStr.sorted (PyStr.set_of titles)
  end.

(** The argument of [send_ctrl_r_to_window] at the end of [save_ini]: the
    stripped title, when something is left of it. *)
Definition reload_target (game_title : str) : option str :=
  match Py.strip game_title with
  | [] => None
  | t => Some t
  end.

(** [parse_ini] on a path: [file] is the text of the file, [None] when
    [os.path.exists] says there is none; the fresh parser and the empty maps
    are then returned (as a tuple of three, which [load_ini] treats like a
    result without error). *)
Definition parse_ini_file (file : option str) : outcome :=
  match file with
  | Some content => parse_ini content
  | None => Returned (Some ConfigParser.empty) [] [] None
  end.

(** The message of the layout error. *)
Definition layout_message (orig_fx : list str) : str :=
  L "INI file does not match FX layout!"
    ++ match orig_fx with
       | [] => []
       | _ :: _ => nl ++ L "Missing keys: "
                      ++ Py.join (L ", ") (PyStr.sorted orig_fx)
       end.

Section Window.

(** Python's [float]: [float(s)] for a string, [float(n)] for an [int],
    [int(x)] ([None] when it raises) and [str(x)]. *)
Variable float : Type.
Variable float_of_str : str -> option float.
Variable float_of_int : Z -> float.
Variable int_of_float : float -> option Z.
Variable str_of_float : float -> str.

(** *** The form *)

(** What [make_widget] constructs: the class of the widget with the arguments
    of the setters called on it.  An optional argument is [None] when the
    conversion inside the [try] block raised and the setter was not called. *)
Inductive built : Type :=
| NewComboBox (addItems : list str) (setCurrentIndex : option Z)
| NewSpinBox (setMinimum setMaximum setSingleStep : Z) (setValue : option Z)
| NewDoubleSpinBox (setMinimum setMaximum setSingleStep : float)
                   (setValue : option float)
| NewCheckBox (setChecked : bool)
| NewLineEdit (text : str).

(** [float(meta.get(k, dflt))] *)
Definition meta_float (meta_dict : Dict.t str) (k : str) (dflt : Z)
  : option float :=
  match Dict.get k meta_dict with
  | Some v => float_of_str v
  | None => Some (float_of_int dflt)
  end.

(** Truth of [meta.get('ui_type') in ('slider', 'drag') or utype in
    ('int', 'float')]. *)
Definition numeric (u : uniform) : bool :=
  match Dict.get (L "ui_type") (meta u) with
  | Some t => mem_str t [L "slider"; L "drag"]
  | None => false
  end
  || mem_str (utype u) [L "int"; L "float"].

Definition is_combo (u : uniform) : bool :=
  match Dict.get (L "ui_type") (meta u) with
  | Some t => Py.str_eqb t (L "combo")
  | None => false
  end.

(** [make_widget]: [None] when a conversion outside the [try] blocks raises. *)
Definition make_widget (u : uniform) : option built :=
  if is_combo u then
    let items := PyStr.split (L "\0") (Dict.get_default (L "ui_items") [] (meta u)) in
    Some (NewComboBox (filter PyStr.nonempty items) (Py.int_of_str (default u)))
  else if numeric u then
    match meta_float (meta u) (L "ui_min") 0 with
    | None => None
    | Some minv =>
        match meta_float (meta u) (L "ui_max") 100 with
        | None => None
        | Some maxv =>
            match meta_float (meta u) (L "ui_step") 1 with
            | None => None
            | Some step =>
                if Py.str_eqb (utype u) (L "int") then
                  match int_of_float minv with
                  | None => None
                  | Some lo =>
                      match int_of_float maxv with
                      | None => None
                      | Some hi =>
                          match int_of_float step with
                          | None => None
                          | Some st =>
                              Some (NewSpinBox lo hi st
                                      (match float_of_str (default u) with
                                       | Some x => int_of_float x
                                       | None => None
                                       end))
                          end
                      end
                  end
                else Some (NewDoubleSpinBox minv maxv step
                                            (float_of_str (default u)))
            end
        end
    end
  else if Py.str_eqb (utype u) (L "bool") then
    Some (NewCheckBox (mem_str (Py.lower (default u)) [L "1"; L "true"; L "yes"]))
  else Some (NewLineEdit (default u)).

(** A row of the form: the label, the tool tip when one is set, the widget. *)
Record row : Type := {
  row_label : str;
  row_tooltip : option str;
  row_widget : built
}.

(** The body of the loop of [build_form]. *)
Definition add_row (acc : list row * Dict.t built) (u : uniform)
  : option (list row * Dict.t built) :=
  let label := Dict.get_default (L "ui_label") (name u) (meta u) in
  let tooltip := Dict.get_default (L "ui_tooltip") [] (meta u) in
  match make_widget u with
  | None => None
  | Some w =>
      Some (fst acc ++ [{| row_label := label;
                           row_tooltip := match tooltip with
                                          | [] => None
                                          | _ :: _ => Some tooltip
                                          end;
                           row_widget := w |}],
            Dict.set (name u) w (snd acc))
  end.

Fixpoint add_rows (acc : list row * Dict.t built) (uniforms : list uniform)
  : option (list row * Dict.t built) :=
  match uniforms with
  | [] => Some acc
  | u :: rest =>
      match add_row acc u with
      | Some acc' => add_rows acc' rest
      | None => None
      end
  end.

(** [build_form]: the rows of the new form and [self.widgets], or [None] when
    [make_widget] raises. *)
Definition build_form (uniforms : list uniform)
  : option (list row * Dict.t built) :=
  add_rows ([], []) uniforms.

(** *** Loading *)

(** How a call of [load_ini] ends.  [config], [smap] and [kmap] are the values
    assigned to [self.config], [self.section_name_map] and
    [self.key_name_map]. *)
Inductive loaded : Type :=
| ParseError (smap : Dict.t str) (kmap : Dict.t (Dict.t str))
             (err : option ConfigParser.error)
| LayoutError (config : ConfigParser.t) (smap : Dict.t str)
              (kmap : Dict.t (Dict.t str)) (msg : str)
| Loaded (config : ConfigParser.t) (smap : Dict.t str)
         (kmap : Dict.t (Dict.t str)) (calls : list (str * call float))
         (title : str)
| KeyError (config : ConfigParser.t) (smap : Dict.t str)
           (kmap : Dict.t (Dict.t str))
| Escaped (exn : ConfigParser.error).

(** [load_ini]: [section] is [self.section] ([None] before an FX file is
    loaded), [file] the text of the file at [ini_path] ([None] when there is
    no such file: [parse_ini] then returns a fresh parser and empty maps). *)
Definition load_ini (uniforms : list uniform) (widgets : Dict.t (widget float))
           (section : option str) (file : option str) : loaded :=
  match parse_ini_file file with
  | Raised exn => Escaped exn
  | Returned None smap kmap err => ParseError smap kmap err
  | Returned (Some config) smap kmap _ =>
      let ini_keys :=
        match section with
        | Some s => ini_keys config s
        | None => []
        end in
      let missing :=
        filter (fun k => negb (mem_str k ini_keys)) (fx_keys uniforms) in
      match missing with
      | _ :: _ =>
          let orig_fx :=
            map name (filter (fun u => mem_str (normkey (name u)) missing)
                             uniforms) in
          LayoutError config smap kmap (layout_message orig_fx)
      | [] =>
          match section with
          | Some s =>
              if ConfigParser.contains config s
              then Loaded config smap kmap
                          (set_widgets_from_ini float_of_str config s uniforms widgets)
                          (ConfigParser.get config s (L "game_window_title") [])
              else KeyError config smap kmap
          | None => KeyError config smap kmap
          end
      end
  end.

(** *** Saving *)

(** How a call of [save_ini] ends: the warning, the [TypeError] of
    [add_section(None)], or the store after the update, the text written to
    the file and the window the reload key is sent to. *)
Inductive saved : Type :=
| NoIniLoaded
| TypeError
| Saved (config : ConfigParser.t) (text : str) (reload : option str).

(** [save_ini] *)
Definition save_ini (ini_path : option str) (config : option ConfigParser.t)
           (section : option str) (uniforms : list uniform)
           (widgets : Dict.t (widget float)) (smap : Dict.t str)
           (kmap : Dict.t (Dict.t str)) (game_title : str) : saved :=
  match ini_path, config with
  | Some (_ :: _), Some c =>
      match section with
      | None => TypeError
      | Some s =>
          let c' := update_ini_from_widgets str_of_float c s uniforms widgets in
          Saved c' (write_ini c' smap kmap) (reload_target game_title)
      end
  | _, _ => NoIniLoaded
  end.

End Window.

Arguments NewComboBox {float}.
Arguments NewSpinBox {float}.
Arguments NewDoubleSpinBox {float}.
Arguments NewCheckBox {float}.
Arguments NewLineEdit {float}.
Arguments ParseError {float}.
Arguments LayoutError {float}.
Arguments Loaded {float}.
Arguments KeyError {float}.
Arguments Escaped {float}.
Arguments meta_float {float}.
Arguments make_widget {float}.
Arguments row_label {float}.
Arguments row_tooltip {float}.
Arguments row_widget {float}.
Arguments add_row {float}.
Arguments add_rows {float}.
Arguments build_form {float}.
Arguments load_ini {float}.
Arguments save_ini {float}.

End FXUniformUI.

(* ================================================================= *)
(** ** Vocabulary of the further statements *)

(** Runs of whitespace, and words: one character of the class [\w] or more. *)
Definition spaces (s : str) : Prop := Forall (fun c => Py.isspace c = true) s.

Definition word_text (s : str) : Prop :=
  s <> [] /\ Forall (fun c => Py.isword c = true) s.

(** The block [b] declares a uniform: the keyword, the type [t], the name
    [n], the annotations [m] between angle brackets, the equals sign, the
    default [d] and the semicolon. *)
Definition uniform_block (b t n m d : str) : Prop :=
  exists s1 s2 s3 s4 s5,
    b = L "uniform" ++ s1 ++ t ++ s2 ++ n ++ s3 ++ L "<" ++ m ++ L ">" ++ s4
          ++ L "=" ++ s5 ++ d ++ L ";"
    /\ spaces s1 /\ s1 <> [] /\ spaces s2 /\ s2 <> []
    /\ spaces s3 /\ spaces s4 /\ spaces s5
    /\ word_text t /\ word_text n
    /\ Forall (fun c => c <> ">"%char) m
    /\ d <> [] /\ Forall (fun c => c <> ";"%char) d.

(** The annotation text [m] holds the piece: the key [k], an equals sign, an
    optional double quote and the value [v].  The key is a word; the value
    is not empty and holds no semicolon, no line feed and no double quote. *)
Definition annotation_piece (m k v : str) : Prop :=
  exists pre s1 s2 q post,
    m = pre ++ k ++ s1 ++ L "=" ++ s2 ++ q ++ v ++ post
    /\ spaces s1 /\ spaces s2 /\ (q = [] \/ q = [dquote])
    /\ word_text k /\ v <> []
    /\ Forall (fun c => c <> ";"%char /\ c <> Py.LF /\ c <> dquote) v.

(** The maps are keyed by lower-case names: each name is found under its own
    lower-case form. *)
Definition lower_keyed (st : casing) : Prop :=
  (forall k v, Dict.get k (section_name_map st) = Some v -> k = Py.lower v)
  /\ forall s km k v, Dict.get s (key_name_map st) = Some km ->
                      Dict.get k km = Some v -> k = Py.lower v.

(** [sub] occurs in [s]. *)
Definition occurs (sub s : str) : Prop := exists pre post, s = pre ++ sub ++ post.

(** The directory entry [fname] passes the test of [find_ini_for_fx] for the
    base name [base]: in lower case it ends in .ini and holds the base. *)
Definition ini_name (base fname : str) : Prop :=
  (exists stem, Py.lower fname = stem ++ L ".ini")
  /\ occurs (Py.lower base) (Py.lower fname).

(** The value of a run of decimal digits read after [acc]. *)
Fixpoint uint_val (d : Decimal.uint) (acc : Z) : Z :=
  match d with
  | Decimal.Nil => acc
  | Decimal.D0 d' => uint_val d' (10 * acc)
  | Decimal.D1 d' => uint_val d' (10 * acc + 1)
  | Decimal.D2 d' => uint_val d' (10 * acc + 2)
  | Decimal.D3 d' => uint_val d' (10 * acc + 3)
  | Decimal.D4 d' => uint_val d' (10 * acc + 4)
  | Decimal.D5 d' => uint_val d' (10 * acc + 5)
  | Decimal.D6 d' => uint_val d' (10 * acc + 6)
  | Decimal.D7 d' => uint_val d' (10 * acc + 7)
  | Decimal.D8 d' => uint_val d' (10 * acc + 8)
  | Decimal.D9 d' => uint_val d' (10 * acc + 9)
  end%Z.

(** The normalized keys the layout check of [load_ini] sees. *)
Definition seen_keys (config : ConfigParser.t) (section : option str) : list str :=
  match section with
  | Some s => ini_keys config s
  | None => []
  end.

(** The declarations without a key of the same normalized name. *)
Definition unmatched (config : ConfigParser.t) (section : option str)
           (uniforms : list uniform) : list uniform :=
  filter (fun u => negb (mem_str (normkey (name u)) (seen_keys config section)))
         uniforms.

(** The target section is in the store. *)
Definition section_in (config : ConfigParser.t) (section : option str) : bool :=
  match section with
  | Some s => ConfigParser.contains config s
  | None => false
  end.

Definition ascending (l : list str) : Prop :=
  Sorted (fun a b => PyStr.leb a b = true) l.

(** Every declaration has a widget. *)
Definition covered {W : Type} (uniforms : list uniform) (widgets : Dict.t W)
  : Prop :=
  forall u, In u uniforms -> Dict.get (name u) widgets <> None.

(** The setter calls that hand each widget the text written for it. *)
Definition written_back {float : Type} (float_of_str : str -> option float)
           (str_of_float : float -> str) (uniforms : list uniform)
           (widgets : Dict.t (widget float)) : list (str * call float) :=
  flat_map (fun u =>
              match Dict.get (name u) widgets with
              | None => []
              | Some w =>
                  match set_widget float_of_str w (widget_value str_of_float w) with
                  | Some c => [(name u, c)]
                  | None => []
                  end
              end)
           uniforms.

(** The label and the tool tip [build_form] takes for a declaration. *)
Definition label_of (u : uniform) : str :=
  Dict.get_default (L "ui_label") (name u) (meta u).

Definition tooltip_of (u : uniform) : option str :=
  match Dict.get (L "ui_tooltip") (meta u) with
  | Some (c :: t) => Some (c :: t)
  | _ => None
  end.

(** The last declaration of the list with the name [n]. *)
Definition last_named (n : str) (uniforms : list uniform) : option uniform :=
  find (fun u => Py.str_eqb (name u) n) (rev uniforms).

(** ** Instances used by the further examples *)

Definition ex_other_ini : str := lines ["[Other.fx]"; "a=1"].

Definition ex_underscore_ini : str := lines ["[Demo.fx]"; "max_radius=2"].

Definition ex_no_annotations : str := lines ["uniform float Gain = 1.0;"].

Definition ex_combo : uniform :=
  {| utype := L "int"; name := L "Mode";
     meta := [(L "ui_type", L "combo"); (L "ui_items", L "Off\0\0On\0")];
     default := L "1" |}.

Definition ex_two : list uniform :=
  [ex_uniform "Strength" "4"; ex_uniform "MaxRadius" "2"].

(** A directory and the path functions of a system whose separator is the
    slash, on names without directory part. *)
Definition ex_listdir (d : str) : option (list str) :=
  Some [L "notes.txt"; L "BLOOM_settings.INI"; L "bloom.ini"].

Definition ex_splitext (p : str) : str * str :=
  (fst (Py.split1 "." p), match snd (Py.split1 "." p) with
                          | Some e => "."%char :: e
                          | None => []
                          end).

Definition ex_join (d f : str) : str := d ++ L "/" ++ f.

(* ================================================================= *)
(** * Properties *)

(** ** Strings and dictionaries *)

Lemma str_eqb_eq (a b : str) : Py.str_eqb a b = true <-> a = b.
Proof.
  unfold Py.str_eqb. destruct (list_eq_dec ascii_dec a b); split; congruence.
Qed.

Lemma str_eqb_refl (a : str) : Py.str_eqb a a = true.
Proof. now apply str_eqb_eq. Qed.

Lemma str_eqb_neq (a b : str) : Py.str_eqb a b = false <-> a <> b.
Proof.
  unfold Py.str_eqb. destruct (list_eq_dec ascii_dec a b); split; congruence.
Qed.

Lemma str_eqb_sym (a b : str) : Py.str_eqb a b = Py.str_eqb b a.
Proof.
  destruct (Py.str_eqb a b) eqn:E.
  - apply str_eqb_eq in E. subst. now rewrite str_eqb_refl.
  - apply str_eqb_neq in E. symmetry. apply str_eqb_neq. congruence.
Qed.

Ltac str_cases a b :=
  let E := fresh "E" in
  destruct (Py.str_eqb a b) eqn:E;
  [apply str_eqb_eq in E | apply str_eqb_neq in E].

Lemma mem_str_In (k : str) (l : list str) : mem_str k l = true <-> In k l.
Proof.
  unfold mem_str. rewrite existsb_exists. split.
  - intros [x [Hx E]]. apply str_eqb_eq in E. now subst.
  - intros H. exists k. split; [assumption | apply str_eqb_refl].
Qed.

Section DictFacts.
Context {V : Type}.
Implicit Types (d : Dict.t V) (k : str) (v : V).

Lemma get_set_same d k v : Dict.get k (Dict.set k v d) = Some v.
Proof.
  induction d as [|[k' v'] d IH]; simpl.
  - now rewrite str_eqb_refl.
  - str_cases k k'; simpl.
    + subst. now rewrite str_eqb_refl.
    + apply str_eqb_neq in E. now rewrite E.
Qed.

Lemma get_set_other d k k' v : k' <> k -> Dict.get k' (Dict.set k v d) = Dict.get k' d.
Proof.
  intros N. induction d as [|[k0 v0] d IH]; simpl.
  - apply str_eqb_neq in N. now rewrite N.
  - str_cases k k0; simpl.
    + subst. apply str_eqb_neq in N. now rewrite N.
    + now rewrite IH.
Qed.

Lemma keys_set_incl d k v k' : In k' (Dict.keys d) -> In k' (Dict.keys (Dict.set k v d)).
Proof.
  unfold Dict.keys. induction d as [|[k0 v0] d IH]; simpl; [tauto|].
  str_cases k k0; simpl; intuition.
Qed.

Lemma keys_set_In d k v : In k (Dict.keys (Dict.set k v d)).
Proof.
  unfold Dict.keys. induction d as [|[k0 v0] d IH]; simpl; [now left|].
  str_cases k k0; simpl; [now left | now right].
Qed.

Lemma get_Some_In d k v : Dict.get k d = Some v -> In (k, v) d.
Proof.
  induction d as [|[k0 v0] d IH]; simpl; [discriminate|].
  str_cases k k0.
  - intros [= <-]. subst. now left.
  - intros H. right. now apply IH.
Qed.

Lemma get_None_keys d k : Dict.get k d = None <-> ~ In k (Dict.keys d).
Proof.
  unfold Dict.keys. induction d as [|[k0 v0] d IH]; simpl; [tauto|].
  str_cases k k0.
  - subst. split; [discriminate | intros H; exfalso; apply H; now left].
  - rewrite IH. split; [intros H [C|C]; congruence | tauto].
Qed.

Lemma mem_keys d k : Dict.mem k d = true <-> In k (Dict.keys d).
Proof.
  unfold Dict.mem. destruct (Dict.get k d) eqn:G.
  - split; [intros _|reflexivity].
    destruct (in_dec (list_eq_dec ascii_dec) k (Dict.keys d)) as [I|I]; [assumption|].
    apply get_None_keys in I. congruence.
  - apply get_None_keys in G. split; [discriminate | tauto].
Qed.

Lemma get_app d1 d2 k :
  Dict.get k (d1 ++ d2) =
  match Dict.get k d1 with Some v => Some v | None => Dict.get k d2 end.
Proof.
  induction d1 as [|[k0 v0] d1 IH]; simpl; [reflexivity|].
  now destruct (Py.str_eqb k k0).
Qed.

End DictFacts.

Lemma filter_nil_iff {A} (f : A -> bool) (l : list A) :
  filter f l = [] <-> forall x, In x l -> f x = false.
Proof.
  induction l as [|a l IH]; simpl; [tauto|].
  destruct (f a) eqn:Fa.
  - split; [discriminate|]. intros H. specialize (H a (or_introl eq_refl)). congruence.
  - rewrite IH. split; intros H x; [intros [<-|I]; auto | auto].
Qed.

(* ================================================================= *)
(** ** The layout check *)

Lemma has_match_ini_keys config section u :
  has_match config section u <->
  mem_str (normkey (name u)) (ini_keys config section) = true.
Proof.
  unfold has_match, ini_keys. rewrite mem_str_In.
  destruct (ConfigParser.contains config section).
  - rewrite in_map_iff. split.
    + intros [_ [k [I E]]]. now exists k.
    + intros [k [E I]]. split; [reflexivity|]. now exists k.
  - simpl. split; [intros [C _]; discriminate | tauto].
Qed.

Lemma check_layout_ok config section uniforms :
  check_layout config section uniforms = LayoutOk <->
  forall u, In u uniforms -> has_match config section u.
Proof.
  unfold check_layout.
  destruct (missing config section uniforms) as [|m0 m] eqn:M.
  - split; [intros _|reflexivity].
    unfold missing in M. rewrite filter_nil_iff in M.
    intros u Hu. apply has_match_ini_keys.
    specialize (M (normkey (name u))).
    rewrite negb_false_iff in M. apply M.
    unfold fx_keys. now apply (in_map (fun u => normkey (name u))).
  - split; [discriminate|]. intros H. exfalso.
    assert (I : In m0 (missing config section uniforms)) by (rewrite M; now left).
    unfold missing in I. apply filter_In in I. destruct I as [I N].
    unfold fx_keys in I. apply in_map_iff in I. destruct I as [u [E Hu]].
    apply H, has_match_ini_keys in Hu. rewrite E in Hu. rewrite Hu in N. discriminate.
Qed.

Lemma check_layout_mismatch config section uniforms orig_fx :
  check_layout config section uniforms = LayoutMismatch orig_fx ->
  orig_fx <> [] /\
  orig_fx = map name (filter (fun u => negb (mem_str (normkey (name u))
                                               (ini_keys config section)))
                             uniforms).
Proof.
  unfold check_layout.
  destruct (missing config section uniforms) as [|m0 m] eqn:M; [discriminate|].
  intros H.
  assert (H1 : orig_fx = map name (filter (fun u => mem_str (normkey (name u)) (m0 :: m))
                                          uniforms)) by congruence.
  clear H. rewrite <- M in H1. subst orig_fx.
  assert (F : forall u, In u uniforms ->
          mem_str (normkey (name u)) (missing config section uniforms)
          = negb (mem_str (normkey (name u)) (ini_keys config section))).
  { intros u Hu.
    destruct (mem_str (normkey (name u)) (ini_keys config section)) eqn:K; simpl.
    - destruct (mem_str _ (missing _ _ _)) eqn:Q; [|reflexivity].
      apply mem_str_In in Q. unfold missing in Q. apply filter_In in Q.
      rewrite K in Q. now destruct Q.
    - apply mem_str_In. unfold missing. apply filter_In. split.
      + unfold fx_keys. now apply (in_map (fun u => normkey (name u))).
      + now rewrite K. }
  assert (G : filter (fun u => mem_str (normkey (name u))
                                        (missing config section uniforms)) uniforms
              = filter (fun u => negb (mem_str (normkey (name u))
                                               (ini_keys config section))) uniforms).
  { apply filter_ext_in. exact F. }
  rewrite G. split; [|reflexivity].
  assert (I : In m0 (missing config section uniforms)) by (rewrite M; now left).
  unfold missing in I. apply filter_In in I. destruct I as [I N].
  unfold fx_keys in I. apply in_map_iff in I. destruct I as [u [E Hu]].
  intros C. apply map_eq_nil in C. rewrite filter_nil_iff in C.
  specialize (C u Hu). rewrite E, N in C. discriminate.
Qed.

(** The keys the parser shows for a section are the section's own and those
    of the default section. *)
Lemma keys_own_or_default c s k :
  In k (ConfigParser.keys c s) <->
  In k (own_keys c s) \/ In k (own_keys c ConfigParser.DEFAULTSECT).
Proof.
  unfold ConfigParser.keys, ConfigParser.items, own_keys.
  rewrite (str_eqb_refl ConfigParser.DEFAULTSECT).
  destruct (Py.str_eqb s ConfigParser.DEFAULTSECT); [tauto|].
  set (own := Dict.get_default s [] (ConfigParser._sections c)).
  unfold Dict.keys. rewrite map_app, in_app_iff. split.
  - intros [I|I]; [now left | right].
    apply in_map_iff in I. destruct I as [kv [E I]]. apply filter_In in I.
    apply in_map_iff. exists kv. tauto.
  - intros [I|I]; [now left|].
    destruct (Dict.mem k own) eqn:M.
    + left. now apply mem_keys in M.
    + right. apply in_map_iff in I. destruct I as [kv [E I]].
      apply in_map_iff. exists kv. split; [assumption|].
      apply filter_In. split; [assumption|]. subst k. now rewrite M.
Qed.

Lemma has_match_own_or_default config section u :
  has_match config section u <->
  ConfigParser.contains config section = true /\
  exists k, (In k (own_keys config section)
             \/ In k (own_keys config ConfigParser.DEFAULTSECT))
            /\ normkey k = normkey (name u).
Proof.
  unfold has_match. split; intros [C [k [I E]]]; (split; [assumption|]); exists k;
    (split; [|assumption]); now apply keys_own_or_default.
Qed.

(** C3 (amended).  The layout check of [load_ini] succeeds exactly when every
    declaration has a match: the target section is in the store and a key of
    the section itself or of the DEFAULT section has the same normalized name
    (underscores removed, lowercased).  A store that shows the check at least
    the same keys keeps it successful; a failure reports the original names of
    exactly the declarations without a match; and the two examples of the
    specification behave as written. *)
Theorem C3_check_layout :
  (forall config section uniforms,
      check_layout config section uniforms = LayoutOk <->
      forall u, In u uniforms -> has_match config section u)
  /\ (forall config section u,
         has_match config section u <->
         ConfigParser.contains config section = true /\
         exists k, (In k (own_keys config section)
                    \/ In k (own_keys config ConfigParser.DEFAULTSECT))
                   /\ normkey k = normkey (name u))
  /\ (forall config config' section uniforms,
         incl (visible_keys config section) (visible_keys config' section) ->
         check_layout config section uniforms = LayoutOk ->
         check_layout config' section uniforms = LayoutOk)
  /\ (forall config section uniforms orig_fx,
         check_layout config section uniforms = LayoutMismatch orig_fx ->
         forall n, In n orig_fx <->
                   exists u, In u uniforms /\ name u = n /\
                             ~ has_match config section u)
  /\ map name ex_decls = [L "Strength"; L "MaxRadius"]
  /\ check_layout
       (config_of (lines ["[Demo.fx]"; "strength=1"; "max_radius=2"; "extra=3";
                          "[Other]"; "k=v"]))
       (L "Demo.fx") ex_decls = LayoutOk
  /\ check_layout (config_of (lines ["[Demo.fx]"; "strength=1"]))
                  (L "Demo.fx") ex_decls = LayoutMismatch [L "MaxRadius"].
Proof.
  split; [exact check_layout_ok|].
  split; [exact has_match_own_or_default|].
  split.
  { intros config config' section uniforms Hincl H.
    rewrite check_layout_ok in *. intros u Hu. specialize (H u Hu).
    destruct H as [C [k [I E]]].
    assert (I' : In k (visible_keys config' section)).
    { apply Hincl. unfold visible_keys. now rewrite C. }
    unfold visible_keys in I'. unfold has_match.
    destruct (ConfigParser.contains config' section); [|contradiction].
    split; [reflexivity|]. now exists k. }
  split.
  { intros config section uniforms orig_fx H n.
    apply check_layout_mismatch in H. destruct H as [_ ->].
    rewrite in_map_iff. split.
    - intros [u [E I]]. apply filter_In in I. destruct I as [I N].
      exists u. repeat split; try assumption.
      rewrite has_match_ini_keys. rewrite negb_true_iff in N. congruence.
    - intros [u [I [E N]]]. exists u. split; [assumption|].
      apply filter_In. split; [assumption|].
      rewrite has_match_ini_keys in N. now destruct (mem_str _ _). }
  repeat split; vm_compute; reflexivity.
Qed.

(** C3, as stated, fails: the section Demo.fx has the one key foo, the
    declaration Strength has no key of that section with its normalized name,
    and the check succeeds, the key Strength of the DEFAULT section being
    shown as a key of Demo.fx. *)
Lemma C3_counterexample :
  check_layout ex_inherited (L "Demo.fx") [ex_uniform "Strength" "4"] = LayoutOk
  /\ own_keys ex_inherited (L "Demo.fx") = [L "foo"]
  /\ normkey (L "foo") <> normkey (name (ex_uniform "Strength" "4"))
  /\ own_keys ex_inherited ConfigParser.DEFAULTSECT = [L "Strength"].
Proof.
  split; [vm_compute; reflexivity|]. split; [vm_compute; reflexivity|].
  split; [vm_compute; discriminate | vm_compute; reflexivity].
Qed.

(* ================================================================= *)
(** ** The mapping protocol of the parser *)

Lemma to_defaults_nonempty s :
  s <> [] -> ConfigParser.to_defaults s = Py.str_eqb s ConfigParser.DEFAULTSECT.
Proof. destruct s; [congruence | reflexivity]. Qed.

Lemma stored_set_same c s k v :
  s <> [] -> stored (ConfigParser.set c s k v) s k = Some v.
Proof.
  intros Ne. unfold stored, ConfigParser.set. rewrite to_defaults_nonempty by assumption.
  destruct (Py.str_eqb s ConfigParser.DEFAULTSECT); simpl.
  - apply get_set_same.
  - rewrite get_set_same. apply get_set_same.
Qed.

Lemma stored_set_other c s k v s' k' :
  s <> [] -> s' <> s \/ k' <> k ->
  stored (ConfigParser.set c s k v) s' k' = stored c s' k'.
Proof.
  intros Ne N. unfold stored, ConfigParser.set.
  rewrite to_defaults_nonempty by assumption.
  destruct (Py.str_eqb s ConfigParser.DEFAULTSECT) eqn:D; simpl.
  - destruct (Py.str_eqb s' ConfigParser.DEFAULTSECT) eqn:D'; [|reflexivity].
    apply str_eqb_eq in D, D'. subst s s'.
    destruct N as [N|N]; [congruence|]. now apply get_set_other.
  - destruct (Py.str_eqb s' ConfigParser.DEFAULTSECT) eqn:D'; [reflexivity|].
    destruct (list_eq_dec ascii_dec s' s) as [->|Ns].
    + rewrite get_set_same. destruct N as [N|N]; [congruence|].
      rewrite get_set_other by assumption.
      unfold Dict.get_default.
      destruct (Dict.get s (ConfigParser._sections c)); reflexivity.
    + now rewrite get_set_other.
Qed.

Lemma sections_set c s k v s' :
  In s' (ConfigParser.sections c) -> In s' (ConfigParser.sections (ConfigParser.set c s k v)).
Proof.
  unfold ConfigParser.sections, ConfigParser.set.
  destruct (ConfigParser.to_defaults s); simpl; [tauto|].
  apply keys_set_incl.
Qed.

Lemma contains_set c s k v s' :
  ConfigParser.contains c s' = true ->
  ConfigParser.contains (ConfigParser.set c s k v) s' = true.
Proof.
  unfold ConfigParser.contains, ConfigParser.has_section.
  rewrite !orb_true_iff, !mem_keys. intros [H|H]; [now left|right].
  now apply sections_set.
Qed.

Lemma stored_add_section c s s' k :
  ConfigParser.contains c s = false ->
  stored (ConfigParser.add_section c s) s' k = stored c s' k.
Proof.
  unfold ConfigParser.contains, ConfigParser.has_section, stored, ConfigParser.add_section.
  intros H. apply orb_false_iff in H. destruct H as [D M]. simpl.
  destruct (Py.str_eqb s' ConfigParser.DEFAULTSECT); [reflexivity|].
  destruct (list_eq_dec ascii_dec s' s) as [->|N].
  - rewrite get_set_same. unfold Dict.mem in M.
    destruct (Dict.get s (ConfigParser._sections c)); [discriminate|].
    reflexivity.
  - now rewrite get_set_other.
Qed.

Lemma contains_add_section c s :
  ConfigParser.contains (ConfigParser.add_section c s) s = true.
Proof.
  unfold ConfigParser.contains, ConfigParser.has_section, ConfigParser.add_section.
  simpl. unfold Dict.mem. rewrite get_set_same. apply orb_true_r.
Qed.

Lemma get_filter_absent {V} (own : Dict.t V) (d : Dict.t V) k :
  Dict.get k own = None ->
  Dict.get k (filter (fun kv => negb (Dict.mem (fst kv) own)) d) = Dict.get k d.
Proof.
  intros H. induction d as [|[k0 v0] d IH]; simpl; [reflexivity|].
  str_cases k k0.
  - subst k0. unfold Dict.mem. rewrite H. simpl. now rewrite str_eqb_refl.
  - destruct (negb (Dict.mem k0 own)); simpl; [|assumption].
    apply str_eqb_neq in E. now rewrite E.
Qed.

(** [parser[s].get(k, fallback)] looks in the section, then in the default
    section, then takes the fallback. *)
Lemma get_lookup c s k fallback :
  ConfigParser.get c s k fallback =
  match lookup c s k with Some v => v | None => fallback end.
Proof.
  unfold ConfigParser.get, ConfigParser.items, lookup, stored, Dict.get_default.
  destruct (Py.str_eqb s ConfigParser.DEFAULTSECT).
  - now destruct (Dict.get k (ConfigParser._defaults c)).
  - destruct (Dict.get s (ConfigParser._sections c)) as [own|].
    + rewrite get_app. destruct (Dict.get k own) eqn:G; [reflexivity|].
      now rewrite get_filter_absent.
    + rewrite get_app. change (Dict.get k (@nil (str * str))) with (@None str).
      now rewrite get_filter_absent.
Qed.

(* ================================================================= *)
(** ** The binding functions *)

Section BindingFacts.

Variable float : Type.
Variable float_of_str : str -> option float.
Variable str_of_float : float -> str.

Implicit Types (config : ConfigParser.t) (section : str)
         (uniforms : list uniform) (widgets : Dict.t (widget float)).

Local Abbreviation push := (push_value str_of_float).

Lemma push_untouched section widgets uniforms : forall config s k,
  section <> [] ->
  (s <> section \/
   forall u, In u uniforms -> name u = k -> Dict.get k widgets = None) ->
  stored (fold_left (push section widgets) uniforms config) s k = stored config s k.
Proof.
  induction uniforms as [|a l IH]; intros config s k Ne H; simpl; [reflexivity|].
  rewrite IH.
  - unfold push. destruct (Dict.get (name a) widgets) eqn:G; [|reflexivity].
    apply stored_set_other; [assumption|]. destruct H as [H|H]; [now left|right].
    intros ->. rewrite (H a) in G; [discriminate | now left | reflexivity].
  - assumption.
  - destruct H as [H|H]; [now left|right]. intros u Hu. apply H. now right.
Qed.

Lemma push_keeps section widgets uniforms : forall config k w,
  section <> [] ->
  Dict.get k widgets = Some w ->
  stored config section k = Some (widget_value str_of_float w) ->
  stored (fold_left (push section widgets) uniforms config) section k
  = Some (widget_value str_of_float w).
Proof.
  induction uniforms as [|a l IH]; intros config k w Ne G H; simpl; [assumption|].
  apply IH; [assumption | assumption|]. unfold push.
  destruct (Dict.get (name a) widgets) as [w'|] eqn:G'; [|assumption].
  destruct (list_eq_dec ascii_dec k (name a)) as [->|N].
  - rewrite G in G'. injection G' as <-. now apply stored_set_same.
  - rewrite stored_set_other by (assumption || now right). assumption.
Qed.

Lemma push_written section widgets uniforms : forall config u w,
  section <> [] ->
  In u uniforms -> Dict.get (name u) widgets = Some w ->
  stored (fold_left (push section widgets) uniforms config) section (name u)
  = Some (widget_value str_of_float w).
Proof.
  induction uniforms as [|a l IH]; intros config u w Ne I G; simpl; [contradiction|].
  destruct I as [->|I]; [|now apply IH].
  apply push_keeps; [assumption | assumption|]. unfold push. rewrite G.
  now apply stored_set_same.
Qed.

Lemma push_never_deletes section widgets uniforms : forall config s k,
  section <> [] ->
  stored config s k <> None ->
  stored (fold_left (push section widgets) uniforms config) s k <> None.
Proof.
  induction uniforms as [|a l IH]; intros config s k Ne H; simpl; [assumption|].
  apply IH; [assumption|]. unfold push.
  destruct (Dict.get (name a) widgets) as [w|]; [|assumption].
  destruct (list_eq_dec ascii_dec s section) as [->|Ns].
  - destruct (list_eq_dec ascii_dec k (name a)) as [->|Nk].
    + now rewrite stored_set_same.
    + now rewrite stored_set_other by (assumption || now right).
  - now rewrite stored_set_other by (assumption || now left).
Qed.

Lemma push_sections section widgets uniforms : forall config s,
  In s (ConfigParser.sections config) ->
  In s (ConfigParser.sections (fold_left (push section widgets) uniforms config)).
Proof.
  induction uniforms as [|a l IH]; intros config s H; simpl; [assumption|].
  apply IH. unfold push. destruct (Dict.get (name a) widgets); [|assumption].
  now apply sections_set.
Qed.

Lemma push_contains section widgets uniforms : forall config s,
  ConfigParser.contains config s = true ->
  ConfigParser.contains (fold_left (push section widgets) uniforms config) s = true.
Proof.
  induction uniforms as [|a l IH]; intros config s H; simpl; [assumption|].
  apply IH. unfold push. destruct (Dict.get (name a) widgets); [|assumption].
  now apply contains_set.
Qed.

(** C5 (amended).  When the name of the target section is not empty,
    [update_ini_from_widgets] writes, for each declaration that has a
    widget, the string of the widget's value (the index of a combo box and the
    value of an integer spin box in decimal, the value of a float spin box
    through [str], a check box as 1 or 0, any other widget's text as it is)
    under the declaration's name in the target section, which exists
    afterwards; every other key of that section and every key of every other
    section keeps its value, no key and no section disappears. *)
Theorem C5_update_ini_from_widgets config section uniforms widgets :
  section <> [] ->
  let config' := update_ini_from_widgets str_of_float config section uniforms widgets in
  ConfigParser.contains config' section = true
  /\ (forall u w, In u uniforms -> Dict.get (name u) widgets = Some w ->
                  stored config' section (name u) = Some (widget_value str_of_float w))
  /\ (forall s k,
         (s <> section \/
          forall u, In u uniforms -> name u = k -> Dict.get k widgets = None) ->
         stored config' s k = stored config s k)
  /\ (forall s k, stored config s k <> None -> stored config' s k <> None)
  /\ (forall s, In s (ConfigParser.sections config) ->
                In s (ConfigParser.sections config'))
  /\ (forall i, widget_value str_of_float (QComboBox i) = Py.str_of_int i)
  /\ (forall v, widget_value str_of_float (QSpinBox v) = Py.str_of_int v)
  /\ (forall x, widget_value str_of_float (QDoubleSpinBox x) = str_of_float x)
  /\ widget_value str_of_float (QCheckBox true) = L "1"
  /\ widget_value str_of_float (QCheckBox false) = L "0"
  /\ (forall s, widget_value str_of_float (QLineEdit s) = s)
  /\ Py.str_of_int 42 = L "42" /\ Py.str_of_int (-7) = L "-7"
  /\ Py.str_of_int 0 = L "0".
Proof.
  intros Ne config'. subst config'. unfold update_ini_from_widgets.
  fold (push section widgets).
  set (config1 := if ConfigParser.contains config section then config
                  else ConfigParser.add_section config section).
  assert (C1 : ConfigParser.contains config1 section = true).
  { subst config1. destruct (ConfigParser.contains config section) eqn:C;
      [assumption | apply contains_add_section]. }
  assert (S1 : forall s k, stored config1 s k = stored config s k).
  { intros s k. subst config1.
    destruct (ConfigParser.contains config section) eqn:C;
      [reflexivity | now apply stored_add_section]. }
  assert (N1 : forall s, In s (ConfigParser.sections config) ->
                         In s (ConfigParser.sections config1)).
  { intros s H. subst config1.
    destruct (ConfigParser.contains config section); [assumption|].
    unfold ConfigParser.sections, ConfigParser.add_section. simpl.
    now apply keys_set_incl. }
  split; [now apply push_contains|].
  split; [intros u w I G; now apply push_written|].
  split; [intros s k H; rewrite push_untouched by assumption; apply S1|].
  split; [intros s k H; apply push_never_deletes; [assumption | now rewrite S1]|].
  split; [intros s H; now apply push_sections, N1|].
  repeat split.
Qed.

Lemma value_for_lookup config section u :
  match lookup config section (name u) with Some v => v | None => default u end
  = value_for config section u.
Proof.
  unfold lookup, value_for. now destruct (stored config section (name u)).
Qed.

Lemma set_widget_calls_with config section widgets u :
  match Dict.get (name u) widgets with
  | None => []
  | Some w =>
      match set_widget float_of_str w
                       (ConfigParser.get config section (name u) (default u)) with
      | Some c => [(name u, c)]
      | None => []
      end
  end = calls_with float_of_str widgets u (value_for config section u).
Proof.
  unfold calls_with. rewrite get_lookup, value_for_lookup.
  destruct (Dict.get (name u) widgets) as [[i|v|x|b|s]|]; simpl; try reflexivity.
  - now destruct (Py.int_of_str _).
  - now destruct (float_of_str _).
  - now destruct (float_of_str _).
Qed.

Lemma set_widgets_flat_map config section uniforms widgets :
  ConfigParser.contains config section = true ->
  set_widgets_from_ini float_of_str config section uniforms widgets
  = flat_map (fun u => calls_with float_of_str widgets u (value_for config section u))
             uniforms.
Proof.
  intros C. unfold set_widgets_from_ini. rewrite C. simpl.
  apply flat_map_ext. intros u. apply set_widget_calls_with.
Qed.

(** C4 (amended).  In a store that has the target section,
    [set_widgets_from_ini] treats the declarations one by one and
    independently: for each declaration with a widget it takes the value stored
    under exactly the declaration's name in the target section, else the one
    the parser's DEFAULT section holds under that name, else the declaration's
    default; a combo box gets the value parsed by [int], a spin box the value
    parsed by [float], a check box the truth of membership of the lowercased
    value in 1, true, yes, any other widget the text itself; when the
    conversion fails no setter is called for that declaration, the other
    declarations are treated as usual, and the function returns normally. *)
Theorem C4_set_widgets_from_ini config section widgets pre u post :
  ConfigParser.contains config section = true ->
  set_widgets_from_ini float_of_str config section (pre ++ u :: post) widgets
  = set_widgets_from_ini float_of_str config section pre widgets
      ++ calls_with float_of_str widgets u (value_for config section u)
      ++ set_widgets_from_ini float_of_str config section post widgets
  /\ (forall v, stored config section (name u) = Some v ->
                value_for config section u = v)
  /\ (stored config section (name u) = None ->
      Dict.get (name u) (ConfigParser._defaults config) = None ->
      value_for config section u = default u)
  /\ (forall value i,
         Dict.get (name u) widgets = Some (QComboBox i) ->
         Py.int_of_str value = None ->
         calls_with float_of_str widgets u value = [])
  /\ (forall value w,
         Dict.get (name u) widgets = Some w ->
         (exists z, w = QSpinBox z) \/ (exists x, w = QDoubleSpinBox x) ->
         float_of_str value = None ->
         calls_with float_of_str widgets u value = [])
  /\ (forall value b,
         Dict.get (name u) widgets = Some (QCheckBox b) ->
         calls_with float_of_str widgets u value
         = [(name u, setChecked (mem_str (Py.lower value)
                                         [L "1"; L "true"; L "yes"]))])
  /\ (forall value t,
         Dict.get (name u) widgets = Some (QLineEdit t) ->
         calls_with float_of_str widgets u value = [(name u, setText value)]).
Proof.
  intros C. split.
  { rewrite !set_widgets_flat_map by assumption.
    rewrite flat_map_app. reflexivity. }
  unfold value_for, calls_with.
  split; [intros v ->; reflexivity|].
  split; [intros -> ->; reflexivity|].
  split; [intros value i -> ->; reflexivity|].
  split.
  { intros value w -> [[z ->]|[x ->]] ->; reflexivity. }
  split; [intros value b ->; reflexivity|].
  intros value t ->; reflexivity.
Qed.

(** C10.  When the target section is not in the store, [set_widgets_from_ini]
    returns at once: no setter is called, whatever the declarations, their
    defaults and the widgets are. *)
Theorem C10_absent_section_no_call config section uniforms widgets :
  ConfigParser.contains config section = false ->
  set_widgets_from_ini float_of_str config section uniforms widgets = [].
Proof.
  intros C. unfold set_widgets_from_ini. now rewrite C.
Qed.

End BindingFacts.

(* ================================================================= *)
(** ** The matcher against the declarative reading of an expression *)

Lemma prev_after_cons prev c x :
  prev_after (Some c) x = prev_after prev (c :: x).
Proof.
  unfold prev_after. simpl. destruct (rev x) as [|d t] eqn:R; simpl; reflexivity.
Qed.

Lemma consumed_app (x rest : str) : Re.consumed (x ++ rest) rest = x.
Proof.
  unfold Re.consumed. rewrite length_app.
  replace (List.length x + List.length rest - List.length rest) with (List.length x + 0) by lia.
  rewrite firstn_app_2. simpl. apply app_nil_r.
Qed.

Section MatcherFacts.
Context {A : Type}.
Implicit Types (k : option ascii -> str -> option A) (p : ascii -> bool).

Lemma rep_greedy_sound p k : forall s prev res,
  Re.rep_greedy p prev s k = Some res ->
  exists x rest, s = x ++ rest /\ Forall (fun c => p c = true) x /\
                 k (prev_after prev x) rest = Some res.
Proof.
  induction s as [|c s IH]; intros prev res H; simpl in H.
  - exists [], []. repeat split; [constructor | assumption].
  - destruct (p c) eqn:Pc.
    + destruct (Re.rep_greedy p (Some c) s k) as [r|] eqn:G.
      * injection H as <-. apply IH in G. destruct G as [x [rest [-> [F K]]]].
        exists (c :: x), rest. repeat split; [now constructor|].
        now rewrite <- prev_after_cons.
      * exists [], (c :: s). repeat split; [constructor | assumption].
    + exists [], (c :: s). repeat split; [constructor | assumption].
Qed.

Lemma rep_lazy_sound p k : forall s prev res,
  Re.rep_lazy p prev s k = Some res ->
  exists x rest, s = x ++ rest /\ Forall (fun c => p c = true) x /\
                 k (prev_after prev x) rest = Some res.
Proof.
  induction s as [|c s IH]; intros prev res H; simpl in H.
  - destruct (k prev []) eqn:K; [|discriminate].
    injection H as <-. exists [], []. repeat split; [constructor | assumption].
  - destruct (k prev (c :: s)) eqn:K.
    + injection H as <-. exists [], (c :: s). repeat split; [constructor | assumption].
    + destruct (p c) eqn:Pc; [|discriminate].
      apply IH in H. destruct H as [x [rest [-> [F K']]]].
      exists (c :: x), rest. repeat split; [now constructor|].
      now rewrite <- prev_after_cons.
Qed.

Lemma rep_sound lazy plus p k s prev res :
  Re.rep lazy plus p prev s k = Some res ->
  exists x rest, s = x ++ rest /\ Forall (fun c => p c = true) x /\
                 (plus = true -> x <> []) /\
                 k (prev_after prev x) rest = Some res.
Proof.
  unfold Re.rep. intros H.
  assert (S : forall prev s res,
             (if lazy then Re.rep_lazy p else Re.rep_greedy p) prev s k = Some res ->
             exists x rest, s = x ++ rest /\ Forall (fun c => p c = true) x /\
                            k (prev_after prev x) rest = Some res).
  { intros prev0 s0 res0. destruct lazy; [apply rep_lazy_sound | apply rep_greedy_sound]. }
  destruct plus.
  - destruct s as [|c s]; [discriminate|].
    destruct (p c) eqn:Pc; [|discriminate].
    apply S in H. destruct H as [x [rest [-> [F K]]]].
    exists (c :: x), rest. repeat split; [now constructor | discriminate |].
    now rewrite <- prev_after_cons.
  - apply S in H. destruct H as [x [rest [-> [F K]]]].
    exists x, rest. repeat split; [assumption | discriminate | assumption].
Qed.

End MatcherFacts.

(** Every answer of the matcher is a match. *)
Lemma run_sound r : forall prev s caps k res,
  Re.run r prev s caps k = Some res ->
  exists x rest prev' g,
    s = x ++ rest /\ matches r prev x rest prev' g /\
    k prev' rest (caps ++ g) = Some res.
Proof.
  induction r as [|c|p|r1 IH1 r2 IH2|r IH|lazy plus p|r IH|ml|];
    intros prev s caps k res H; simpl in H.
  - exists [], s, prev, []. rewrite app_nil_r. repeat split; [constructor | assumption].
  - destruct s as [|x s]; [discriminate|].
    destruct (Ascii.eqb x c) eqn:E; [|discriminate]. apply Ascii.eqb_eq in E. subst x.
    exists [c], s, (Some c), []. rewrite app_nil_r.
    repeat split; [constructor | assumption].
  - destruct s as [|x s]; [discriminate|].
    destruct (p x) eqn:E; [|discriminate].
    exists [x], s, (Some x), []. rewrite app_nil_r.
    repeat split; [now constructor | assumption].
  - apply IH1 in H. destruct H as [x1 [rest1 [p1 [g1 [-> [M1 H]]]]]].
    apply IH2 in H. destruct H as [x2 [rest [p2 [g2 [-> [M2 H]]]]]].
    exists (x1 ++ x2), rest, p2, (g1 ++ g2).
    rewrite <- !app_assoc in *.
    repeat split; [apply M_Seq with (p1 := p1); assumption | assumption].
  - destruct (Re.run r prev s caps k) as [x0|] eqn:R.
    + injection H as <-. apply IH in R. destruct R as [x [rest [p' [g [-> [M K]]]]]].
      exists x, rest, p', g. repeat split; [now apply M_Opt_some | assumption].
    + exists [], s, prev, []. rewrite app_nil_r.
      repeat split; [apply M_Opt_none | assumption].
  - apply rep_sound in H. destruct H as [x [rest [-> [F [N K]]]]].
    exists x, rest, (prev_after prev x), []. rewrite app_nil_r.
    repeat split; [now constructor | assumption].
  - apply IH in H. destruct H as [x [rest [p' [g [-> [M K]]]]]].
    rewrite consumed_app in K.
    exists x, rest, p', (g ++ [x]). rewrite app_assoc.
    repeat split; [now constructor | assumption].
  - destruct (Re.at_bol ml prev) eqn:B; [|discriminate].
    exists [], s, prev, []. rewrite app_nil_r. repeat split; [now constructor | assumption].
  - destruct (Re.at_eol s) eqn:B; [|discriminate].
    exists [], s, prev, []. rewrite app_nil_r. repeat split; [now constructor | assumption].
Qed.

Lemma match_at_sound r prev s caps rest :
  Re.match_at r prev s = Some (caps, rest) ->
  exists x prev', s = x ++ rest /\ matches r prev x rest prev' caps.
Proof.
  unfold Re.match_at. intros H. apply run_sound in H.
  destruct H as [x [rest' [prev' [g [-> [M K]]]]]].
  injection K as <- <-. now exists x, prev'.
Qed.

(** ** Scans *)

Lemma scan_matched r : forall s pre skip,
  Forall (matched_at r (pre ++ s))
         (Re.scan r (prev_after None pre) s skip (List.length pre)).
Proof.
  assert (Step : forall pre c, prev_after None (pre ++ [c]) = Some c).
  { intros pre c. unfold prev_after. now rewrite rev_app_distr. }
  induction s as [|c s IH]; intros pre skip; simpl.
  - destruct skip; [|constructor].
    destruct (Re.match_at r (prev_after None pre) []) as [[caps rest]|] eqn:M;
      constructor; [|constructor].
    exists pre, [], rest. repeat split; assumption.
  - specialize (IH (pre ++ [c])).
    rewrite <- app_assoc, Step, length_app, Nat.add_1_r in IH. simpl in IH.
    destruct skip as [|n]; [|apply IH].
    destruct (Re.match_at r (prev_after None pre) (c :: s)) as [[caps rest]|] eqn:M.
    + constructor; [|apply IH].
      exists pre, (c :: s), rest. repeat split; assumption.
    + apply IH.
Qed.

Lemma scan_from r : forall s prev skip off,
  Forall (fun m => off <= Re.start m) (Re.scan r prev s skip off).
Proof.
  induction s as [|c s IH]; intros prev skip off; simpl.
  - destruct skip; [|constructor].
    destruct (Re.match_at r prev []) as [[caps rest]|]; constructor; simpl; auto.
  - assert (W : forall sk, Forall (fun m => off <= Re.start m)
                                  (Re.scan r (Some c) s sk (S off))).
    { intros sk. eapply Forall_impl; [|apply IH]. simpl. intros; lia. }
    destruct skip as [|n]; [|apply W].
    destruct (Re.match_at r prev (c :: s)) as [[caps rest]|]; [|apply W].
    constructor; [simpl; lia | apply W].
Qed.

Lemma scan_sorted r : forall s prev skip off,
  StronglySorted (fun a b => Re.start a < Re.start b) (Re.scan r prev s skip off).
Proof.
  induction s as [|c s IH]; intros prev skip off; simpl.
  - destruct skip; [|constructor].
    destruct (Re.match_at r prev []) as [[caps rest]|]; repeat constructor.
  - destruct skip as [|n]; [|apply IH].
    destruct (Re.match_at r prev (c :: s)) as [[caps rest]|]; [|apply IH].
    constructor; [apply IH|].
    eapply Forall_impl; [|apply scan_from]. simpl. intros; lia.
Qed.

Lemma finditer_matched r text : Forall (matched_at r text) (Re.finditer r text).
Proof. apply (scan_matched r text [] 0). Qed.

(* ================================================================= *)
(** ** Schema extraction *)

Ltac inv_matches :=
  repeat match goal with
         | H : matches (Re.Seq _ _) _ _ _ _ _ |- _ => inversion H; subst; clear H
         | H : matches (Re.Cap _) _ _ _ _ _ |- _ => inversion H; subst; clear H
         | H : matches (Re.Rep _ _ _) _ _ _ _ _ |- _ => inversion H; subst; clear H
         | H : matches (Re.Opt _) _ _ _ _ _ |- _ => inversion H; subst; clear H
         | H : matches (Re.Lit _) _ _ _ _ _ |- _ => inversion H; subst; clear H
         | H : matches (Re.Cls _) _ _ _ _ _ |- _ => inversion H; subst; clear H
         | H : matches (Re.Bol _) _ _ _ _ _ |- _ => inversion H; subst; clear H
         | H : matches Re.Eol _ _ _ _ _ |- _ => inversion H; subst; clear H
         | H : matches Re.Eps _ _ _ _ _ |- _ => inversion H; subst; clear H
         end.

Lemma fold_set_In {V} (l : list (str * V)) : forall d k v,
  Dict.get k (fold_left (fun d kv => Dict.set (fst kv) (snd kv) d) l d) = Some v ->
  In (k, v) l \/ Dict.get k d = Some v.
Proof.
  induction l as [|[k0 v0] l IH]; intros d k v H; simpl in *; [now right|].
  apply IH in H. destruct H as [H|H]; [left; now right|].
  destruct (list_eq_dec ascii_dec k k0) as [->|N].
  - rewrite get_set_same in H. injection H as <-. left. now left.
  - rewrite get_set_other in H by assumption. now right.
Qed.

Lemma of_pairs_In {V} (l : list (str * V)) k v :
  Dict.get k (Dict.of_pairs l) = Some v -> In (k, v) l.
Proof.
  unfold Dict.of_pairs. intros H. apply fold_set_In in H.
  destruct H as [H|H]; [assumption | discriminate].
Qed.

(** The value of a metadata pair is never empty. *)
Lemma meta_value_nonempty text m :
  matched_at meta_pattern text m -> group 1 m <> [].
Proof.
  intros [pre [s [rest [_ [_ M]]]]]. apply match_at_sound in M.
  destruct M as [x [prev' [_ M]]]. unfold group.
  unfold meta_pattern, Re.seq in M. simpl in M.
  inv_matches; simpl; auto.
Qed.

Lemma parse_meta_nonempty m k v :
  Dict.get k (parse_meta m) = Some v -> v <> [].
Proof.
  unfold parse_meta. intros H. apply of_pairs_In in H.
  apply in_map_iff in H. destruct H as [f [E I]]. injection E as _ <-.
  apply meta_value_nonempty with (text := m).
  pose proof (finditer_matched meta_pattern m) as F.
  rewrite Forall_forall in F. now apply F.
Qed.

Lemma resolve_key_same defines k d :
  Dict.get k (resolve_key defines k d) =
  match Dict.get k d with
  | None => None
  | Some [] => Some []
  | Some v =>
      Some (if is_number v then v
            else match Dict.get v defines with
                 | Some x => x
                 | None => fallback k
                 end)
  end.
Proof.
  unfold resolve_key. destruct (Dict.get k d) as [[|c v]|] eqn:G; try assumption.
  destruct (is_number (c :: v)); [assumption|].
  destruct (Dict.get (c :: v) defines); apply get_set_same.
Qed.

Lemma resolve_key_other defines k k' d :
  k' <> k -> Dict.get k' (resolve_key defines k d) = Dict.get k' d.
Proof.
  intros N. unfold resolve_key. destruct (Dict.get k d) as [[|c v]|]; try reflexivity.
  destruct (is_number (c :: v)); [reflexivity|].
  destruct (Dict.get (c :: v) defines); now apply get_set_other.
Qed.

Lemma resolve_spec defines d k :
  k = L "ui_min" \/ k = L "ui_max" ->
  Dict.get k (resolve defines d) =
  match Dict.get k d with
  | None => None
  | Some [] => Some []
  | Some v =>
      Some (if is_number v then v
            else match Dict.get v defines with
                 | Some x => x
                 | None => fallback k
                 end)
  end.
Proof.
  unfold resolve. intros [-> | ->].
  - rewrite resolve_key_other by (vm_compute; discriminate).
    apply resolve_key_same.
  - rewrite resolve_key_same.
    now rewrite resolve_key_other by (vm_compute; discriminate).
Qed.

(** C6.  For every declaration [parse_fx_uniforms] returns and for each of the
    keys ui_min and ui_max: when the metadata block gives the key a value that
    is not a number (optional minus sign, digits, optional fractional part),
    the declaration holds instead the value the table of [#define] constants
    binds to that text, or, when the table has none, 0 for ui_min and 100 for
    ui_max; a numeric value is kept, an absent key stays absent.  The example
    of the specification yields ui_max = 2.0. *)
Theorem C6_min_max_resolution text u :
  In u (parse_fx_uniforms text) ->
  (exists m, In m (Re.finditer pattern text) /\
             u = make_uniform (parse_defines text) m /\
             forall k, k = L "ui_min" \/ k = L "ui_max" ->
               match Dict.get k (parse_meta (group 2 m)) with
               | None => Dict.get k (meta u) = None
               | Some v =>
                   Dict.get k (meta u) =
                   Some (if is_number v then v
                         else match Dict.get v (parse_defines text) with
                              | Some x => x
                              | None => fallback k
                              end)
               end)
  /\ fallback (L "ui_min") = L "0" /\ fallback (L "ui_max") = L "100"
  /\ map (fun d => (name d, Dict.get (L "ui_max") (meta d)))
         (parse_fx_uniforms
            (lines ["#define MAX_STR 2.0";
                    "uniform float Strength <ui_min=0.0; ui_max=MAX_STR;> = 0.5;"]))
     = [(L "Strength", Some (L "2.0"))].
Proof.
  intros I. split; [|repeat split; vm_compute; reflexivity].
  unfold parse_fx_uniforms in I. apply in_map_iff in I.
  destruct I as [m [E I]]. exists m. repeat split; [assumption | now symmetry |].
  intros k Hk. subst u. simpl. rewrite resolve_spec by assumption.
  destruct (Dict.get k (parse_meta (group 2 m))) as [v|] eqn:G; [|reflexivity].
  apply parse_meta_nonempty in G. destruct v; [congruence | reflexivity].
Qed.

(** C8 (amended).  [parse_fx_uniforms] returns one declaration per matched
    block, in the order of the blocks in the text: the matches have strictly
    increasing offsets, each is a match of the block pattern at its offset, and
    the names of the declarations are the names of the matches in that order.
    Nothing is removed: a name declared twice occurs twice. *)
Theorem C8_source_order text :
  parse_fx_uniforms text
  = map (make_uniform (parse_defines text)) (Re.finditer pattern text)
  /\ map name (parse_fx_uniforms text) = map (group 1) (Re.finditer pattern text)
  /\ StronglySorted (fun a b => Re.start a < Re.start b) (Re.finditer pattern text)
  /\ Forall (matched_at pattern text) (Re.finditer pattern text)
  /\ List.length (parse_fx_uniforms text) = List.length (Re.finditer pattern text).
Proof.
  split; [reflexivity|].
  split; [unfold parse_fx_uniforms; rewrite map_map; reflexivity|].
  split; [apply scan_sorted|].
  split; [apply finditer_matched|].
  unfold parse_fx_uniforms. apply length_map.
Qed.

(** C8, as stated, fails: the same name declared twice gives two entries, the
    first declaration is still in the list. *)
Lemma C8_counterexample :
  map (fun d => (name d, default d)) (parse_fx_uniforms ex_twice)
  = [(L "Gain", L "1.0"); (L "Gain", L "2.0")]
  /\ ~ NoDup (map name (parse_fx_uniforms ex_twice)).
Proof.
  split; [vm_compute; reflexivity|].
  intros H. replace (map name (parse_fx_uniforms ex_twice))
    with [L "Gain"; L "Gain"] in H by (vm_compute; reflexivity).
  inversion H as [|? ? N _]. apply N. now left.
Qed.

(* ================================================================= *)
(** ** Stripping and line splitting *)

Lemma lstrip_app_nonspace a c :
  Py.isspace c = false -> Py.lstrip (a ++ [c]) = Py.lstrip a ++ [c].
Proof.
  intros N. induction a as [|x a IH]; simpl.
  - now rewrite N.
  - destruct (Py.isspace x); [assumption | reflexivity].
Qed.

Lemma rstrip_cons_nonspace c l :
  Py.isspace c = false -> Py.rstrip (c :: l) = c :: Py.rstrip l.
Proof.
  intros N. unfold Py.rstrip. simpl.
  rewrite lstrip_app_nonspace by assumption.
  rewrite rev_app_distr. reflexivity.
Qed.

Lemma strip_cons_nonspace c l :
  Py.isspace c = false -> Py.strip (c :: l) = c :: Py.rstrip l.
Proof.
  intros N. unfold Py.strip. simpl. rewrite N. now apply rstrip_cons_nonspace.
Qed.

Lemma lstrip_app_space a c :
  Py.isspace c = true -> Py.lstrip a = a -> Py.lstrip (rev (a ++ [c])) = Py.lstrip (rev a).
Proof.
  intros S _. rewrite rev_app_distr. simpl. now rewrite S.
Qed.

Lemma rstrip_app_space a c :
  Py.isspace c = true -> Py.rstrip (a ++ [c]) = Py.rstrip a.
Proof.
  intros S. unfold Py.rstrip. rewrite rev_app_distr. simpl. now rewrite S.
Qed.

Lemma rstrip_nl a : Py.rstrip (a ++ nl) = Py.rstrip a.
Proof. apply rstrip_app_space. reflexivity. Qed.

Lemma readlines_aux_line : forall (l cur rest : str),
  Forall (fun c => c <> Py.LF) l ->
  Py.readlines_aux (l ++ Py.LF :: rest) cur
  = (rev cur ++ l ++ [Py.LF]) :: Py.readlines_aux rest [].
Proof.
  induction l as [|c l IH]; intros cur rest F; simpl.
  - reflexivity.
  - inversion F as [|? ? Nc F']; subst.
    destruct (Ascii.eqb c Py.LF) eqn:E; [apply Ascii.eqb_eq in E; contradiction|].
    rewrite IH by assumption. simpl. now rewrite <- app_assoc.
Qed.

Lemma readlines_line (l rest : str) :
  Forall (fun c => c <> Py.LF) l ->
  Py.readlines (l ++ Py.LF :: rest) = (l ++ [Py.LF]) :: Py.readlines rest.
Proof. intros F. unfold Py.readlines. now rewrite readlines_aux_line. Qed.

(* ================================================================= *)
(** ** The reader: what can raise, and when *)

Import ConfigParser.



















Lemma lstrip_incl s : incl (Py.lstrip s) s.
Proof.
  induction s as [|c s IH]; simpl; [apply incl_refl|].
  destruct (Py.isspace c); [now apply incl_tl | apply incl_refl].
Qed.

Lemma strip_incl s : incl (Py.strip s) s.
Proof.
  unfold Py.strip, Py.rstrip. intros x I.
  apply lstrip_incl. apply in_rev in I. apply lstrip_incl in I.
  now apply in_rev in I.
Qed.



Lemma is_comment_cons c t :
  Py.isspace c = false ->
  is_comment (c :: t) = (Ascii.eqb "#" c || Ascii.eqb ";" c)%bool.
Proof.
  intros N. unfold is_comment. rewrite strip_cons_nonspace by assumption.
  unfold Py.startswith, L. cbn -[Ascii.eqb]. now rewrite !andb_true_r.
Qed.

Lemma first_nonspace_cons c t :
  Py.isspace c = false -> first_nonspace (c :: t) = 0.
Proof. intros N. simpl. now rewrite N. Qed.

Lemma sectcre_not_bracket c v :
  c <> "["%char -> Re.match_ SECTCRE (c :: v) = None.
Proof.
  intros N. apply Ascii.eqb_neq in N.
  unfold Re.match_, Re.match_at, SECTCRE. cbn -[Ascii.eqb]. now rewrite N.
Qed.

(** The reading of a line that starts in the first column with a character
    that opens no comment. *)
Lemma read_line_col0 st n c t :
  Py.isspace c = false -> c <> "#"%char -> c <> ";"%char ->
  read_line st n (c :: t)
  = header_or_option (set_indent st 0) n (c :: t) (c :: Py.rstrip t).
Proof.
  intros Sp N1 N2. unfold read_line.
  rewrite is_comment_cons, strip_cons_nonspace, first_nonspace_cons by assumption.
  assert (E1 : Ascii.eqb "#" c = false) by (apply Ascii.eqb_neq; congruence).
  assert (E2 : Ascii.eqb ";" c = false) by (apply Ascii.eqb_neq; congruence).
  rewrite E1, E2. cbn [orb].
  destruct (in_option st); [|reflexivity].
  now destruct (indent_level st).
Qed.




(* ================================================================= *)
(** ** [parse_ini]: results and exceptions *)

Lemma parse_ini_read content :
  exists smap kmap,
    parse_ini content =
    match read_string (text_read content) with
    | inl config => Returned (Some config) smap kmap None
    | inr (DuplicateSectionError s n) =>
        Returned None smap kmap (Some (DuplicateSectionError s n))
    | inr exn => Raised exn
    end.
Proof.
  unfold parse_ini, text_read.
  destruct (has_leading_header content); eexists; eexists; reflexivity.
Qed.

Lemma parse_ini_store content c smap kmap err :
  parse_ini content = Returned (Some c) smap kmap err ->
  read_string (text_read content) = inl c.
Proof.
  destruct (parse_ini_read content) as [sm [km ->]].
  destruct (read_string (text_read content)) as [c0|[]]; try discriminate.
  now intros [= <- _ _ _].
Qed.



(* ================================================================= *)
(** ** The leading header *)

Section RepFacts.
Context {A : Type}.
Implicit Types (k : option ascii -> str -> option A) (p : ascii -> bool).

Lemma rep_greedy_full p k r : forall ws t prev,
  Forall (fun c => p c = true) ws ->
  match t with [] => True | c :: _ => p c = false end ->
  k (prev_after prev ws) t = Some r ->
  Re.rep_greedy p prev (ws ++ t) k = Some r.
Proof.
  induction ws as [|x ws IH]; intros t prev F T K; simpl.
  - destruct t as [|c t]; [assumption|]. simpl. now rewrite T.
  - inversion F as [|? ? Px F']; subst. rewrite Px.
    rewrite (IH t (Some x)); [reflexivity | assumption | assumption |].
    now rewrite prev_after_cons with (prev := prev).
Qed.

Lemma rep_lazy_unfold p k prev s :
  Re.rep_lazy p prev s k =
  match k prev s with
  | Some r => Some r
  | None =>
      match s with
      | c :: s' => if p c then Re.rep_lazy p (Some c) s' k else None
      | [] => None
      end
  end.
Proof. destruct s; reflexivity. Qed.

Lemma rep_lazy_reaches p k : forall body t prev,
  Forall (fun c => p c = true) body ->
  (forall pv, k pv t <> None) ->
  Re.rep_lazy p prev (body ++ t) k <> None.
Proof.
  induction body as [|c b IH]; intros t prev F K; rewrite rep_lazy_unfold.
  - simpl. specialize (K prev). now destruct (k prev t).
  - simpl. destruct (k prev (c :: b ++ t)); [discriminate|].
    inversion F as [|? ? Pc F']; subst. rewrite Pc. now apply IH.
Qed.

End RepFacts.

Lemma dot_spec c : Re.dot c = true <-> c <> Py.LF.
Proof.
  unfold Re.dot. rewrite negb_true_iff. apply Ascii.eqb_neq.
Qed.

(** The test [re.match(r'\s*\[.*?\]', content)] of [parse_ini] holds exactly
    for the texts that begin with a bracketed name. *)
Lemma has_leading_header_spec content :
  has_leading_header content = true <-> leading_header content.
Proof.
  unfold has_leading_header, leading_header. split.
  - destruct (Re.match_ leading_header_pattern content) as [[caps rest]|] eqn:M;
      [intros _ | discriminate].
    apply match_at_sound in M. destruct M as [x [prev' [-> M]]].
    unfold leading_header_pattern, Re.seq in M. simpl in M. inv_matches.
    match goal with
    | F1 : Forall (fun c => Re.space c = true) ?ws,
      F2 : Forall (fun c => Re.dot c = true) ?body |- _ =>
        exists ws, body, rest
    end.
    repeat split.
    + rewrite <- !app_assoc. reflexivity.
    + assumption.
    + eapply Forall_impl; [|eassumption]. intros a. apply dot_spec.
  - intros [ws [body [rest [-> [Fw Fb]]]]].
    destruct (Re.match_ leading_header_pattern _) eqn:M; [reflexivity|exfalso].
    revert M. unfold Re.match_, Re.match_at, leading_header_pattern, Re.seq.
    cbn [fold_right Re.run Re.rep].
    destruct (Re.rep_lazy Re.dot (Some "["%char) (body ++ "]"%char :: rest)
                (fun (prev' : option ascii) (s' : str) =>
                   Re.run (Re.Lit "]") prev' s' []
                     (fun prev'0 s'0 caps' =>
                        Re.run Re.Eps prev'0 s'0 caps'
                               (fun _ s'1 caps => Some (caps, s'1)))))
      as [r|] eqn:Z.
    + rewrite (rep_greedy_full _ _ r); [discriminate | assumption | reflexivity |].
      cbn -[Re.rep_lazy]. exact Z.
    + exfalso. revert Z. apply rep_lazy_reaches.
      * eapply Forall_impl; [|eassumption]. intros a. apply dot_spec.
      * intros pv. cbn. discriminate.
Qed.

(* ================================================================= *)
(** ** Sections only accumulate while reading *)

Lemma keys_set {V} (d : Dict.t V) k v :
  exists extra, Dict.keys (Dict.set k v d) = Dict.keys d ++ extra.
Proof.
  unfold Dict.keys. induction d as [|[k0 v0] d [extra IH]]; simpl.
  - now exists [k].
  - destruct (Py.str_eqb k k0); simpl.
    + exists []. now rewrite app_nil_r.
    + exists extra. now rewrite IH.
Qed.

Lemma keys_with_cur_dict st d :
  exists extra,
    Dict.keys (r_sections (with_cur_dict st d)) = Dict.keys (r_sections st) ++ extra.
Proof.
  unfold with_cur_dict. destruct (cursect st); simpl;
    try (exists []; now rewrite app_nil_r). apply keys_set.
Qed.

Lemma keys_append_value st o v :
  exists extra,
    Dict.keys (r_sections (append_value st o v)) = Dict.keys (r_sections st) ++ extra.
Proof.
  unfold append_value. destruct (Dict.get o (cur_dict st)).
  - apply keys_with_cur_dict.
  - exists []. now rewrite app_nil_r.
Qed.

Lemma keys_header_or_option st n line value st' :
  header_or_option st n line value = inl st' ->
  exists extra, Dict.keys (r_sections st') = Dict.keys (r_sections st) ++ extra.
Proof.
  unfold header_or_option.
  destruct (Re.match_ SECTCRE value) as [[caps rest]|].
  - unfold enter_section. destruct (Dict.mem _ _).
    + destruct (existsb _ _); [discriminate|]. intros [= <-]. simpl.
      exists []. now rewrite app_nil_r.
    + destruct (Py.str_eqb _ _); intros [= <-]; simpl.
      * exists []. now rewrite app_nil_r.
      * apply keys_set.
  - assert (W : forall o v, enter_option st n line o v = inl st' ->
                 exists extra, Dict.keys (r_sections st') = Dict.keys (r_sections st) ++ extra).
    { intros o v. unfold enter_option. destruct (existsb _ _); [discriminate|].
      intros [= <-]. simpl.
      destruct (keys_with_cur_dict
                  (match o with [] => handle_error st n line | _ :: _ => st end)
                  (Dict.set (Py.rstrip o) [Py.strip v]
                     (cur_dict (match o with [] => handle_error st n line
                                        | _ :: _ => st end)))) as [extra E].
      exists extra. rewrite E. now destruct o. }
    destruct (cursect st); [discriminate| |];
      (destruct (Re.match_ OPTCRE value) as [[caps rest]|];
       [apply W | intros [= <-]; exists []; simpl; now rewrite app_nil_r]).
Qed.

Lemma keys_read_line st n line st' :
  read_line st n line = inl st' ->
  exists extra, Dict.keys (r_sections st') = Dict.keys (r_sections st) ++ extra.
Proof.
  unfold read_line.
  destruct (if is_comment line then [] else Py.strip line) as [|c v].
  - destruct (in_option st); [destruct (is_comment line)|]; intros [= <-];
      try (exists []; now rewrite app_nil_r). apply keys_append_value.
  - assert (W : forall m, header_or_option (set_indent st m) n line (c :: v) = inl st' ->
                 exists extra, Dict.keys (r_sections st') = Dict.keys (r_sections st) ++ extra).
    { intros m H. now apply keys_header_or_option in H. }
    destruct (in_option st); [destruct (_ <? _)|]; try apply W.
    intros [= <-]. apply keys_append_value.
Qed.

Lemma keys_read_lines : forall ls st n st',
  read_lines st n ls = inl st' ->
  exists extra, Dict.keys (r_sections st') = Dict.keys (r_sections st) ++ extra.
Proof.
  induction ls as [|l ls IH]; intros st n st' H; simpl in H.
  - injection H as <-. exists []. now rewrite app_nil_r.
  - destruct (read_line st n l) as [st1|] eqn:R; [|discriminate].
    apply keys_read_line in R. destruct R as [x1 E1].
    apply IH in H. destruct H as [x2 E2].
    exists (x1 ++ x2). now rewrite E2, E1, app_assoc.
Qed.

Lemma sections_finish st : sections (finish st) = Dict.keys (r_sections st).
Proof. unfold sections, finish, Dict.keys. simpl. now rewrite map_map. Qed.

(** The text with the synthetic header begins with the section GLOBAL. *)
Lemma read_string_global content c :
  read_string (L "[GLOBAL]" ++ nl ++ content) = inl c ->
  exists others, sections c = GLOBAL :: others.
Proof.
  unfold read_string.
  change (L "[GLOBAL]" ++ nl ++ content) with (L "[GLOBAL]" ++ Py.LF :: content).
  rewrite readlines_line by (repeat constructor; discriminate).
  cbn [read_lines].
  change (read_line start 1 (L "[GLOBAL]" ++ [Py.LF]))
    with (@inl reader error
            {| r_sections := [(GLOBAL, [])]; r_defaults := [];
               added_sections := [GLOBAL]; added_options := [];
               cursect := InSection GLOBAL; sectname := Some GLOBAL;
               optname := None; indent_level := 0; e := [] |}).
  cbv beta iota.
  match goal with
  | |- context [read_lines ?s 2 (Py.readlines content)] =>
      destruct (read_lines s 2 (Py.readlines content)) as [st|] eqn:R; [|discriminate]
  end.
  destruct (e st); [|discriminate]. intros [= <-].
  apply keys_read_lines in R. destruct R as [extra E].
  exists extra. now rewrite sections_finish, E.
Qed.

(* ================================================================= *)
(** ** The shape of the written text *)

Lemma write_sections_true config smap kmap : forall names,
  write_sections config smap kmap names true
  = flat_map (fun s => nl ++ block config smap kmap s)
             (filter (fun s => negb (Py.str_eqb s GLOBAL)) names).
Proof.
  induction names as [|s names IH]; simpl; [reflexivity|].
  destruct (Py.str_eqb s GLOBAL); simpl; [assumption|].
  rewrite IH. unfold block. now rewrite <- !app_assoc.
Qed.

Lemma flat_map_join {A} (f : A -> str) : forall l,
  flat_map (fun s => nl ++ f s) l
  = match l with [] => [] | _ => nl ++ Py.join nl (map f l) end.
Proof.
  induction l as [|a l IH]; [reflexivity|].
  cbn [flat_map]. rewrite IH. destruct l as [|b l]; cbn [map Py.join].
  - now rewrite app_nil_r.
  - now rewrite <- !app_assoc.
Qed.

Lemma join_flat_map {A} (f : A -> str) a l :
  Py.join nl (map f (a :: l)) = f a ++ flat_map (fun s => nl ++ f s) l.
Proof.
  rewrite flat_map_join. destruct l as [|b l]; cbn [map Py.join].
  - now rewrite app_nil_r.
  - reflexivity.
Qed.

Lemma write_sections_false config smap kmap : forall names,
  write_sections config smap kmap names false
  = Py.join nl (map (block config smap kmap)
                    (filter (fun s => negb (Py.str_eqb s GLOBAL)) names)).
Proof.
  assert (J : forall l,
             flat_map (fun s => nl ++ block config smap kmap s) l
             = match l with
               | [] => []
               | _ => nl ++ Py.join nl (map (block config smap kmap) l)
               end).
  { induction l as [|a l IH]; [reflexivity|].
    cbn [flat_map]. rewrite IH. destruct l as [|b l]; cbn [map Py.join].
    - now rewrite app_nil_r.
    - now rewrite <- !app_assoc. }
  assert (B : forall s names,
             [] ++ L "[" ++ Dict.get_default (Py.lower s) s smap ++ L "]" ++ nl
                ++ write_items (Dict.get_default (Py.lower s) [] kmap) (items config s)
                ++ write_sections config smap kmap names true
             = block config smap kmap s ++ write_sections config smap kmap names true).
  { intros s names. unfold block. now rewrite <- !app_assoc. }
  induction names as [|s names IH]; cbn [write_sections filter]; [reflexivity|].
  destruct (Py.str_eqb s GLOBAL); cbn [negb]; [assumption|].
  rewrite B, write_sections_true, J. cbn [map].
  destruct (filter _ names) as [|b l]; cbn [Py.join map].
  - now rewrite app_nil_r.
  - reflexivity.
Qed.

Lemma contains_GLOBAL config :
  contains config GLOBAL = has_section config GLOBAL.
Proof. reflexivity. Qed.

(** The written text: the entries of GLOBAL without a header, then every
    other section as a block, blocks being separated by one empty line. *)
Lemma write_ini_shape config smap kmap :
  write_ini config smap kmap =
  if has_section config GLOBAL
  then write_items (Dict.get_default (L "global") [] kmap) (items config GLOBAL)
         ++ flat_map (fun s => nl ++ block config smap kmap s)
                     (explicit_sections config)
  else Py.join nl (map (block config smap kmap) (explicit_sections config)).
Proof.
  unfold write_ini. rewrite contains_GLOBAL.
  destruct (has_section config GLOBAL).
  - now rewrite write_sections_true.
  - now rewrite write_sections_false.
Qed.

(* ================================================================= *)
(** ** The implicit section *)

Lemma text_read_spec content :
  (leading_header content -> text_read content = content)
  /\ (~ leading_header content -> text_read content = L "[GLOBAL]" ++ nl ++ content).
Proof.
  unfold text_read. destruct (has_leading_header content) eqn:H.
  - split; [reflexivity|]. intros N. exfalso. apply N.
    now apply has_leading_header_spec.
  - split; [|reflexivity]. intros N. apply has_leading_header_spec in N. congruence.
Qed.

Lemma identity_pairs_get (l : list str) k : forall d,
  In k l \/ Dict.get k d = Some k ->
  Dict.get k (fold_left (fun d kv => Dict.set (fst kv) (snd kv) d)
                        (map (fun k => (k, k)) l) d) = Some k.
Proof.
  induction l as [|a l IH]; intros d H; simpl.
  - destruct H as [[]|H]. assumption.
  - apply IH. destruct (list_eq_dec ascii_dec k a) as [->|N].
    + right. apply get_set_same.
    + destruct H as [[E|I]|G]; [congruence | now left | right].
      now rewrite get_set_other.
Qed.

Lemma identity_pairs_spec (l : list str) k v :
  Dict.get k (Dict.of_pairs (map (fun k => (k, k)) l)) = Some v <->
  v = k /\ In k l.
Proof.
  split.
  - intros H. apply of_pairs_In, in_map_iff in H.
    destruct H as [x [[= <- <-] I]]. now split.
  - intros [-> I]. unfold Dict.of_pairs. apply identity_pairs_get. now left.
Qed.

Lemma parse_ini_implicit content c smap kmap err :
  has_leading_header content = false ->
  parse_ini content = Returned (Some c) smap kmap err ->
  read_string (L "[GLOBAL]" ++ nl ++ content) = inl c /\
  smap = Dict.set (L "global") GLOBAL (section_name_map (scan_casing content)) /\
  kmap = Dict.set (L "global")
                  (Dict.of_pairs (map (fun k => (k, k))
                                      (bare_keys (L "[GLOBAL]" ++ nl ++ content))))
                  (key_name_map (scan_casing content)).
Proof.
  intros H. unfold parse_ini. rewrite H.
  destruct (read_string (L "[GLOBAL]" ++ nl ++ content)) as [c0|[]];
    try discriminate.
  intros [= <- <- <- _]. repeat split.
Qed.

Lemma parse_ini_explicit content c smap kmap err :
  has_leading_header content = true ->
  parse_ini content = Returned (Some c) smap kmap err ->
  read_string content = inl c /\
  smap = section_name_map (scan_casing content) /\
  kmap = key_name_map (scan_casing content).
Proof.
  intros H. unfold parse_ini. rewrite H.
  destruct (read_string content) as [c0|[]]; try discriminate.
  intros [= <- <- <- _]. repeat split.
Qed.

(** C7 (amended).  [parse_ini] puts the synthetic header [GLOBAL] in front of
    the text exactly when the text does not begin, after optional whitespace,
    with a bracketed name on one line (a header further down does not count).
    In that case the store begins with the section GLOBAL, the section map
    sends global to GLOBAL and the key map of global sends to itself each key
    found by the scan for word-then-equals at the start of a line, and nothing
    else.  Otherwise store and maps come from the text as it is.  The written
    text always has the entries of GLOBAL first and without header, then the
    other sections in the order of the store, one empty line between blocks. *)
Theorem C7_implicit_section :
  (forall content,
      (leading_header content -> text_read content = content) /\
      (~ leading_header content ->
       text_read content = L "[GLOBAL]" ++ nl ++ content))
  /\ (forall content c smap kmap err,
         ~ leading_header content ->
         parse_ini content = Returned (Some c) smap kmap err ->
         (exists others, sections c = GLOBAL :: others) /\
         Dict.get (L "global") smap = Some GLOBAL /\
         exists km, Dict.get (L "global") kmap = Some km /\
                    forall k v, Dict.get k km = Some v <->
                                v = k /\ In k (bare_keys (text_read content)))
  /\ (forall content c smap kmap err,
         leading_header content ->
         parse_ini content = Returned (Some c) smap kmap err ->
         read_string content = inl c /\
         smap = section_name_map (scan_casing content) /\
         kmap = key_name_map (scan_casing content))
  /\ (forall config smap kmap,
         write_ini config smap kmap =
         if has_section config GLOBAL
         then write_items (Dict.get_default (L "global") [] kmap)
                          (items config GLOBAL)
                ++ flat_map (fun s => nl ++ block config smap kmap s)
                            (explicit_sections config)
         else Py.join nl (map (block config smap kmap) (explicit_sections config))).
Proof.
  split; [exact text_read_spec|].
  split.
  { intros content c smap kmap err N P.
    assert (H : has_leading_header content = false).
    { destruct (has_leading_header content) eqn:H; [|reflexivity].
      apply has_leading_header_spec in H. contradiction. }
    destruct (parse_ini_implicit _ _ _ _ _ H P) as [R [-> ->]].
    split; [now apply read_string_global in R|].
    split; [apply get_set_same|].
    eexists. split; [apply get_set_same|].
    intros k v. unfold text_read. rewrite H. apply identity_pairs_spec. }
  split.
  { intros content c smap kmap err Hl P. apply has_leading_header_spec in Hl.
    now apply parse_ini_explicit with (err := err). }
  exact write_ini_shape.
Qed.

(** C7, as stated, fails: this text contains the header of section S, and the
    synthetic header is added all the same. *)
Lemma C7_counterexample :
  (exists line, In line (Py.readlines ex_late_header) /\ header_of line = Some (L "S"))
  /\ text_read ex_late_header = L "[GLOBAL]" ++ nl ++ ex_late_header
  /\ exists c smap kmap,
       parse_ini ex_late_header = Returned (Some c) smap kmap None /\
       sections c = [GLOBAL; L "S"] /\
       Dict.get (L "global") smap = Some GLOBAL.
Proof.
  split.
  { exists (L "[S]" ++ nl). split; vm_compute; auto. }
  split; [vm_compute; reflexivity|].
  eexists. eexists. eexists. split; [vm_compute; reflexivity|].
  split; vm_compute; reflexivity.
Qed.

(* ================================================================= *)
(** ** An explicit section named GLOBAL *)

Lemma leading_header_GLOBAL body : leading_header (L "[GLOBAL]" ++ nl ++ body).
Proof.
  exists [], (L "GLOBAL"), (nl ++ body). repeat split.
  - constructor.
  - repeat constructor; discriminate.
Qed.

Lemma explicit_sections_no_GLOBAL config : ~ In GLOBAL (explicit_sections config).
Proof.
  unfold explicit_sections. intros I. apply filter_In in I.
  destruct I as [_ I]. now rewrite str_eqb_refl in I.
Qed.

(** A header line in the first column names a section of the reader from
    then on, the DEFAULT section apart. *)
Lemma read_line_header st n t h st' :
  header_of ("["%char :: t) = Some h ->
  Py.str_eqb h DEFAULTSECT = false ->
  read_line st n ("["%char :: t) = inl st' ->
  In h (Dict.keys (r_sections st')).
Proof.
  intros H D. rewrite read_line_col0 by (reflexivity || discriminate).
  unfold header_of in H.
  rewrite is_comment_cons, strip_cons_nonspace in H by reflexivity.
  cbn [Ascii.eqb Bool.eqb orb] in H. unfold header_or_option.
  destruct (Re.match_ SECTCRE ("["%char :: Py.rstrip t)) as [[caps rest]|];
    [|discriminate].
  injection H as H. rewrite H. unfold enter_section.
  destruct (Dict.mem h (r_sections (set_indent st 0))) eqn:M.
  - destruct (existsb _ _); [discriminate|]. intros [= <-]. simpl.
    now apply mem_keys in M.
  - rewrite D. intros [= <-]. simpl. apply keys_set_In.
Qed.

Lemma read_lines_header : forall ls st n st' t h,
  In ("["%char :: t) ls ->
  header_of ("["%char :: t) = Some h ->
  Py.str_eqb h DEFAULTSECT = false ->
  read_lines st n ls = inl st' ->
  In h (Dict.keys (r_sections st')).
Proof.
  induction ls as [|l ls IH]; intros st n st' t h I H D R; [destruct I|].
  simpl in R. destruct (read_line st n l) as [st1|] eqn:R1; [|discriminate].
  destruct I as [->|I].
  - apply (read_line_header _ _ _ h) in R1; [|assumption..].
    apply keys_read_lines in R. destruct R as [extra ->].
    apply in_or_app. now left.
  - now apply (IH st1 (S n) st' t h).
Qed.

Lemma read_string_header content c t h :
  In ("["%char :: t) (Py.readlines content) ->
  header_of ("["%char :: t) = Some h ->
  Py.str_eqb h DEFAULTSECT = false ->
  read_string content = inl c ->
  has_section c h = true.
Proof.
  intros I H D. unfold read_string.
  destruct (read_lines start 1 (Py.readlines content)) as [st|] eqn:R;
    [|discriminate].
  destruct (e st); [|discriminate]. intros [= <-].
  unfold has_section. apply mem_keys.
  change (In h (sections (finish st))). rewrite sections_finish.
  now apply (read_lines_header _ _ _ _ t h) in R.
Qed.

Lemma text_read_lines content line :
  In line (Py.readlines content) -> In line (Py.readlines (text_read content)).
Proof.
  unfold text_read. destruct (has_leading_header content); [tauto|].
  intros I. change (L "[GLOBAL]" ++ nl ++ content) with (L "[GLOBAL]" ++ Py.LF :: content).
  rewrite readlines_line by (repeat constructor; discriminate). now right.
Qed.

Lemma added_with_cur_dict st d :
  added_sections (with_cur_dict st d) = added_sections st.
Proof. unfold with_cur_dict. now destruct (cursect st). Qed.

Lemma added_append_value st o v :
  added_sections (append_value st o v) = added_sections st.
Proof.
  unfold append_value. destruct (Dict.get o (cur_dict st)); [|reflexivity].
  apply added_with_cur_dict.
Qed.

Lemma added_header_or_option st n line value st' :
  header_or_option st n line value = inl st' ->
  exists extra, added_sections st' = added_sections st ++ extra.
Proof.
  unfold header_or_option.
  destruct (Re.match_ SECTCRE value) as [[caps rest]|].
  - unfold enter_section. destruct (Dict.mem _ _).
    + destruct (existsb _ _); [discriminate|]. intros [= <-]. simpl. now eexists.
    + destruct (Py.str_eqb _ _); intros [= <-]; simpl; [|now eexists].
      exists []. now rewrite app_nil_r.
  - assert (W : forall o v, enter_option st n line o v = inl st' ->
                 exists extra, added_sections st' = added_sections st ++ extra).
    { intros o v. unfold enter_option. destruct (existsb _ _); [discriminate|].
      intros [= <-]. simpl. rewrite added_with_cur_dict.
      exists []. rewrite app_nil_r. now destruct o. }
    destruct (cursect st); [discriminate| |];
      (destruct (Re.match_ OPTCRE value) as [[caps rest]|];
       [apply W | intros [= <-]; exists []; simpl; now rewrite app_nil_r]).
Qed.

(** The reader never forgets a section it has entered. *)
Lemma added_read_line st n line st' :
  read_line st n line = inl st' ->
  exists extra, added_sections st' = added_sections st ++ extra.
Proof.
  unfold read_line.
  destruct (if is_comment line then [] else Py.strip line) as [|c v].
  - destruct (in_option st); [destruct (is_comment line)|]; intros [= <-];
      try (exists []; now rewrite app_nil_r).
    exists []. now rewrite app_nil_r, added_append_value.
  - assert (W : forall m, header_or_option (set_indent st m) n line (c :: v) = inl st' ->
                 exists extra, added_sections st' = added_sections st ++ extra).
    { intros m H. now apply added_header_or_option in H. }
    destruct (in_option st); [destruct (_ <? _)|]; try apply W.
    intros [= <-]. exists []. now rewrite app_nil_r, added_append_value.
Qed.

(** A header line in the first column that names a section the reader has
    entered before ends the reading. *)
Lemma read_line_repeated st n t h :
  In h (Dict.keys (r_sections st)) -> In h (added_sections st) ->
  header_of ("["%char :: t) = Some h ->
  read_line st n ("["%char :: t) = inr (DuplicateSectionError h n).
Proof.
  intros K A H. rewrite read_line_col0 by (reflexivity || discriminate).
  unfold header_of in H.
  rewrite is_comment_cons, strip_cons_nonspace in H by reflexivity.
  cbn [Ascii.eqb Bool.eqb orb] in H. unfold header_or_option.
  destruct (Re.match_ SECTCRE ("["%char :: Py.rstrip t)) as [[caps rest]|];
    [|discriminate].
  injection H as H. rewrite H. unfold enter_section.
  apply mem_keys in K. cbn [set_indent r_sections added_sections]. rewrite K.
  apply mem_str_In in A. unfold mem_str in A. now rewrite A.
Qed.

Lemma read_lines_repeated : forall ls st n t h,
  In h (Dict.keys (r_sections st)) -> In h (added_sections st) ->
  In ("["%char :: t) ls -> header_of ("["%char :: t) = Some h ->
  exists exn, read_lines st n ls = inr exn.
Proof.
  induction ls as [|l ls IH]; intros st n t h K A I H; [destruct I|].
  simpl. destruct (read_line st n l) as [st1|exn] eqn:R; [|now exists exn].
  destruct I as [->|I].
  - rewrite (read_line_repeated st n t h K A H) in R. discriminate.
  - apply (IH st1 (S n) t h); try assumption.
    + apply keys_read_line in R. destruct R as [extra ->].
      apply in_or_app. now left.
    + apply added_read_line in R. destruct R as [extra ->].
      apply in_or_app. now left.
Qed.

(** In a text that does not begin with a header, a line that carries the
    header GLOBAL in the first column repeats the synthetic header. *)
Lemma read_string_late_global content t :
  ~ leading_header content ->
  In ("["%char :: t) (Py.readlines content) ->
  header_of ("["%char :: t) = Some GLOBAL ->
  exists exn, read_string (text_read content) = inr exn.
Proof.
  intros N I H. destruct (text_read_spec content) as [_ ->]; [|assumption].
  unfold read_string.
  change (L "[GLOBAL]" ++ nl ++ content) with (L "[GLOBAL]" ++ Py.LF :: content).
  rewrite readlines_line by (repeat constructor; discriminate).
  cbn [read_lines].
  change (read_line start 1 (L "[GLOBAL]" ++ [Py.LF]))
    with (@inl reader error
            {| r_sections := [(GLOBAL, [])]; r_defaults := [];
               added_sections := [GLOBAL]; added_options := [];
               cursect := InSection GLOBAL; sectname := Some GLOBAL;
               optname := None; indent_level := 0; e := [] |}).
  cbv iota.
  destruct (read_lines_repeated (Py.readlines content)
              {| r_sections := [(GLOBAL, [])]; r_defaults := [];
                 added_sections := [GLOBAL]; added_options := [];
                 cursect := InSection GLOBAL; sectname := Some GLOBAL;
                 optname := None; indent_level := 0; e := [] |} 2 t GLOBAL)
    as [exn ->]; try assumption; try (now left).
  now exists exn.
Qed.

(** C9 (amended).  When [parse_ini] yields a store for a text that declares a
    section headed [GLOBAL], that section is the implicit section of the
    store: the text with that header in front is read exactly as the text
    without it; a store read from a text with a line that carries the header
    [GLOBAL] in the first column has the section GLOBAL; and whenever the store
    read from a text has a section GLOBAL, the written text starts with that
    section's entries, no header line being written for it, the blocks of the
    other sections following.  A text that does not begin with a header and
    has a line with the header [GLOBAL] in the first column yields no store:
    the synthetic header has been put in front, the declared one repeats it,
    and the reading ends with an exception.  In the examples the header line
    is gone and the section has moved to the front, and a text that opens
    with a comment line and then declares [GLOBAL] is refused. *)
Theorem C9_explicit_global :
  (forall body,
      ~ leading_header body ->
      text_read (L "[GLOBAL]" ++ nl ++ body) = text_read body /\
      forall c, (exists smap kmap,
                    parse_ini (L "[GLOBAL]" ++ nl ++ body)
                    = Returned (Some c) smap kmap None) <->
                (exists smap kmap,
                    parse_ini body = Returned (Some c) smap kmap None))
  /\ (forall content c smap kmap err t,
         parse_ini content = Returned (Some c) smap kmap err ->
         In ("["%char :: t) (Py.readlines content) ->
         header_of ("["%char :: t) = Some GLOBAL ->
         has_section c GLOBAL = true)
  /\ (forall content c smap kmap err,
         parse_ini content = Returned (Some c) smap kmap err ->
         has_section c GLOBAL = true ->
         write_ini c smap kmap
         = write_items (Dict.get_default (L "global") [] kmap) (items c GLOBAL)
             ++ flat_map (fun s => nl ++ block c smap kmap s) (explicit_sections c)
         /\ ~ In GLOBAL (explicit_sections c))
  /\ (forall content t,
         ~ leading_header content ->
         In ("["%char :: t) (Py.readlines content) ->
         header_of ("["%char :: t) = Some GLOBAL ->
         (exists exn, read_string (text_read content) = inr exn)
         /\ forall c smap kmap err,
              parse_ini content <> Returned (Some c) smap kmap err)
  /\ rewritten ex_explicit_global = Some (lines ["a=1"; ""; "[S]"; "b=2"])
  /\ rewritten (lines ["[GLOBAL]"; "a=1"]) = Some (lines ["a=1"])
  /\ (exists smap kmap,
         parse_ini ex_global_after_comment
         = Returned None smap kmap (Some (DuplicateSectionError GLOBAL 3))).
Proof.
  split.
  { intros body N.
    assert (T : text_read (L "[GLOBAL]" ++ nl ++ body) = text_read body).
    { destruct (text_read_spec body) as [_ ->]; [|assumption].
      destruct (text_read_spec (L "[GLOBAL]" ++ nl ++ body)) as [-> _];
        [reflexivity | apply leading_header_GLOBAL]. }
    split; [assumption|]. intros c.
    destruct (parse_ini_read (L "[GLOBAL]" ++ nl ++ body)) as [s1 [k1 ->]].
    destruct (parse_ini_read body) as [s2 [k2 ->]].
    rewrite T. destruct (read_string (text_read body)) as [c0|[]].
    - split; intros [sm [km [= <- _ _]]]; eexists; eexists; reflexivity.
    - split; intros [sm [km [=]]].
    - split; intros [sm [km [=]]].
    - split; intros [sm [km [=]]].
    - split; intros [sm [km [=]]]. }
  split.
  { intros content c smap kmap err t P I H. apply parse_ini_store in P.
    apply text_read_lines in I.
    now apply (read_string_header (text_read content) c t GLOBAL). }
  split.
  { intros content c smap kmap err _ G. rewrite write_ini_shape, G.
    split; [reflexivity | apply explicit_sections_no_GLOBAL]. }
  split.
  { intros content t N I H.
    destruct (read_string_late_global content t N I H) as [exn E].
    split; [now exists exn|]. intros c smap kmap err P.
    apply parse_ini_store in P. congruence. }
  split; [vm_compute; reflexivity|].
  split; [vm_compute; reflexivity|].
  eexists. eexists. vm_compute. reflexivity.
Qed.

(** C9, as stated, fails: this text declares a section headed [GLOBAL] after
    a first entry; [parse_ini] refuses the header as a repetition of the
    synthetic one, no store results and nothing is written. *)
Lemma C9_counterexample :
  In (L "[GLOBAL]" ++ nl) (Py.readlines ex_late_global)
  /\ header_of (L "[GLOBAL]" ++ nl) = Some GLOBAL
  /\ parse_ini ex_late_global
     = Returned None [(L "global", L "GLOBAL")]
                [(L "global", [(L "a", L "a"); (L "b", L "b")])]
                (Some (DuplicateSectionError GLOBAL 3))
  /\ rewritten ex_late_global = None.
Proof.
  split; [vm_compute; tauto|]. repeat split; vm_compute; reflexivity.
Qed.

(** C4, as stated, fails.  The section Demo.fx has no key Strength, and the
    value handed to the widget is the 9 of the DEFAULT section, not the
    declaration's default 4; and when the section is not in the store at all
    no value is handed over, the default included. *)
Lemma C4_counterexample :
  (ConfigParser.contains ex_inherited (L "Demo.fx") = true
   /\ stored ex_inherited (L "Demo.fx") (L "Strength") = None
   /\ set_widgets_from_ini ex_float_of_str ex_inherited (L "Demo.fx")
        [ex_uniform "Strength" "4"] ex_widgets
      = [(L "Strength", setValue 9%Z)])
  /\ (ConfigParser.contains ex_store (L "Other.fx") = false
      /\ set_widgets_from_ini ex_float_of_str ex_store (L "Other.fx")
           [ex_uniform "Strength" "4"] ex_widgets = []).
Proof. repeat split. Qed.

(** C5, as stated, fails for the empty section name: [RawConfigParser.set]
    files a value for the section without a name under the DEFAULT section.
    The declaration Strength has a widget, its value is not written into the
    target section, and the DEFAULT section, which is another section and had
    no key Strength, has it afterwards. *)
Lemma C5_counterexample :
  let config' := update_ini_from_widgets ex_str_of_float ex_store []
                   [ex_uniform "Strength" "4"] ex_widgets in
  Dict.get (name (ex_uniform "Strength" "4")) ex_widgets = Some (QDoubleSpinBox 5%Z)
  /\ ConfigParser.contains config' [] = true
  /\ stored config' [] (L "Strength") = None
  /\ stored ex_store ConfigParser.DEFAULTSECT (L "Strength") = None
  /\ stored config' ConfigParser.DEFAULTSECT (L "Strength") = Some (L "5").
Proof. vm_compute. repeat split. Qed.

(* ================================================================= *)
(** ** Reading back what was written *)

(** *** The two patterns of the reader on written lines *)

Section RepMore.
Context {A : Type}.
Implicit Types (k : option ascii -> str -> option A) (p : ascii -> bool).

Lemma rep_greedy_last p k r : forall xs y prev,
  Forall (fun c => p c = true) xs -> p y = true ->
  (forall pv, k pv [] = None) ->
  (forall pv, k pv [y] = Some r) ->
  Re.rep_greedy p prev (xs ++ [y]) k = Some r.
Proof.
  induction xs as [|x xs IH]; intros y prev F Py K0 K1; simpl.
  - now rewrite Py, K0, K1.
  - inversion F as [|? ? Px F']; subst. rewrite Px.
    now rewrite (IH y (Some x)).
Qed.

Lemma rep_greedy_stuck p k : forall b t prev,
  (exists c, In c b /\ p c = false) ->
  (forall pv c s', In c b -> k pv (c :: s') = None) ->
  Re.rep_greedy p prev (b ++ t) k = None.
Proof.
  induction b as [|c0 b IH]; intros t prev [c [I Pc]] K; [contradiction|].
  simpl. destruct (p c0) eqn:P0.
  - rewrite IH.
    + apply K. now left.
    + destruct I as [->|I]; [congruence|]. now exists c.
    + intros pv c1 s' I1. apply K. now right.
  - apply K. now left.
Qed.

Lemma rep_lazy_first p k r : forall x t prev,
  Forall (fun c => p c = true) x ->
  (forall x1 x2, x = x1 ++ x2 -> x2 <> [] ->
                 k (prev_after prev x1) (x2 ++ t) = None) ->
  k (prev_after prev x) t = Some r ->
  Re.rep_lazy p prev (x ++ t) k = Some r.
Proof.
  induction x as [|c x IH]; intros t prev F N K; rewrite rep_lazy_unfold.
  - simpl in *. unfold prev_after in K. simpl in K. now rewrite K.
  - assert (N0 : k prev (c :: x ++ t) = None).
    { apply (N [] (c :: x)); [reflexivity | discriminate]. }
    simpl app. rewrite N0.
    inversion F as [|? ? Pc F']; subst. rewrite Pc.
    apply IH; [assumption | |].
    + intros x1 x2 -> N2. rewrite prev_after_cons with (prev := prev).
      now apply (N (c :: x1) x2).
    + now rewrite prev_after_cons with (prev := prev).
Qed.

End RepMore.

Lemma forall_dot (s : str) :
  Forall (fun c => c <> Py.LF) s -> Forall (fun c => Re.dot c = true) s.
Proof. apply Forall_impl. intros a. apply dot_spec. Qed.

(** A written header line is read as the header of the same section. *)
Lemma sectcre_header name :
  name <> [] -> Forall (fun c => c <> Py.LF) name ->
  Re.match_ SECTCRE ("["%char :: name ++ ["]"%char]) = Some ([name], []).
Proof.
  intros N F. apply forall_dot in F.
  destruct name as [|c name]; [congruence|].
  inversion F as [|? ? Dc F']; subst.
  unfold Re.match_, Re.match_at, SECTCRE, Re.seq.
  cbn [fold_right Re.run Re.rep]. cbn [Ascii.eqb Bool.eqb].
  cbn [app]. rewrite Dc.
  apply rep_greedy_last; try assumption; try reflexivity.
  intros pv. cbn -[Re.consumed].
  change (c :: name ++ ["]"%char]) with ((c :: name) ++ ["]"%char]).
  now rewrite consumed_app.
Qed.

Lemma one_line_spec s : one_line s = true -> Forall (fun c => c <> Py.LF) s.
Proof.
  unfold one_line. rewrite forallb_forall, Forall_forall.
  intros H x I. apply H in I. rewrite negb_true_iff in I. now apply Ascii.eqb_neq.
Qed.

Lemma last_In (x : str) d : x <> [] -> In (last x d) x.
Proof.
  induction x as [|a x IH]; [congruence|]. intros _.
  destruct x as [|b x]; [now left|]. right. apply IH. discriminate.
Qed.

Lemma last_app_nonempty (x1 x2 : str) d : x2 <> [] -> last (x1 ++ x2) d = last x2 d.
Proof.
  intros N. induction x1 as [|a x1 IH]; [reflexivity|].
  simpl app. destruct (x1 ++ x2) eqn:E.
  - apply app_eq_nil in E. destruct E; congruence.
  - rewrite <- IH. reflexivity.
Qed.

Lemma last_indep (x : str) d d' : x <> [] -> last x d = last x d'.
Proof.
  induction x as [|a x IH]; [congruence|]. intros _.
  destruct x as [|b x]; [reflexivity|]. simpl in *. apply IH. discriminate.
Qed.

Lemma rep_greedy_all {A} p (k : option ascii -> str -> option A) r v prev :
  Forall (fun c => p c = true) v ->
  k (prev_after prev v) [] = Some r ->
  Re.rep_greedy p prev v k = Some r.
Proof.
  intros F K. rewrite <- (app_nil_r v) at 1. now apply rep_greedy_full.
Qed.

Lemma rep_greedy_none_taken {A} p (k : option ascii -> str -> option A) r t prev :
  match t with [] => True | c :: _ => p c = false end ->
  k prev t = Some r ->
  Re.rep_greedy p prev t k = Some r.
Proof.
  intros T K. now apply (rep_greedy_full p k r [] t prev).
Qed.

(** An entry line is read as the same key and value. *)
Lemma optcre_item k v :
  plain_key k = true -> plain_value v = true ->
  Re.match_ OPTCRE (k ++ "="%char :: v) = Some ([k; ["="%char]; v], []).
Proof.
  unfold plain_key, plain_value. rewrite !andb_true_iff.
  intros [[[K0 Ks] Kl] Kd] [Vs Vl].
  apply one_line_spec, forall_dot in Kl. apply one_line_spec, forall_dot in Vl.
  rewrite forallb_forall in Kd.
  destruct k as [|c0 k0]; [discriminate|].
  unfold stripped in Ks. rewrite andb_true_iff, !negb_true_iff in Ks.
  destruct Ks as [_ Klast]. set (k := c0 :: k0) in *.
  unfold Re.match_, Re.match_at, OPTCRE, Re.seq.
  cbn [fold_right Re.run Re.rep].
  apply rep_lazy_first; [assumption | |].
  - intros x1 x2 E N2. apply rep_greedy_stuck.
    + exists (last x2 c0). split; [now apply last_In|].
      rewrite <- (last_app_nonempty x1 x2) by assumption. now rewrite <- E.
    + intros pv c s' I. cbn [Re.run].
      assert (Ic : In c k) by (rewrite E; apply in_or_app; now right).
      apply Kd in Ic. rewrite negb_true_iff in Ic. now rewrite Ic.
  - cbn -[Re.consumed Re.rep_greedy Py.isspace].
    apply rep_greedy_none_taken; [reflexivity|].
    cbn -[Re.consumed Re.rep_greedy Py.isspace].
    apply rep_greedy_none_taken.
    { destruct v as [|c v']; [exact I|].
      unfold stripped in Vs. rewrite andb_true_iff, !negb_true_iff in Vs.
      apply Vs. }
    apply rep_greedy_all; [assumption|].
    cbn -[Re.consumed].
    change (c0 :: k0 ++ "="%char :: v) with (k ++ "="%char :: v).
    rewrite (consumed_app k ("="%char :: v)).
    change ("="%char :: v) with (["="%char] ++ v).
    rewrite (consumed_app ["="%char] v).
    rewrite <- (app_nil_r v) at 1. rewrite (consumed_app v []).
    reflexivity.
Qed.

(** *** Dictionaries, continued *)

Section DictMore.
Context {V W : Type}.
Implicit Types (d : Dict.t V) (k : str) (v : V) (f : V -> W).

Lemma get_map_values f d k :
  Dict.get k (map (fun kv => (fst kv, f (snd kv))) d) = option_map f (Dict.get k d).
Proof.
  induction d as [|[k0 v0] d IH]; simpl; [reflexivity|].
  now destruct (Py.str_eqb k k0).
Qed.

Lemma set_map_values f d k v :
  map (fun kv => (fst kv, f (snd kv))) (Dict.set k v d)
  = Dict.set k (f v) (map (fun kv => (fst kv, f (snd kv))) d).
Proof.
  induction d as [|[k0 v0] d IH]; simpl; [reflexivity|].
  destruct (Py.str_eqb k k0); simpl; [reflexivity | now rewrite IH].
Qed.

Lemma keys_map_values f d :
  Dict.keys (map (fun kv => (fst kv, f (snd kv))) d) = Dict.keys d.
Proof. unfold Dict.keys. rewrite map_map. reflexivity. Qed.

Lemma set_fresh d k v : ~ In k (Dict.keys d) -> Dict.set k v d = d ++ [(k, v)].
Proof.
  unfold Dict.keys. induction d as [|[k0 v0] d IH]; simpl; intros N; [reflexivity|].
  str_cases k k0; [subst; tauto|]. rewrite IH; tauto.
Qed.

Lemma set_last d k v v0 :
  ~ In k (Dict.keys d) -> Dict.set k v (d ++ [(k, v0)]) = d ++ [(k, v)].
Proof.
  unfold Dict.keys. induction d as [|[k0 w0] d IH]; simpl; intros N.
  - now rewrite str_eqb_refl.
  - str_cases k k0; [subst; tauto|]. rewrite IH; tauto.
Qed.

Lemma get_last d k v : ~ In k (Dict.keys d) -> Dict.get k (d ++ [(k, v)]) = Some v.
Proof.
  intros N. rewrite get_app. apply get_None_keys in N. rewrite N. simpl.
  now rewrite str_eqb_refl.
Qed.

Lemma set_same d k v : Dict.get k d = Some v -> Dict.set k v d = d.
Proof.
  induction d as [|[k0 v0] d IH]; simpl; [discriminate|].
  str_cases k k0.
  - now intros [= ->].
  - intros H. now rewrite IH.
Qed.

Lemma keys_app d1 d2 : Dict.keys (d1 ++ d2) = Dict.keys d1 ++ Dict.keys d2.
Proof. unfold Dict.keys. apply map_app. Qed.

End DictMore.

(** *** Stripping written lines *)

Lemma lstrip_snoc a c :
  Py.lstrip (a ++ [c]) =
  match Py.lstrip a with
  | [] => if Py.isspace c then [] else [c]
  | r => r ++ [c]
  end.
Proof.
  induction a as [|x a IH]; simpl; [reflexivity|].
  destruct (Py.isspace x); [assumption | reflexivity].
Qed.

Lemma rstrip_cons c l :
  Py.rstrip (c :: l) =
  match Py.rstrip l with
  | [] => if Py.isspace c then [] else [c]
  | r => c :: r
  end.
Proof.
  unfold Py.rstrip. simpl rev. rewrite lstrip_snoc.
  destruct (Py.lstrip (rev l)) as [|x r]; simpl.
  - now destruct (Py.isspace c).
  - rewrite rev_app_distr. simpl. destruct (rev r ++ [x]) eqn:E; [|reflexivity].
    apply app_eq_nil in E. destruct E; discriminate.
Qed.

Lemma rstrip_id s d :
  s = [] \/ Py.isspace (last s d) = false -> Py.rstrip s = s.
Proof.
  induction s as [|c l IH]; intros H; [reflexivity|].
  destruct H as [H|H]; [discriminate|].
  rewrite rstrip_cons. destruct l as [|b l].
  - simpl in *. now rewrite H.
  - rewrite IH by (right; exact H). reflexivity.
Qed.

Lemma rstrip_app_keep a y :
  Py.rstrip y <> [] -> Py.rstrip (a ++ y) = a ++ Py.rstrip y.
Proof.
  intros N. induction a as [|c a IH]; [reflexivity|].
  simpl app. rewrite rstrip_cons, IH.
  destruct (a ++ Py.rstrip y) eqn:E; [|reflexivity].
  apply app_eq_nil in E. destruct E; contradiction.
Qed.

Lemma stripped_rstrip s : stripped s = true -> Py.rstrip s = s.
Proof.
  destruct s as [|c l]; [reflexivity|]. unfold stripped.
  rewrite andb_true_iff, !negb_true_iff. intros [_ H].
  apply rstrip_id with (d := c). now right.
Qed.

Lemma stripped_strip s : stripped s = true -> Py.strip s = s.
Proof.
  intros H. unfold Py.strip.
  assert (Ls : Py.lstrip s = s).
  { destruct s as [|c l]; [reflexivity|]. unfold stripped in H.
    rewrite andb_true_iff, !negb_true_iff in H. simpl. now rewrite (proj1 H). }
  rewrite Ls. now apply stripped_rstrip.
Qed.

Lemma rstrip_line c x :
  Py.isspace c = false -> Py.rstrip (x ++ [c]) = x ++ [c].
Proof.
  intros N. apply rstrip_id with (d := c). right.
  rewrite last_app_nonempty by discriminate. exact N.
Qed.

(** The stripped text of a written entry line. *)
Lemma strip_item_line k v :
  plain_key k = true -> plain_value v = true ->
  exists c0 t,
    k ++ "="%char :: v ++ [Py.LF] = c0 :: t /\
    Py.isspace c0 = false /\ c0 <> "#"%char /\ c0 <> ";"%char /\ c0 <> "["%char /\
    c0 :: Py.rstrip t = k ++ "="%char :: v.
Proof.
  unfold plain_key, plain_value. rewrite !andb_true_iff.
  intros [[[K0 Ks] _] _] [Vs _].
  destruct k as [|c0 k0]; [discriminate|].
  exists c0, (k0 ++ "="%char :: v ++ [Py.LF]).
  unfold stripped in Ks. rewrite andb_true_iff, !negb_true_iff in Ks.
  rewrite negb_true_iff in K0. unfold Re.one_of, Py.contains in K0.
  cbn [L list_ascii_of_string existsb] in K0. rewrite !orb_false_iff in K0.
  destruct K0 as [E1 [E2 [E3 _]]].
  rewrite Ascii.eqb_neq in E1, E2, E3.
  repeat split; try tauto.
  simpl app. f_equal.
  change (k0 ++ "="%char :: v ++ [Py.LF]) with (k0 ++ ("="%char :: v) ++ [Py.LF]).
  rewrite app_assoc, rstrip_nl.
  rewrite rstrip_app_keep.
  - rewrite rstrip_cons_nonspace by reflexivity. now rewrite stripped_rstrip.
  - rewrite rstrip_cons_nonspace by reflexivity. discriminate.
Qed.

Lemma strip_header_line s :
  Py.rstrip (s ++ "]"%char :: [Py.LF]) = s ++ ["]"%char].
Proof.
  change (s ++ "]"%char :: [Py.LF]) with (s ++ ["]"%char] ++ nl).
  rewrite app_assoc, rstrip_nl. now apply rstrip_line.
Qed.

(** *** Steps of the reader on written lines *)

Lemma view_with_cur_dict st s d :
  cursect st = InSection s ->
  view (with_cur_dict st d) = Dict.set s (join_values d) (view st).
Proof.
  intros H. unfold with_cur_dict. rewrite H. unfold view, finish. simpl.
  apply set_map_values.
Qed.

Lemma get_view st s :
  Dict.get s (view st) = option_map join_values (Dict.get s (r_sections st)).
Proof. unfold view, finish. simpl. apply get_map_values. Qed.

Lemma keys_view st : Dict.keys (view st) = Dict.keys (r_sections st).
Proof. unfold view, finish. simpl. apply keys_map_values. Qed.

Lemma cur_dict_view st s d :
  cursect st = InSection s -> Dict.get s (view st) = Some d ->
  join_values (cur_dict st) = d.
Proof.
  intros H G. unfold cur_dict. rewrite H. rewrite get_view in G.
  unfold Dict.get_default. destruct (Dict.get s (r_sections st)); [|discriminate].
  now injection G.
Qed.

Lemma join_values_set d k vs :
  join_values (Dict.set k vs d)
  = Dict.set k (Py.rstrip (Py.join nl vs)) (join_values d).
Proof.
  unfold join_values.
  apply (set_map_values (fun vs => Py.rstrip (Py.join nl vs))).
Qed.

Lemma get_join_values d k :
  Dict.get k (join_values d)
  = option_map (fun vs => Py.rstrip (Py.join nl vs)) (Dict.get k d).
Proof.
  unfold join_values.
  apply (get_map_values (fun vs => Py.rstrip (Py.join nl vs))).
Qed.

Lemma with_cur_dict_other st s d :
  cursect st = InSection s ->
  r_defaults (with_cur_dict st d) = r_defaults st /\
  e (with_cur_dict st d) = e st /\
  indent_level (with_cur_dict st d) = indent_level st /\
  added_options (with_cur_dict st d) = added_options st /\
  cursect (with_cur_dict st d) = cursect st /\
  sectname (with_cur_dict st d) = sectname st.
Proof. intros H. unfold with_cur_dict. rewrite H. simpl. repeat split. Qed.

Lemma join_cons (sep a : str) (l : list str) :
  l <> [] -> Py.join sep (a :: l) = a ++ sep ++ Py.join sep l.
Proof. destruct l; [congruence | reflexivity]. Qed.

Lemma join_snoc_empty (l : list str) :
  Py.rstrip (Py.join nl (l ++ [[]])) = Py.rstrip (Py.join nl l).
Proof.
  assert (J : forall l : list str,
             Py.join nl (l ++ [[]]) = match l with [] => [] | _ => Py.join nl l ++ nl end).
  { induction l0 as [|a l0 IH]; [reflexivity|].
    change ((a :: l0) ++ [[]]) with (a :: (l0 ++ [[]])).
    rewrite join_cons by (intros E; apply app_eq_nil in E; destruct E; discriminate).
    rewrite IH. destruct l0 as [|b0 l0].
    + cbn [Py.join]. now rewrite app_nil_r.
    + rewrite (join_cons nl a (b0 :: l0)) by discriminate.
      now rewrite <- !app_assoc. }
  rewrite J. destruct l; [reflexivity|]. apply rstrip_nl.
Qed.

Lemma NoDup_last_get {V} (done' : Dict.t V) s d :
  NoDup (Dict.keys (done' ++ [(s, d)])) ->
  ~ In s (Dict.keys done') /\ Dict.get s (done' ++ [(s, d)]) = Some d.
Proof.
  rewrite keys_app. intros N.
  assert (X : ~ In s (Dict.keys done')).
  { intros I. apply NoDup_remove_2 in N. apply N. rewrite app_nil_r. exact I. }
  split; [assumption | now apply get_last].
Qed.

(** An empty line changes nothing in the sections read. *)
Lemma reading_blank st done n :
  reading st done -> NoDup (Dict.keys done) ->
  exists st', read_line st n [Py.LF] = inl st' /\ reading st' done.
Proof.
  intros R N. unfold read_line.
  change (is_comment [Py.LF]) with false. cbv iota.
  change (Py.strip [Py.LF]) with (@nil ascii). cbv iota.
  destruct (in_option st) as [o|] eqn:O; [|now exists st].
  eexists. split; [reflexivity|].
  unfold append_value. destruct (Dict.get o (cur_dict st)) as [l|] eqn:G; [|assumption].
  destruct R as [Rv Rd Re Ri Ro Rc].
  destruct Rc as [[_ C]|[done' [s [d [E [C Sn]]]]]].
  { unfold in_option in O. rewrite C in O. discriminate. }
  rewrite E in *. clear E done.
  destruct (NoDup_last_get _ _ _ N) as [Ns Gs]. rewrite <- Rv in Gs.
  pose proof (cur_dict_view st s d C Gs) as Jc.
  destruct (with_cur_dict_other st s (Dict.set o (l ++ [[]]) (cur_dict st)) C)
    as [F1 [F2 [F3 [F4 [F5 F6]]]]].
  constructor; try congruence.
  - rewrite (view_with_cur_dict st s _ C), join_values_set, join_snoc_empty.
    rewrite (set_same (join_values (cur_dict st))).
    + rewrite Jc. rewrite set_same; assumption.
    + rewrite get_join_values, G. reflexivity.
  - now rewrite F4.
  - right. exists done', s, d. repeat split; congruence.
Qed.

Lemma plain_name_spec s :
  plain_name s = true ->
  s <> [] /\ Forall (fun c => c <> Py.LF) s /\ Py.str_eqb s DEFAULTSECT = false.
Proof.
  unfold plain_name. rewrite !andb_true_iff, negb_true_iff.
  intros [[A B] C]. repeat split; [|now apply one_line_spec|assumption].
  now destruct s.
Qed.

(** A written header opens a new, empty section. *)
Lemma reading_header st done n s :
  reading st done -> plain_name s = true -> ~ In s (Dict.keys done) ->
  exists st', read_line st n (header_line s ++ [Py.LF]) = inl st' /\
              reading st' (done ++ [(s, [])]).
Proof.
  intros R P N. apply plain_name_spec in P. destruct P as [Ne [Fl Nd]].
  unfold header_line. simpl app.
  rewrite read_line_col0 by (try reflexivity; discriminate).
  replace ((s ++ ["]"%char]) ++ [Py.LF]) with (s ++ "]"%char :: [Py.LF])
    by now rewrite <- app_assoc.
  rewrite strip_header_line.
  unfold header_or_option. rewrite sectcre_header by assumption. cbn [nth].
  destruct R as [Rv Rd Re Ri Ro Rc].
  assert (M : Dict.mem s (r_sections (set_indent st 0)) = false).
  { simpl. destruct (Dict.mem s (r_sections st)) eqn:M; [|reflexivity].
    apply mem_keys in M. rewrite <- keys_view, Rv in M. contradiction. }
  unfold enter_section. rewrite M, Nd.
  eexists. split; [reflexivity|].
  constructor; simpl; try assumption; try reflexivity.
  - unfold view, finish. simpl. rewrite set_map_values.
    change (map (fun sd => (fst sd, join_values (snd sd))) (r_sections st)) with (view st).
    rewrite Rv. now apply set_fresh.
  - intros a k I. destruct (Ro a k I) as [d [G Ik]]. exists d. split; [|assumption].
    rewrite get_app, G. reflexivity.
  - right. exists done, s, []. repeat split.
Qed.

Lemma reading_cursor st done' s d :
  reading st (done' ++ [(s, d)]) ->
  cursect st = InSection s /\ sectname st = Some s.
Proof.
  intros [_ _ _ _ _ [[E _]|[d1 [s1 [d2 [E [C Sn]]]]]]].
  - apply app_eq_nil in E. destruct E; discriminate.
  - apply app_inj_tail in E. destruct E as [_ [= <- _]]. now split.
Qed.

Lemma pair_eqb_spec a b : pair_eqb a b = true <-> a = b.
Proof.
  unfold pair_eqb. rewrite andb_true_iff, !str_eqb_eq.
  destruct a, b; simpl. split; [intros [-> ->]; reflexivity | intros [= -> ->]; auto].
Qed.

Lemma enter_option_new st n line o v s :
  o <> [] -> sectname st = Some s ->
  existsb (pair_eqb (s, Py.rstrip o)) (added_options st) = false ->
  enter_option st n line o v =
  let st2 := with_cur_dict st (Dict.set (Py.rstrip o) [Py.strip v] (cur_dict st)) in
  inl {| r_sections := r_sections st2; r_defaults := r_defaults st2;
         added_sections := added_sections st2;
         added_options := added_options st2 ++ [(s, Py.rstrip o)];
         cursect := cursect st2; sectname := sectname st2;
         optname := Some (Py.rstrip o); indent_level := indent_level st2;
         e := e st2 |}.
Proof.
  intros No Sn X. unfold enter_option. destruct o as [|c o]; [congruence|].
  rewrite Sn, X. reflexivity.
Qed.

(** A written entry is added to the current section. *)
Lemma reading_item st done' s d n k v :
  reading st (done' ++ [(s, d)]) ->
  NoDup (Dict.keys (done' ++ [(s, d)])) ->
  plain_key k = true -> plain_value v = true -> ~ In k (Dict.keys d) ->
  exists st', read_line st n (item_line (k, v) ++ [Py.LF]) = inl st' /\
              reading st' (done' ++ [(s, d ++ [(k, v)])]).
Proof.
  intros R N Pk Pv Nk.
  destruct (strip_item_line k v Pk Pv) as [c0 [t [El [Sp [N1 [N2 [N3 Es]]]]]]].
  destruct (reading_cursor _ _ _ _ R) as [C Sn].
  destruct (NoDup_last_get _ _ _ N) as [Ns Gs].
  unfold item_line. cbn [fst snd].
  replace ((k ++ "="%char :: v) ++ [Py.LF]) with (k ++ "="%char :: v ++ [Py.LF])
    by (rewrite <- app_assoc; reflexivity).
  rewrite El, read_line_col0 by assumption.
  unfold header_or_option. rewrite sectcre_not_bracket by assumption.
  rewrite Es, optcre_item by assumption. cbn [nth].
  change (cursect (set_indent st 0)) with (cursect st). rewrite C.
  assert (Kne : k <> []) by (destruct k; [discriminate | congruence]).
  assert (Ks : stripped k = true).
  { unfold plain_key in Pk. rewrite !andb_true_iff in Pk. tauto. }
  assert (Vs : stripped v = true).
  { unfold plain_value in Pv. rewrite !andb_true_iff in Pv. tauto. }
  destruct R as [Rv Rd Re Ri Ro Rc].
  assert (X : existsb (pair_eqb (s, k)) (added_options st) = false).
  { destruct (existsb _ _) eqn:X; [|reflexivity]. exfalso.
    apply existsb_exists in X. destruct X as [[a k0] [I E]].
    apply pair_eqb_spec in E. injection E as <- <-.
    destruct (Ro s k I) as [d0 [G I0]]. rewrite Gs in G. injection G as <-.
    contradiction. }
  rewrite (enter_option_new _ _ _ _ _ s Kne);
    [|exact Sn | rewrite (stripped_rstrip k Ks); exact X].
  rewrite (stripped_rstrip k Ks), (stripped_strip v Vs). cbv zeta.
  eexists. split; [reflexivity|].
  assert (C0 : cursect (set_indent st 0) = InSection s) by exact C.
  destruct (with_cur_dict_other (set_indent st 0) s
              (Dict.set k [v] (cur_dict (set_indent st 0))) C0)
    as [F1 [F2 [F3 [F4 [F5 F6]]]]].
  constructor; cbn [r_sections r_defaults e indent_level added_options cursect
                    sectname optname].
  - unfold view, finish. cbn [_sections r_sections].
    change (map (fun sd => (fst sd, join_values (snd sd)))
                (r_sections (with_cur_dict (set_indent st 0)
                               (Dict.set k [v] (cur_dict (set_indent st 0))))))
      with (view (with_cur_dict (set_indent st 0)
                                (Dict.set k [v] (cur_dict (set_indent st 0))))).
    rewrite (view_with_cur_dict _ s _ C0), join_values_set.
    change (view (set_indent st 0)) with (view st).
    change (cur_dict (set_indent st 0)) with (cur_dict st).
    rewrite <- Rv in Gs. rewrite (cur_dict_view st s d C Gs).
    cbn [Py.join]. rewrite (stripped_rstrip v Vs).
    rewrite Rv, set_last by assumption. now rewrite set_fresh.
  - rewrite F1. exact Rd.
  - rewrite F2. exact Re.
  - rewrite F3. reflexivity.
  - intros a k0 I. rewrite F4 in I. apply in_app_or in I. destruct I as [I|[[= <- <-]|[]]].
    + destruct (Ro a k0 I) as [d0 [G I0]].
      destruct (list_eq_dec ascii_dec a s) as [->|Na].
      * rewrite Gs in G. injection G as <-.
        exists (d ++ [(k, v)]). split; [now apply get_last|].
        rewrite keys_app. apply in_or_app. now left.
      * exists d0. split; [|assumption].
        rewrite get_app in G |- *. destruct (Dict.get a done'); [assumption|].
        simpl in G |- *. apply str_eqb_neq in Na. rewrite Na in *. discriminate.
    + exists (d ++ [(k, v)]). split; [now apply get_last|].
      rewrite keys_app. apply in_or_app. right. now left.
  - right. exists done', s, (d ++ [(k, v)]). rewrite F5, F6. repeat split; assumption.
Qed.

(** *** Loops of the reader on written blocks *)

Lemma read_lines_app : forall l1 l2 st n,
  read_lines st n (l1 ++ l2) =
  match read_lines st n l1 with
  | inl st1 => read_lines st1 (n + List.length l1) l2
  | inr err => inr err
  end.
Proof.
  induction l1 as [|a l1 IH]; intros l2 st n; simpl.
  - now rewrite Nat.add_0_r.
  - destruct (read_line st n a); [|reflexivity].
    rewrite IH. now rewrite Nat.add_succ_r.
Qed.

Lemma keys_snoc {V} (d : Dict.t V) s x : Dict.keys (d ++ [(s, x)]) = Dict.keys d ++ [s].
Proof. now rewrite keys_app. Qed.

Lemma reading_items : forall d2 st n done' s d1,
  reading st (done' ++ [(s, d1)]) ->
  NoDup (Dict.keys done' ++ [s]) ->
  Forall (fun kv => plain_key (fst kv) = true /\ plain_value (snd kv) = true) d2 ->
  NoDup (Dict.keys (d1 ++ d2)) ->
  exists st', read_lines st n (terminated (map item_line d2)) = inl st' /\
              reading st' (done' ++ [(s, d1 ++ d2)]).
Proof.
  induction d2 as [|[k v] d2 IH]; intros st n done' s d1 R N F Nk.
  - exists st. rewrite app_nil_r. now split.
  - inversion F as [|? ? [Pk Pv] F']; subst. simpl in Pk, Pv.
    assert (Nk1 : ~ In k (Dict.keys d1)).
    { rewrite keys_app in Nk. simpl in Nk. apply NoDup_remove_2 in Nk.
      intros I. apply Nk. apply in_or_app. now left. }
    destruct (reading_item st done' s d1 n k v R) as [st1 [E1 R1]]; try assumption.
    { now rewrite keys_snoc. }
    destruct (IH st1 (S n) done' s (d1 ++ [(k, v)]) R1 N F') as [st2 [E2 R2]].
    { now rewrite <- app_assoc. }
    exists st2. cbn [map terminated read_lines]. unfold terminated in E2.
    rewrite E1. split; [exact E2|]. now rewrite <- app_assoc in R2.
Qed.

Lemma nodupb_spec l : nodupb l = true -> NoDup l.
Proof.
  induction l as [|a l IH]; simpl; [constructor|].
  rewrite andb_true_iff, negb_true_iff. intros [M H].
  constructor; [|now apply IH]. intros I. apply mem_str_In in I. congruence.
Qed.

Lemma plain_entries_spec d :
  plain_entries d = true ->
  Forall (fun kv => plain_key (fst kv) = true /\ plain_value (snd kv) = true) d /\
  NoDup (Dict.keys d).
Proof.
  unfold plain_entries. rewrite andb_true_iff, forallb_forall, Forall_forall.
  intros [F N]. split; [|now apply nodupb_spec].
  intros kv I. apply F in I. now apply andb_true_iff in I.
Qed.

(** A written block is read back as its section. *)
Lemma reading_block st n done s d sep :
  reading st done -> NoDup (Dict.keys done ++ [s]) ->
  plain_name s = true -> plain_entries d = true ->
  exists st', read_lines st n (terminated (block_lines sep (s, d))) = inl st' /\
              reading st' (done ++ [(s, d)]).
Proof.
  intros R N Ps Pd. apply plain_entries_spec in Pd. destruct Pd as [F Nd].
  assert (Nn : NoDup (Dict.keys done)) by (apply NoDup_remove_1 in N; now rewrite app_nil_r in N).
  assert (Ns : ~ In s (Dict.keys done)).
  { apply NoDup_remove_2 in N. now rewrite app_nil_r in N. }
  assert (B : exists st0 n0, read_lines st n (terminated (if sep then [[]] else []))
                             = inl st0 /\ reading st0 done /\
              read_lines st n (terminated (block_lines sep (s, d)))
              = read_lines st0 n0 (terminated (header_line s :: map item_line d))).
  { unfold block_lines, terminated. cbn [fst snd]. rewrite map_app, read_lines_app.
    destruct sep.
    - destruct (reading_blank st done n R Nn) as [st0 [E0 R0]].
      cbn [map app read_lines]. rewrite E0. eexists. eexists.
      split; [reflexivity | split; [exact R0 | reflexivity]].
    - cbn [map read_lines]. eexists. eexists.
      split; [reflexivity | split; [exact R | reflexivity]]. }
  destruct B as [st0 [n0 [_ [R0 ->]]]].
  destruct (reading_header st0 done n0 s R0 Ps Ns) as [st1 [E1 R1]].
  destruct (reading_items d st1 (S n0) done s [] R1 N F Nd) as [st2 [E2 R2]].
  exists st2. cbn [terminated map read_lines]. rewrite E1. now split.
Qed.

Lemma plain_sections_spec sects :
  plain_sections sects = true ->
  Forall (fun sd => plain_name (fst sd) = true /\ plain_entries (snd sd) = true) sects /\
  NoDup (Dict.keys sects).
Proof.
  unfold plain_sections. rewrite andb_true_iff, forallb_forall, Forall_forall.
  intros [F N]. split; [|now apply nodupb_spec].
  intros kv I. apply F in I. now apply andb_true_iff in I.
Qed.

Lemma reading_blocks : forall blocks st n done,
  reading st done -> NoDup (Dict.keys (done ++ blocks)) ->
  Forall (fun sd => plain_name (fst sd) = true /\ plain_entries (snd sd) = true) blocks ->
  exists st', read_lines st n (terminated (flat_map (block_lines true) blocks))
              = inl st' /\
              reading st' (done ++ blocks).
Proof.
  induction blocks as [|[s d] blocks IH]; intros st n done R N F.
  - exists st. rewrite app_nil_r. now split.
  - inversion F as [|? ? [Ps Pd] F']; subst. simpl in Ps, Pd.
    assert (N1 : NoDup (Dict.keys done ++ [s])).
    { rewrite keys_app in N. simpl in N.
      replace (Dict.keys done ++ s :: Dict.keys blocks)
        with ((Dict.keys done ++ [s]) ++ Dict.keys blocks) in N
        by now rewrite <- app_assoc.
      revert N. generalize (Dict.keys done ++ [s]) as l1.
      intros l1. induction (Dict.keys blocks) as [|b bs IHb]; intros N.
      - now rewrite app_nil_r in N.
      - apply IHb. now apply NoDup_remove_1 in N. }
    destruct (reading_block st n done s d true R N1 Ps Pd) as [st1 [E1 R1]].
    destruct (IH st1 (n + List.length (terminated (block_lines true (s, d))))
                 (done ++ [(s, d)]) R1) as [st2 [E2 R2]].
    { now rewrite <- app_assoc. }
    { assumption. }
    exists st2. cbn [flat_map]. unfold terminated at 1.
    rewrite map_app. fold (terminated (block_lines true (s, d))).
    fold (terminated (flat_map (block_lines true) blocks)).
    rewrite read_lines_app, E1. split; [exact E2|]. now rewrite <- app_assoc in R2.
Qed.

(** *** The written text as a list of lines *)

Lemma flatten_app l1 l2 : flatten (l1 ++ l2) = flatten l1 ++ flatten l2.
Proof. apply flat_map_app. Qed.

Lemma readlines_flatten ls :
  Forall (fun l => Forall (fun c => c <> Py.LF) l) ls ->
  Py.readlines (flatten ls) = terminated ls.
Proof.
  induction ls as [|l ls IH]; intros F; [reflexivity|].
  inversion F as [|? ? Fl F']; subst.
  cbn [flatten flat_map]. rewrite <- app_assoc. cbn [app].
  rewrite readlines_line by assumption. fold (flatten ls). now rewrite IH.
Qed.

Lemma write_items_plain km d :
  forallb (fun kv => Py.str_eqb (Dict.get_default (fst kv) (fst kv) km) (fst kv)) d
  = true ->
  write_items km d = flatten (map item_line d).
Proof.
  unfold write_items, flatten. induction d as [|[k v] d IH]; [reflexivity|].
  cbn [forallb flat_map map fst snd]. rewrite andb_true_iff.
  intros [E F]. apply str_eqb_eq in E. rewrite E, IH by assumption.
  unfold item_line, nl. cbn [fst snd]. now rewrite <- !app_assoc.
Qed.

Lemma items_own c s d :
  _defaults c = [] -> Py.str_eqb s DEFAULTSECT = false ->
  Dict.get s (_sections c) = Some d -> items c s = d.
Proof.
  intros D N G. unfold items, Dict.get_default. rewrite N, G, D. apply app_nil_r.
Qed.

Lemma In_get {V} (d : Dict.t V) k v :
  NoDup (Dict.keys d) -> In (k, v) d -> Dict.get k d = Some v.
Proof.
  unfold Dict.keys. induction d as [|[k0 v0] d IH]; simpl; intros N I; [contradiction|].
  inversion N as [|? ? N0 N']; subst. destruct I as [[= -> ->]|I].
  - now rewrite str_eqb_refl.
  - str_cases k k0; [|now apply IH].
    subst. exfalso. apply N0. now apply (in_map fst) in I.
Qed.

Lemma explicit_sections_keys c : explicit_sections c = Dict.keys (explicit_entries c).
Proof.
  unfold explicit_sections, explicit_entries, sections, Dict.keys.
  induction (_sections c) as [|[s d] l IH]; [reflexivity|].
  cbn [map filter fst]. destruct (Py.str_eqb s GLOBAL); cbn [negb map fst]; now rewrite IH.
Qed.

Section WrittenText.

Variable c : ConfigParser.t.
Variables (smap : Dict.t str) (kmap : Dict.t (Dict.t str)).
Hypothesis Hd : _defaults c = [].
Hypothesis Hp : plain_sections (_sections c) = true.
Hypothesis Hc : casing_kept c smap kmap = true.

Lemma section_facts s d :
  In (s, d) (_sections c) ->
  plain_name s = true /\ plain_entries d = true /\ items c s = d /\
  write_items (Dict.get_default (Py.lower s) [] kmap) d = flatten (map item_line d) /\
  (s <> GLOBAL -> Dict.get_default (Py.lower s) s smap = s).
Proof.
  intros I. destruct (plain_sections_spec _ Hp) as [F N].
  rewrite Forall_forall in F. destruct (F _ I) as [Pn Pe]. simpl in Pn, Pe.
  unfold casing_kept in Hc. rewrite forallb_forall in Hc.
  specialize (Hc _ I). simpl in Hc. apply andb_true_iff in Hc. destruct Hc as [Cs Ck].
  repeat split; try assumption.
  - apply items_own; [assumption| |now apply In_get].
    now apply plain_name_spec in Pn.
  - now apply write_items_plain.
  - intros Ng. apply orb_true_iff in Cs. destruct Cs as [Cs|Cs]; apply str_eqb_eq in Cs;
      [contradiction | assumption].
Qed.

Lemma block_text s d :
  In (s, d) (_sections c) -> s <> GLOBAL ->
  block c smap kmap s = flatten (block_lines false (s, d)) /\
  nl ++ block c smap kmap s = flatten (block_lines true (s, d)).
Proof.
  intros I Ng. destruct (section_facts s d I) as [_ [_ [Ei [Ew Es]]]].
  unfold block. rewrite Ei, Ew, (Es Ng).
  unfold block_lines, header_line, flatten, nl. cbn [fst snd app flat_map].
  split; rewrite <- ?app_assoc; reflexivity.
Qed.

Lemma blocks_text : forall l,
  incl l (_sections c) ->
  Forall (fun sd => fst sd <> GLOBAL) l ->
  flat_map (fun s => nl ++ block c smap kmap s) (Dict.keys l)
  = flatten (flat_map (block_lines true) l).
Proof.
  induction l as [|[s d] l IH]; intros I F; [reflexivity|].
  inversion F as [|? ? Ng F']; subst. simpl in Ng.
  cbn [Dict.keys map flat_map fst]. rewrite flatten_app.
  fold (Dict.keys l). rewrite IH; [|intros x Ix; apply I; now right|assumption].
  destruct (block_text s d (I _ (or_introl eq_refl)) Ng) as [_ ->]. reflexivity.
Qed.

Lemma explicit_entries_facts :
  incl (explicit_entries c) (_sections c) /\
  Forall (fun sd => fst sd <> GLOBAL) (explicit_entries c).
Proof.
  unfold explicit_entries. split.
  - intros x I. now apply filter_In in I.
  - apply Forall_forall. intros x I. apply filter_In in I. destruct I as [_ I].
    rewrite negb_true_iff in I. now apply str_eqb_neq.
Qed.

End WrittenText.

(** *** Reading a whole written text *)

Lemma reading_start : reading start [].
Proof.
  constructor; try reflexivity.
  - intros a k [].
  - now left.
Qed.

Lemma forall_one_line_app (a b : str) :
  Forall (fun c => c <> Py.LF) a -> Forall (fun c => c <> Py.LF) b ->
  Forall (fun c => c <> Py.LF) (a ++ b).
Proof. intros Fa Fb. apply Forall_app. now split. Qed.

Lemma plain_key_one_line k : plain_key k = true -> Forall (fun c => c <> Py.LF) k.
Proof.
  unfold plain_key. rewrite !andb_true_iff. intros [[_ H] _]. now apply one_line_spec.
Qed.

Lemma plain_value_one_line v : plain_value v = true -> Forall (fun c => c <> Py.LF) v.
Proof.
  unfold plain_value. rewrite !andb_true_iff. intros [_ H]. now apply one_line_spec.
Qed.

Lemma block_lines_one_line sep s d :
  plain_name s = true -> plain_entries d = true ->
  Forall (fun l => Forall (fun c => c <> Py.LF) l) (block_lines sep (s, d)).
Proof.
  intros Ps Pd. apply plain_name_spec in Ps. destruct Ps as [_ [Fs _]].
  apply plain_entries_spec in Pd. destruct Pd as [Fd _].
  unfold block_lines. cbn [fst snd]. apply Forall_app. split.
  - destruct sep; repeat constructor.
  - constructor.
    + unfold header_line. constructor; [discriminate|].
      apply forall_one_line_app; [assumption | repeat constructor; discriminate].
    + apply Forall_map. eapply Forall_impl; [|exact Fd].
      intros [k v] [Pk Pv]. simpl in *. unfold item_line. cbn [fst snd].
      apply forall_one_line_app; [now apply plain_key_one_line|].
      constructor; [discriminate | now apply plain_value_one_line].
Qed.

Lemma blocks_one_line blocks :
  Forall (fun sd => plain_name (fst sd) = true /\ plain_entries (snd sd) = true) blocks ->
  Forall (fun l => Forall (fun c => c <> Py.LF) l) (flat_map (block_lines true) blocks).
Proof.
  induction blocks as [|[s d] blocks IH]; intros F; [constructor|].
  inversion F as [|? ? [Ps Pd] F']; subst. cbn [flat_map].
  apply Forall_app. split; [now apply block_lines_one_line | now apply IH].
Qed.

Lemma read_string_reading ls done st' :
  Forall (fun l => Forall (fun c => c <> Py.LF) l) ls ->
  read_lines start 1 (terminated ls) = inl st' -> reading st' done ->
  read_string (flatten ls) = inl {| _sections := done; _defaults := [] |}.
Proof.
  intros F E [Rv Rd Re _ _ _]. unfold read_string.
  rewrite readlines_flatten, E, Re by assumption.
  unfold finish. rewrite Rd. f_equal. f_equal. exact Rv.
Qed.

(** The text of blocks that all begin with an empty line. *)
Lemma read_string_separated blocks :
  Forall (fun sd => plain_name (fst sd) = true /\ plain_entries (snd sd) = true) blocks ->
  NoDup (Dict.keys blocks) ->
  read_string (flatten (flat_map (block_lines true) blocks))
  = inl {| _sections := blocks; _defaults := [] |}.
Proof.
  intros F N.
  destruct (reading_blocks blocks start 1 [] reading_start N F) as [st' [E R]].
  eapply read_string_reading; [now apply blocks_one_line | exact E | exact R].
Qed.

(** The text of blocks of which only the first has no empty line before. *)
Lemma read_string_headed b blocks :
  Forall (fun sd => plain_name (fst sd) = true /\ plain_entries (snd sd) = true)
         (b :: blocks) ->
  NoDup (Dict.keys (b :: blocks)) ->
  read_string (flatten (block_lines false b ++ flat_map (block_lines true) blocks))
  = inl {| _sections := b :: blocks; _defaults := [] |}.
Proof.
  intros F N. inversion F as [|? ? [Ps Pd] F']; subst. destruct b as [s d].
  simpl in Ps, Pd.
  assert (N1 : NoDup (Dict.keys (@nil (str * Dict.t str)) ++ [s])).
  { simpl. constructor; [intros [] | constructor]. }
  destruct (reading_block start 1 [] s d false reading_start N1 Ps Pd) as [st1 [E1 R1]].
  destruct (reading_blocks blocks st1
              (1 + List.length (terminated (block_lines false (s, d))))
              ([] ++ [(s, d)]) R1 N F') as [st2 [E2 R2]].
  eapply read_string_reading with (st' := st2).
  - apply Forall_app. split;
      [now apply block_lines_one_line | now apply blocks_one_line].
  - unfold terminated. rewrite map_app.
    fold (terminated (block_lines false (s, d))).
    fold (terminated (flat_map (block_lines true) blocks)).
    rewrite read_lines_app, E1. exact E2.
  - exact R2.
Qed.

(** *** Which written texts begin with a header *)

Lemma leading_header_headed s d more :
  Forall (fun c => c <> Py.LF) s ->
  leading_header (flatten (block_lines false (s, d) ++ more)).
Proof.
  intros F. exists [], s. eexists. split; [|split; [constructor | exact F]].
  unfold block_lines, header_line, flatten. cbn [fst snd app flat_map].
  rewrite <- !app_assoc. reflexivity.
Qed.

Lemma leading_header_separated s d more :
  Forall (fun c => c <> Py.LF) s ->
  leading_header (flatten (block_lines true (s, d) ++ more)).
Proof.
  intros F. exists [Py.LF], s. eexists.
  split; [|split; [repeat constructor | exact F]].
  unfold block_lines, header_line, flatten. cbn [fst snd app flat_map].
  rewrite <- !app_assoc. reflexivity.
Qed.

Lemma not_leading_header_item k v more :
  plain_key k = true ->
  ~ leading_header (flatten (item_line (k, v) :: more)).
Proof.
  intros Pk [ws [body [rest [E [Fw _]]]]].
  unfold plain_key in Pk. rewrite !andb_true_iff in Pk.
  destruct Pk as [[[K0 Ks] _] _].
  destruct k as [|c0 k0]; [discriminate|].
  unfold stripped in Ks. rewrite andb_true_iff, !negb_true_iff in Ks.
  rewrite negb_true_iff in K0. unfold Re.one_of, Py.contains in K0.
  cbn [L list_ascii_of_string existsb] in K0. rewrite !orb_false_iff in K0.
  destruct K0 as [_ [_ [E3 _]]]. rewrite Ascii.eqb_neq in E3.
  unfold flatten, item_line in E. cbn [fst snd flat_map app] in E.
  destruct ws as [|w ws].
  - injection E as E _. congruence.
  - injection E as E _. inversion Fw as [|? ? Sw _]; subst. destruct Ks. congruence.
Qed.

Lemma not_leading_header_nil : ~ leading_header [].
Proof.
  intros [ws [body [rest [E _]]]]. destruct ws; discriminate.
Qed.

(** *** The round trip on stores *)

Lemma get_explicit_entries c s :
  s <> GLOBAL ->
  Dict.get s (explicit_entries c) = Dict.get s (_sections c).
Proof.
  intros N. unfold explicit_entries.
  induction (_sections c) as [|[s0 d0] l IH]; [reflexivity|].
  cbn [filter fst]. str_cases s0 GLOBAL; cbn [negb].
  - subst s0. simpl. apply str_eqb_neq in N. now rewrite N.
  - simpl. destruct (Py.str_eqb s s0); [reflexivity | assumption].
Qed.

Lemma get_GLOBAL_explicit_entries c : Dict.get GLOBAL (explicit_entries c) = None.
Proof.
  apply get_None_keys. rewrite <- explicit_sections_keys.
  apply explicit_sections_no_GLOBAL.
Qed.

Lemma explicit_entries_all c :
  Dict.get GLOBAL (_sections c) = None -> explicit_entries c = _sections c.
Proof.
  unfold explicit_entries. induction (_sections c) as [|[s0 d0] l IH]; [reflexivity|].
  simpl. str_cases GLOBAL s0; [discriminate|]. intros G.
  rewrite str_eqb_sym. apply str_eqb_neq in E. rewrite E. simpl. now rewrite IH.
Qed.

Lemma NoDup_filter_keys {V} (f : str -> bool) (l : Dict.t V) :
  NoDup (Dict.keys l) -> NoDup (Dict.keys (filter (fun sd => f (fst sd)) l)).
Proof.
  unfold Dict.keys. induction l as [|[s d] l IH]; simpl; intros N; [constructor|].
  inversion N as [|? ? N0 N']; subst.
  destruct (f s); simpl; [|now apply IH].
  constructor; [|now apply IH]. intros I. apply N0.
  apply in_map_iff in I. destruct I as [[s' d'] [E I]]. simpl in E. subst s'.
  apply filter_In in I. destruct I as [I _]. now apply (in_map fst) in I.
Qed.

(** A writable store, written and read again, is the store [reread_store]
    describes. *)
Lemma read_back c smap kmap :
  writable c smap kmap = true ->
  read_string (text_read (write_ini c smap kmap)) = inl (reread_store c).
Proof.
  unfold writable. rewrite !andb_true_iff. intros [[Hd Hp] Hc].
  assert (D : _defaults c = []) by (destruct (_defaults c); [reflexivity | discriminate]).
  clear Hd. destruct (plain_sections_spec _ Hp) as [F N].
  destruct (explicit_entries_facts c) as [Ei Eg].
  assert (FE : Forall (fun sd => plain_name (fst sd) = true /\
                                 plain_entries (snd sd) = true) (explicit_entries c)).
  { apply Forall_forall. intros x I. rewrite Forall_forall in F. now apply F, Ei. }
  assert (NE : NoDup (Dict.keys (explicit_entries c))).
  { unfold explicit_entries.
    now apply (NoDup_filter_keys (fun s => negb (Py.str_eqb s GLOBAL))). }
  rewrite write_ini_shape. unfold reread_store. rewrite D.
  unfold has_section, Dict.mem.
  destruct (Dict.get GLOBAL (_sections c)) as [g|] eqn:G.
  - assert (Ig : In (GLOBAL, g) (_sections c)) by now apply get_Some_In.
    destruct (section_facts c smap kmap D Hp Hc GLOBAL g Ig) as [Pn [Pe [Eit [Ew _]]]].
    change (Py.lower GLOBAL) with (L "global") in Ew. rewrite Eit, Ew.
    rewrite explicit_sections_keys, (blocks_text c smap kmap D Hp Hc) by assumption.
    assert (Ng : ~ In GLOBAL (Dict.keys (explicit_entries c))).
    { rewrite <- explicit_sections_keys. apply explicit_sections_no_GLOBAL. }
    destruct g as [|[k v] g].
    + cbn [map flatten flat_map app].
      destruct (explicit_entries c) as [|[s d] E'] eqn:EE.
      * vm_compute. reflexivity.
      * inversion FE as [|? ? [Ps Pd] _]; subst. simpl in Ps.
        rewrite (proj1 (text_read_spec
                          (flatten (flat_map (block_lines true) ((s, d) :: E'))))).
        { now apply read_string_separated. }
        cbn [flat_map]. apply leading_header_separated.
        now apply plain_name_spec in Ps.
    + rewrite (proj2 (text_read_spec
                        (flatten (map item_line ((k, v) :: g))
                           ++ flatten (flat_map (block_lines true) (explicit_entries c))))).
      2:{ rewrite <- flatten_app. cbn [map app]. apply not_leading_header_item.
          apply plain_entries_spec in Pe. destruct Pe as [Pe _].
          inversion Pe as [|? ? [Pk _] _]; subst. exact Pk. }
      rewrite <- flatten_app.
      change (L "[GLOBAL]" ++ nl ++
              flatten (map item_line ((k, v) :: g)
                         ++ flat_map (block_lines true) (explicit_entries c)))
        with (flatten (block_lines false (GLOBAL, (k, v) :: g)
                         ++ flat_map (block_lines true) (explicit_entries c))).
      apply read_string_headed.
      * constructor; [now split | assumption].
      * cbn [Dict.keys map fst]. constructor; assumption.
  - rewrite explicit_sections_keys, (explicit_entries_all c G) in *.
    pose proof (blocks_text c smap kmap D Hp Hc) as BT.
    pose proof (block_text c smap kmap D Hp Hc) as B1.
    clear Hp Hc.
    destruct (_sections c) as [|[s d] rest] eqn:ES.
    + vm_compute. reflexivity.
    + assert (Ns : s <> GLOBAL) by (inversion Eg as [|? ? H _]; exact H).
      destruct (B1 s d (or_introl eq_refl) Ns) as [B _].
      change (Dict.keys ((s, d) :: rest)) with (s :: Dict.keys rest).
      rewrite join_flat_map.
      rewrite BT; [|intros x Ix; now right | now inversion Eg].
      rewrite B, <- flatten_app.
      rewrite (proj1 (text_read_spec _)).
      * now apply read_string_headed.
      * apply leading_header_headed. inversion FE as [|? ? [Ps _] _]; subst.
        now apply plain_name_spec in Ps.
Qed.


Lemma filter_idem {A} (f : A -> bool) l : filter f (filter f l) = filter f l.
Proof.
  induction l as [|a l IH]; [reflexivity|]. simpl.
  destruct (f a) eqn:Fa; simpl; [rewrite Fa; now f_equal | assumption].
Qed.

Lemma stored_reread c s k : stored (reread_store c) s k = stored c s k.
Proof.
  unfold stored, reread_store. cbn [_sections _defaults].
  destruct (Py.str_eqb s DEFAULTSECT); [reflexivity|].
  destruct (list_eq_dec ascii_dec s GLOBAL) as [->|N].
  - pose proof (get_GLOBAL_explicit_entries c) as GE.
    destruct (Dict.get GLOBAL (_sections c)) as [g|] eqn:G.
    + destruct g as [|kv g]; destruct (explicit_entries c) as [|b rest];
        try (cbn [Dict.get fst]; rewrite str_eqb_refl; reflexivity).
      now rewrite GE.
    + destruct (explicit_entries c) as [|b rest]; [|now rewrite GE].
      cbn [Dict.get]. now rewrite str_eqb_refl.
  - pose proof (get_explicit_entries c s N) as GE.
    assert (X : forall g, Dict.get s ((GLOBAL, g) :: explicit_entries c)
                          = Dict.get s (_sections c)).
    { intros g. cbn [Dict.get]. apply str_eqb_neq in N. now rewrite N. }
    destruct (Dict.get GLOBAL (_sections c)) as [g|] eqn:G.
    + destruct g as [|kv g]; [destruct (explicit_entries c) as [|b rest]|].
      * now rewrite X.
      * now rewrite GE.
      * now rewrite X.
    + destruct (explicit_entries c) as [|b rest].
      * rewrite <- GE. cbn [Dict.get]. apply str_eqb_neq in N. now rewrite N.
      * now rewrite GE.
Qed.

Lemma explicit_entries_reread c :
  explicit_entries (reread_store c) = explicit_entries c.
Proof.
  unfold explicit_entries at 1. unfold reread_store. cbn [_sections].
  assert (I : filter (fun sd : str * Dict.t str => negb (Py.str_eqb (fst sd) GLOBAL))
                     (explicit_entries c) = explicit_entries c)
    by apply filter_idem.
  assert (X : forall g,
             filter (fun sd : str * Dict.t str => negb (Py.str_eqb (fst sd) GLOBAL))
                    ((GLOBAL, g) :: explicit_entries c) = explicit_entries c).
  { intros g. cbn [filter fst]. now rewrite str_eqb_refl. }
  destruct (Dict.get GLOBAL (_sections c)) as [g|].
  - destruct g as [|kv g]; [destruct (explicit_entries c) as [|b rest]|].
    + apply X.
    + exact I.
    + apply X.
  - destruct (explicit_entries c) as [|b rest]; [reflexivity | exact I].
Qed.

(* ================================================================= *)
(** ** What every store read by the parser satisfies *)

(** *** Lines and stripping *)

Lemma lstrip_head s c r : Py.lstrip s = c :: r -> Py.isspace c = false.
Proof.
  induction s as [|x s IH]; simpl; [discriminate|].
  destruct (Py.isspace x) eqn:X; [assumption|]. now intros [= <- _].
Qed.

Lemma rstrip_last s c r :
  Py.rstrip s = c :: r -> Py.isspace (last (c :: r) c) = false.
Proof.
  unfold Py.rstrip. intros H.
  destruct (Py.lstrip (rev s)) as [|x z] eqn:Z; [discriminate|].
  apply lstrip_head in Z. simpl in H. rewrite <- H.
  rewrite last_app_nonempty by discriminate. exact Z.
Qed.

Lemma rstrip_incl s : incl (Py.rstrip s) s.
Proof.
  unfold Py.rstrip. intros x I. apply in_rev in I. apply lstrip_incl in I.
  now apply in_rev in I.
Qed.

Lemma rstrip_head_nonspace s c r :
  Py.lstrip s = s -> Py.rstrip s = c :: r -> Py.isspace c = false.
Proof.
  destruct s as [|x s]; [discriminate|]. intros L H.
  assert (X : Py.isspace x = false) by now apply lstrip_head in L.
  rewrite rstrip_cons_nonspace in H by assumption. now injection H as <- _.
Qed.

Lemma lstrip_idem s : Py.lstrip (Py.lstrip s) = Py.lstrip s.
Proof.
  induction s as [|x s IH]; [reflexivity|]. simpl.
  destruct (Py.isspace x) eqn:X; [assumption|]. simpl. now rewrite X.
Qed.

Lemma lstrip_strip s : Py.lstrip (Py.strip s) = Py.strip s.
Proof.
  unfold Py.strip. destruct (Py.rstrip (Py.lstrip s)) as [|c r] eqn:R; [reflexivity|].
  apply rstrip_head_nonspace in R; [|apply lstrip_idem]. simpl. now rewrite R.
Qed.

Lemma strip_head s c r : Py.strip s = c :: r -> Py.isspace c = false.
Proof.
  intros H. pose proof (lstrip_strip s) as L. rewrite H in L.
  now apply lstrip_head in L.
Qed.

Lemma stripped_of_ends (y : str) :
  Py.lstrip y = y -> Py.rstrip y = y -> stripped y = true.
Proof.
  destruct y as [|c r]; [reflexivity|]. intros L R. unfold stripped.
  apply lstrip_head in L. apply rstrip_last in R. now rewrite L, R.
Qed.

Lemma rstrip_idem s : Py.rstrip (Py.rstrip s) = Py.rstrip s.
Proof.
  destruct (Py.rstrip s) as [|c r] eqn:R; [reflexivity|].
  apply rstrip_id with (d := c). right. now apply rstrip_last in R.
Qed.

Lemma forall_one_line (s : str) :
  Forall (fun c => c <> Py.LF) s -> one_line s = true.
Proof.
  unfold one_line. rewrite forallb_forall, Forall_forall. intros H x I.
  apply H in I. rewrite negb_true_iff. now apply Ascii.eqb_neq.
Qed.

Lemma one_line_incl (a b : str) : incl a b -> one_line b = true -> one_line a = true.
Proof.
  unfold one_line. rewrite !forallb_forall. intros I H x Ix. now apply H, I.
Qed.

(** A line handed to the reader has its only line feed at the end. *)
Lemma readlines_aux_one_line : forall s cur,
  Forall (fun c => c <> Py.LF) cur ->
  Forall (fun l => one_line (Py.strip l) = true) (Py.readlines_aux s cur).
Proof.
  assert (W : forall l0 : str, Forall (fun c => c <> Py.LF) l0 ->
                               one_line (Py.strip l0) = true).
  { intros l0 F. apply one_line_incl with (b := l0);
      [apply strip_incl | now apply forall_one_line]. }
  assert (X : forall l0 : str, Forall (fun c => c <> Py.LF) l0 ->
                               one_line (Py.strip (l0 ++ [Py.LF])) = true).
  { intros l0 F. unfold Py.strip. rewrite lstrip_snoc.
    destruct (Py.lstrip l0) as [|c r] eqn:Z.
    - reflexivity.
    - rewrite rstrip_nl. rewrite <- Z. now apply W. }
  induction s as [|c s IH]; intros cur F; simpl.
  - destruct cur; constructor; [|constructor].
    apply W. now apply Forall_rev.
  - destruct (Ascii.eqb c Py.LF) eqn:E.
    + apply Ascii.eqb_eq in E. subst c. constructor; [|apply IH; constructor].
      simpl rev. apply X. now apply Forall_rev.
    + apply IH. constructor; [now apply Ascii.eqb_neq | assumption].
Qed.

Lemma readlines_one_line s :
  Forall (fun l => one_line (Py.strip l) = true) (Py.readlines s).
Proof. apply readlines_aux_one_line. constructor. Qed.

(** *** What the two patterns of the reader capture *)

Section RepMinimal.
Context {A : Type}.
Implicit Types (k : option ascii -> str -> option A) (p : ascii -> bool).

(** A lazy repetition stops at the first position where the rest matches. *)
Lemma rep_lazy_minimal p k : forall s prev res,
  Re.rep_lazy p prev s k = Some res ->
  exists x rest,
    s = x ++ rest /\ Forall (fun c => p c = true) x /\
    k (prev_after prev x) rest = Some res /\
    forall x1 x2, x = x1 ++ x2 -> x2 <> [] ->
                  k (prev_after prev x1) (x2 ++ rest) = None.
Proof.
  induction s as [|c s IH]; intros prev res H; rewrite rep_lazy_unfold in H.
  - destruct (k prev []) eqn:K; [|discriminate]. injection H as <-.
    exists [], []. repeat split; [constructor | assumption |].
    intros x1 x2 E N. symmetry in E. apply app_eq_nil in E. destruct E; contradiction.
  - destruct (k prev (c :: s)) eqn:K.
    + injection H as <-. exists [], (c :: s).
      repeat split; [constructor | assumption |].
      intros x1 x2 E N. symmetry in E. apply app_eq_nil in E. destruct E; contradiction.
    + destruct (p c) eqn:Pc; [|discriminate].
      apply IH in H. destruct H as [x [rest [-> [F [K' M]]]]].
      exists (c :: x), rest. repeat split.
      * now constructor.
      * now rewrite <- prev_after_cons.
      * intros x1 x2 E N. destruct x1 as [|c1 x1].
        -- simpl in E. subst x2. exact K.
        -- injection E as <- E. rewrite <- prev_after_cons. now apply M.
Qed.

Lemma rep_greedy_reaches p k : forall x r prev,
  Forall (fun c => p c = true) x ->
  (forall pv, k pv r <> None) ->
  Re.rep_greedy p prev (x ++ r) k <> None.
Proof.
  induction x as [|c x IH]; intros r prev F K.
  - simpl. destruct r as [|c r]; [apply K|]. simpl.
    destruct (p c); [|apply K].
    destruct (Re.rep_greedy p (Some c) r k); [discriminate | apply K].
  - inversion F as [|? ? Pc F']; subst. simpl. rewrite Pc.
    specialize (IH r (Some c) F' K).
    destruct (Re.rep_greedy p (Some c) (x ++ r) k); [discriminate | contradiction].
Qed.

End RepMinimal.

(** The header the reader takes from a line: not empty, on one line. *)
Lemma sectcre_sound value caps rest :
  Re.match_ SECTCRE value = Some (caps, rest) ->
  nth 0 caps [] <> [] /\ one_line (nth 0 caps []) = true.
Proof.
  intros M. apply match_at_sound in M. destruct M as [x [prev' [-> M]]].
  unfold SECTCRE, Re.seq in M. simpl in M. inv_matches. simpl.
  split; [auto|]. apply forall_one_line.
  match goal with F : Forall (fun c => Re.dot c = true) ?h |- _ =>
    eapply Forall_impl; [|exact F] end.
  intros a. apply dot_spec.
Qed.

(** The option the reader takes from a line is a prefix of the line, free of
    delimiters. *)
Lemma optcre_sound value caps rest :
  Forall (fun c => c <> Py.LF) value ->
  Re.match_ OPTCRE value = Some (caps, rest) ->
  exists tail,
    value = nth 0 caps [] ++ tail /\
    forallb (fun c => negb (Re.one_of "=:" c)) (nth 0 caps []) = true.
Proof.
  intros Fv M. unfold Re.match_, Re.match_at, OPTCRE, Re.seq in M.
  cbn [fold_right Re.run Re.rep] in M.
  apply rep_lazy_minimal in M. destruct M as [x [tail [E [Fx [K Min]]]]].
  assert (C : nth 0 caps [] = x).
  { revert K. cbn [app]. rewrite E, consumed_app.
    intros K. apply rep_greedy_sound in K. destruct K as [w1 [r1 [_ [_ K]]]].
    destruct r1 as [|d r1]; [discriminate|].
    destruct (Re.one_of "=:" d); [|discriminate].
    apply rep_greedy_sound in K. destruct K as [w2 [r2 [_ [_ K]]]].
    apply rep_greedy_sound in K. destruct K as [w3 [r3 [_ [_ K]]]].
    destruct (Re.at_eol r3); [|discriminate]. now injection K as <- _. }
  exists tail. rewrite C. split; [assumption|].
  apply forallb_forall. intros d Id. rewrite negb_true_iff.
  destruct (Re.one_of "=:" d) eqn:Dd; [exfalso | reflexivity].
  apply in_split in Id. destruct Id as [x1 [x2 Ex]].
  specialize (Min x1 (d :: x2) Ex ltac:(discriminate)).
  revert Min. cbn [app Re.run].
  assert (Fd : Forall (fun c => Re.dot c = true) (x2 ++ tail)).
  { apply forall_dot. rewrite E, Ex in Fv. rewrite <- app_assoc in Fv.
    apply Forall_app in Fv. destruct Fv as [_ Fv]. now inversion Fv. }
  change (d :: x2 ++ tail) with ([] ++ d :: x2 ++ tail).
  apply rep_greedy_reaches; [constructor|].
  intros pv. rewrite Dd.
  change (x2 ++ tail) with ([] ++ x2 ++ tail) at 1.
  apply rep_greedy_reaches; [constructor|].
  intros pv'. rewrite <- (app_nil_r (x2 ++ tail)) at 1.
  apply rep_greedy_reaches; [assumption|].
  intros pv''. cbn. discriminate.
Qed.

(** *** The invariant of the reader *)

Lemma keys_set_cases {V} (d : Dict.t V) k v :
  Dict.keys (Dict.set k v d) = if Dict.mem k d then Dict.keys d else Dict.keys d ++ [k].
Proof.
  destruct (Dict.mem k d) eqn:M.
  - unfold Dict.mem in M. destruct (Dict.get k d) as [v0|] eqn:G; [|discriminate].
    clear M. unfold Dict.keys. revert G.
    induction d as [|[k0 w0] d IH]; simpl; [discriminate|].
    str_cases k k0; [reflexivity|]. intros G. simpl. now rewrite IH.
  - assert (N : ~ In k (Dict.keys d)).
    { intros I. apply mem_keys in I. congruence. }
    rewrite set_fresh by assumption. apply keys_snoc.
Qed.

Lemma set_NoDup {V} (d : Dict.t V) k v :
  NoDup (Dict.keys d) -> NoDup (Dict.keys (Dict.set k v d)).
Proof.
  intros N. rewrite keys_set_cases. destruct (Dict.mem k d) eqn:M; [assumption|].
  apply NoDup_app; [assumption | repeat constructor; intros [] |].
  intros x I [<-|[]]. apply mem_keys in I. congruence.
Qed.

Lemma In_set {V} (d : Dict.t V) k v k' v' :
  In (k', v') (Dict.set k v d) -> (k' = k /\ v' = v) \/ In (k', v') d.
Proof.
  induction d as [|[k0 w0] d IH]; simpl.
  - intros [[= <- <-]|[]]. now left.
  - str_cases k k0; simpl.
    + intros [[= <- <-]|I]; [left; now split | right; now right].
    + intros [E0|I]; [right; now left|].
      apply IH in I. destruct I as [I|I]; [now left | right; now right].
Qed.

Lemma Forall_set {V} (P : str * V -> Prop) (d : Dict.t V) k v :
  P (k, v) -> Forall P d -> Forall P (Dict.set k v d).
Proof.
  intros Pk F. apply Forall_forall. intros [k' v'] I.
  apply In_set in I. destruct I as [[-> ->]|I]; [assumption|].
  rewrite Forall_forall in F. now apply F.
Qed.

Lemma In_keys_entry {V} (d : Dict.t V) k :
  In k (Dict.keys d) -> exists v, Dict.get k d = Some v.
Proof.
  intros I. apply mem_keys in I. unfold Dict.mem in I.
  destruct (Dict.get k d) as [v|]; [now exists v | discriminate].
Qed.

Lemma entry_ok_more errs extra kvs : entry_ok errs kvs -> entry_ok (errs ++ extra) kvs.
Proof.
  intros [[K|E] H]; split; try assumption; [now left | right].
  destruct errs; [congruence | discriminate].
Qed.

Lemma section_ok_more errs extra sd :
  section_ok errs sd -> section_ok (errs ++ extra) sd.
Proof.
  intros [Pn [N F]]. repeat split; try assumption.
  eapply Forall_impl; [|exact F]. intros a. apply entry_ok_more.
Qed.

Lemma reader_ok_ext st st' :
  r_sections st' = r_sections st -> e st' = e st -> cursect st' = cursect st ->
  reader_ok st -> reader_ok st'.
Proof.
  intros Er Ee Ec [N F C]. constructor; rewrite ?Er, ?Ee; try assumption.
  intros n H. rewrite Ec in H. now apply C.
Qed.

Lemma reader_ok_handle_error st n line :
  reader_ok st -> reader_ok (handle_error st n line).
Proof.
  intros [N F C]. constructor; simpl; try assumption.
  eapply Forall_impl; [|exact F]. intros a. apply section_ok_more.
Qed.

(** Replacing the dictionary under the cursor by one that is as good. *)
Lemma reader_ok_update st (f : Dict.t (list str) -> Dict.t (list str)) :
  reader_ok st ->
  (forall d, NoDup (Dict.keys d) -> Forall (entry_ok (e st)) d ->
             NoDup (Dict.keys (f d)) /\ Forall (entry_ok (e st)) (f d)) ->
  reader_ok (with_cur_dict st (f (cur_dict st))).
Proof.
  intros [N F C] Hf. unfold with_cur_dict, cur_dict.
  destruct (cursect st) as [| |n] eqn:Cs.
  - constructor; try assumption. intros n H. rewrite Cs in H. discriminate.
  - constructor; simpl; assumption.
  - specialize (C n eq_refl). destruct (In_keys_entry _ _ C) as [d G].
    unfold Dict.get_default. rewrite G.
    pose proof (get_Some_In _ _ _ G) as Id.
    rewrite Forall_forall in F. destruct (F _ Id) as [Pn [Nd Fd]]. simpl in *.
    destruct (Hf d Nd Fd) as [Nd' Fd'].
    constructor; simpl.
    + now apply set_NoDup.
    + apply Forall_set; [now repeat split | now apply Forall_forall].
    + intros n0 H. injection H as <-. now apply keys_set_incl.
Qed.

Lemma reader_ok_append_value st o v :
  reader_ok st -> reader_ok (append_value st o v).
Proof.
  intros R. unfold append_value.
  destruct (Dict.get o (cur_dict st)) as [l|] eqn:G; [|assumption].
  apply (reader_ok_update st (fun d => match Dict.get o d with
                                       | Some l0 => Dict.set o (l0 ++ [v]) d
                                       | None => d
                                       end)) in R.
  - now rewrite G in R.
  - intros d Nd Fd. destruct (Dict.get o d) as [l0|] eqn:G0; [|now split].
    split; [now apply set_NoDup|]. apply Forall_set; [|assumption].
    apply get_Some_In in G0. rewrite Forall_forall in Fd.
    destruct (Fd _ G0) as [K [v0 [rest [E L]]]]. simpl in *. split; [assumption|].
    exists v0, (rest ++ [v]). rewrite E. now split.
Qed.

Lemma parsed_key_of_option value c o tail :
  value = (c :: o) ++ tail ->
  Py.isspace c = false -> Re.one_of "#;" c = false ->
  one_line value = true ->
  forallb (fun c => negb (Re.one_of "=:" c)) (c :: o) = true ->
  parsed_key (Py.rstrip (c :: o)) = true.
Proof.
  intros E Sp Nc Ol Nd.
  assert (I : incl (Py.rstrip (c :: o)) value).
  { intros x Ix. apply rstrip_incl in Ix. rewrite E. apply in_or_app. now left. }
  assert (Io : incl (Py.rstrip (c :: o)) (c :: o)) by apply rstrip_incl.
  pose proof (rstrip_cons_nonspace c o Sp) as Rk.
  unfold parsed_key. rewrite Rk at 1. rewrite Nc. cbn [negb andb].
  rewrite !andb_true_iff. repeat split.
  - unfold stripped. rewrite Rk at 1. rewrite Rk at 1.
    rewrite Sp. cbn [negb andb]. rewrite <- Rk.
    apply rstrip_last in Rk. rewrite <- (rstrip_cons_nonspace c o Sp) in Rk.
    now rewrite Rk.
  - now apply one_line_incl with (b := value).
  - rewrite forallb_forall in Nd |- *. intros x Ix. now apply Nd, Io.
Qed.

Lemma not_comment_head line c v :
  is_comment line = false -> Py.strip line = c :: v -> Re.one_of "#;" c = false.
Proof.
  unfold is_comment. intros H E. rewrite E in H.
  unfold Py.startswith, L in H. cbn [list_ascii_of_string] in H.
  rewrite !andb_true_r in H. unfold Re.one_of, Py.contains. cbn [L list_ascii_of_string existsb].
  apply orb_false_iff in H. destruct H as [H1 H2].
  rewrite Ascii.eqb_sym, H1, Ascii.eqb_sym, H2. reflexivity.
Qed.

Lemma reader_ok_set_indent st m : reader_ok st -> reader_ok (set_indent st m).
Proof. now apply reader_ok_ext. Qed.

Lemma reader_ok_enter_section st n h st' :
  h <> [] -> one_line h = true ->
  reader_ok st -> enter_section st n h = inl st' -> reader_ok st'.
Proof.
  intros Ne Ol [N F C]. unfold enter_section.
  destruct (Dict.mem h (r_sections st)) eqn:M.
  - destruct (existsb _ _); [discriminate|]. intros [= <-].
    constructor; simpl; try assumption.
    intros n0 [= <-]. now apply mem_keys.
  - destruct (Py.str_eqb h DEFAULTSECT) eqn:D; intros [= <-].
    + constructor; simpl; try assumption. discriminate.
    + assert (Nh : ~ In h (Dict.keys (r_sections st))).
      { intros I. apply mem_keys in I. congruence. }
      constructor; simpl.
      * now apply set_NoDup.
      * apply Forall_set; [|assumption].
        repeat split; simpl; [|constructor|constructor].
        unfold plain_name. rewrite Ol, D. now destruct h.
      * intros n0 [= <-]. rewrite set_fresh by assumption.
        rewrite keys_snoc. apply in_or_app. right. now left.
Qed.

Lemma reader_ok_enter_option st n line value o v tail st' :
  value = o ++ tail ->
  Py.strip line = value -> is_comment line = false -> one_line value = true ->
  forallb (fun c => negb (Re.one_of "=:" c)) o = true ->
  reader_ok st -> enter_option st n line o v = inl st' -> reader_ok st'.
Proof.
  intros E Sv Nc Ol Nd R. unfold enter_option.
  destruct (existsb _ _); [discriminate|]. intros [= <-].
  set (st1 := match o with [] => handle_error st n line | _ :: _ => st end).
  assert (R1 : reader_ok st1).
  { subst st1. destruct o; [now apply reader_ok_handle_error | assumption]. }
  assert (K : parsed_key (Py.rstrip o) = true \/ e st1 <> []).
  { destruct o as [|c o].
    - right. subst st1. simpl. now destruct (e st).
    - left. apply parsed_key_of_option with (value := value) (tail := tail);
        try assumption.
      + rewrite E in Sv. now apply strip_head in Sv.
      + rewrite E in Sv. now apply not_comment_head with (line := line) (v := o ++ tail). }
  apply reader_ok_ext
    with (st := with_cur_dict st1 (Dict.set (Py.rstrip o) [Py.strip v] (cur_dict st1)));
    try reflexivity.
  apply (reader_ok_update st1 (fun d => Dict.set (Py.rstrip o) [Py.strip v] d) R1).
  intros d Nd0 Fd. split; [now apply set_NoDup|].
  apply Forall_set; [|assumption]. split; [exact K|].
  exists (Py.strip v), []. split; [reflexivity | apply lstrip_strip].
Qed.

Lemma reader_ok_header_or_option st n line value st' :
  Py.strip line = value -> is_comment line = false -> one_line value = true ->
  reader_ok st -> header_or_option st n line value = inl st' -> reader_ok st'.
Proof.
  intros Sv Nc Ol R. unfold header_or_option.
  destruct (Re.match_ SECTCRE value) as [[caps rest]|] eqn:S.
  - apply sectcre_sound in S. destruct S as [Ne O1].
    now apply reader_ok_enter_section.
  - assert (W : forall caps rest,
               Re.match_ OPTCRE value = Some (caps, rest) ->
               enter_option st n line (nth 0 caps []) (nth 2 caps []) = inl st' ->
               reader_ok st').
    { intros caps rest O H. apply optcre_sound in O; [|now apply one_line_spec].
      destruct O as [tail [E Nd]].
      now apply (reader_ok_enter_option st n line value (nth 0 caps []) (nth 2 caps [])
                   tail st' E Sv Nc Ol Nd R). }
    destruct (cursect st); [discriminate| |];
      (destruct (Re.match_ OPTCRE value) as [[caps rest]|] eqn:O;
       [now apply (W caps rest)
       |intros [= <-]; now apply reader_ok_handle_error]).
Qed.

Lemma reader_ok_read_line st n line st' :
  one_line (Py.strip line) = true ->
  reader_ok st -> read_line st n line = inl st' -> reader_ok st'.
Proof.
  intros Ol R. unfold read_line.
  destruct (is_comment line) eqn:Nc.
  - destruct (in_option st); intros [= <-]; assumption.
  - destruct (Py.strip line) as [|c v] eqn:Sv.
    + destruct (in_option st); intros [= <-]; [|assumption].
      now apply reader_ok_append_value.
    + assert (W : forall m,
                 header_or_option (set_indent st m) n line (c :: v) = inl st' ->
                 reader_ok st').
      { intros m. apply reader_ok_header_or_option; try assumption.
        now apply reader_ok_set_indent. }
      destruct (in_option st); [destruct (_ <? _)|]; try apply W.
      intros [= <-]. now apply reader_ok_append_value.
Qed.

Lemma reader_ok_read_lines : forall ls st n st',
  Forall (fun l => one_line (Py.strip l) = true) ls ->
  reader_ok st -> read_lines st n ls = inl st' -> reader_ok st'.
Proof.
  induction ls as [|l ls IH]; intros st n st' F R H; simpl in H.
  - now injection H as <-.
  - inversion F as [|? ? Fl F']; subst.
    destruct (read_line st n l) as [st1|] eqn:E; [|discriminate].
    apply (IH st1 (S n)); try assumption.
    now apply (reader_ok_read_line st n l).
Qed.

Lemma reader_ok_start : reader_ok start.
Proof. constructor; simpl; [constructor | constructor | discriminate]. Qed.

(** A value that is on one line is stripped. *)
Lemma head_ok_stripped vs :
  head_ok vs ->
  one_line (Py.rstrip (Py.join nl vs)) = true ->
  stripped (Py.rstrip (Py.join nl vs)) = true.
Proof.
  intros [v0 [rest [-> L]]] Ol.
  apply stripped_of_ends; [|apply rstrip_idem].
  assert (J : exists t, Py.join nl (v0 :: rest) = v0 ++ t /\
                        (t = [] \/ exists t', t = Py.LF :: t')).
  { destruct rest as [|r rest].
    - exists []. split; [simpl; now rewrite app_nil_r | now left].
    - rewrite join_cons by discriminate. eexists. split; [reflexivity|].
      right. now eexists. }
  destruct J as [t [E T]]. rewrite E in *. clear E.
  destruct v0 as [|c v0].
  - simpl in *. destruct T as [->|[t' ->]]; [reflexivity|].
    rewrite rstrip_cons in *. destruct (Py.rstrip t') as [|x r]; [reflexivity|].
    exfalso. unfold one_line in Ol. simpl in Ol. discriminate.
  - assert (Sp : Py.isspace c = false) by now apply lstrip_head in L.
    simpl app. rewrite rstrip_cons_nonspace by assumption. simpl. now rewrite Sp.
Qed.

(** Every store the reader yields has distinct, well-formed names and keys,
    and values that are stripped when they have one line. *)
Lemma read_string_parsed content c :
  read_string content = inl c -> parsed_store c.
Proof.
  unfold read_string.
  destruct (read_lines start 1 (Py.readlines content)) as [st|] eqn:R; [|discriminate].
  destruct (e st) eqn:Ee; [|discriminate]. intros [= <-].
  apply (reader_ok_read_lines _ _ _ _ (readlines_one_line content) reader_ok_start) in R.
  destruct R as [N F _]. rewrite Ee in F.
  unfold parsed_store, finish. cbn [_sections]. split.
  - now rewrite keys_map_values.
  - apply Forall_map. eapply Forall_impl; [|exact F].
    intros [s d] [Pn [Nd Fd]]. simpl in *. repeat split; try assumption.
    + unfold join_values.
      now rewrite (keys_map_values (fun vs => Py.rstrip (Py.join nl vs))).
    + unfold join_values. apply Forall_map. eapply Forall_impl; [|exact Fd].
      intros [k vs] [[K|K] H]; [|congruence]. simpl in *.
      split; [assumption|]. simpl. now apply head_ok_stripped.
Qed.

Lemma NoDup_nodupb l : NoDup l -> nodupb l = true.
Proof.
  induction 1 as [|a l N _ IH]; [reflexivity|]. simpl. rewrite IH, andb_true_r.
  rewrite negb_true_iff. destruct (mem_str a l) eqn:M; [|reflexivity].
  apply mem_str_In in M. contradiction.
Qed.

Lemma plain_key_of_parsed k :
  parsed_key k = true -> Py.startswith (L "[") k = false -> plain_key k = true.
Proof.
  unfold parsed_key, plain_key. rewrite !andb_true_iff.
  intros [[[K0 Ks] Kl] Kd] B. repeat split; try assumption.
  destruct k as [|c k]; [discriminate|].
  rewrite negb_true_iff in *. unfold Re.one_of, Py.contains in *.
  cbn [L list_ascii_of_string existsb] in *.
  unfold Py.startswith in B. cbn [L list_ascii_of_string] in B.
  rewrite andb_true_r in B. rewrite !orb_false_iff in *.
  destruct K0 as [E1 [E2 _]]. repeat split; try assumption;
    try (now rewrite Ascii.eqb_sym).
Qed.

(** For a store that was read, the conditions that depend on the text are
    enough for writing. *)
Lemma parsed_writable c smap kmap :
  parsed_store c -> round_trippable c smap kmap = true -> writable c smap kmap = true.
Proof.
  intros [N F]. unfold round_trippable, writable. rewrite !andb_true_iff.
  intros [[D T] C]. repeat split; try assumption.
  unfold plain_sections. rewrite andb_true_iff. split; [|now apply NoDup_nodupb].
  rewrite forallb_forall in T |- *. intros [s d] I.
  rewrite Forall_forall in F. destruct (F _ I) as [Pn [Nd Fd]].
  specialize (T _ I). simpl in *. rewrite Pn. simpl.
  unfold plain_entries. rewrite andb_true_iff. split; [|now apply NoDup_nodupb].
  rewrite forallb_forall in T |- *. intros [k v] Ik.
  rewrite Forall_forall in Fd. destruct (Fd _ Ik) as [Pk Pv].
  specialize (T _ Ik). simpl in *. apply andb_true_iff in T. destruct T as [B Ol].
  rewrite negb_true_iff in B.
  rewrite (plain_key_of_parsed k Pk B). simpl.
  unfold plain_value. now rewrite (Pv Ol), Ol.
Qed.

(* ================================================================= *)
(** ** The round trip *)

(** When [parse_ini] yields a store with no entry in the DEFAULT section,
    whose values have one line each, none of whose keys begins with an
    opening bracket, and whose names the casing maps give back unchanged, the
    text [save_ini] writes for it is read back by [parse_ini] without error
    as the same sections, keys and values in the same order, GLOBAL being
    moved to the front, left out when it is empty and followed by other
    sections, and put in empty when the store has no section. *)
Lemma write_ini_read_back content c smap kmap err :
  parse_ini content = Returned (Some c) smap kmap err ->
  round_trippable c smap kmap = true ->
  (exists smap' kmap',
      parse_ini (write_ini c smap kmap)
      = Returned (Some (reread_store c)) smap' kmap' None)
  /\ (forall s k, stored (reread_store c) s k = stored c s k)
  /\ explicit_entries (reread_store c) = explicit_entries c.
Proof.
  intros P T. split; [|split; [apply stored_reread | apply explicit_entries_reread]].
  apply parse_ini_store, read_string_parsed in P.
  pose proof (parsed_writable c smap kmap P T) as W.
  destruct (parse_ini_read (write_ini c smap kmap)) as [sm [km Q]].
  rewrite (read_back c smap kmap W) in Q. now exists sm, km.
Qed.

(** C1.  The code does not keep what its comments promise (the casing maps
    are there to preserve case, [save_ini] is to preserve all the sections and
    keys it does not update).  Of the two sections Foo and foo of the first
    text, each with its entry, both are written under the name foo, and the
    written text no longer parses.  Of the second text the DEFAULT section is
    not written and its entry is written into the section S, where a second
    reading finds it as a key of S. *)
Theorem C1_failing_inputs :
  (ex_case_clash = lines ["[Foo]"; "a=1"; "[foo]"; "b=2"]
   /\ parse_ini ex_case_clash
      = Returned
          (Some {| _sections := [(L "Foo", [(L "a", L "1")]);
                                 (L "foo", [(L "b", L "2")])];
                   _defaults := [] |})
          [(L "foo", L "foo")] [(L "foo", [(L "b", L "b")])] None
   /\ rewritten ex_case_clash = Some (lines ["[foo]"; "a=1"; ""; "[foo]"; "b=2"])
   /\ parse_ini (lines ["[foo]"; "a=1"; ""; "[foo]"; "b=2"])
      = Returned None [(L "foo", L "foo")] [(L "foo", [(L "b", L "b")])]
                 (Some (DuplicateSectionError (L "foo") 4)))
  /\ (ex_default_section = lines ["[DEFAULT]"; "z=9"; "[S]"; "a=1"]
      /\ parse_ini ex_default_section
         = Returned
             (Some {| _sections := [(L "S", [(L "a", L "1")])];
                      _defaults := [(L "z", L "9")] |})
             [(L "default", L "DEFAULT"); (L "s", L "S")]
             [(L "default", [(L "z", L "z")]); (L "s", [(L "a", L "a")])] None
      /\ rewritten ex_default_section = Some (lines ["[S]"; "a=1"; "z=9"])
      /\ parse_ini (lines ["[S]"; "a=1"; "z=9"])
         = Returned
             (Some {| _sections := [(L "S", [(L "a", L "1"); (L "z", L "9")])];
                      _defaults := [] |})
             [(L "s", L "S")] [(L "s", [(L "a", L "a"); (L "z", L "z")])] None).
Proof. repeat split; vm_compute; reflexivity. Qed.

(** Two more texts that are not written as they were read: the continuation
    line of a value is written in the first column, and a key that begins
    with a bracket is written at the start of the text; in both cases an
    exception leaves [parse_ini] on the written text. *)
Lemma rewritten_unreadable :
  (rewritten ex_multiline = Some (lines ["[S]"; "a=1"; "more"; "b=2"])
   /\ parse_ini (lines ["[S]"; "a=1"; "more"; "b=2"])
      = Raised (ParsingError [(3, L "more" ++ nl)]))
  /\ (rewritten ex_bracket_key = Some (lines ["[]=1"])
      /\ parse_ini (lines ["[]=1"])
         = Raised (MissingSectionHeaderError 1 (L "[]=1" ++ nl))).
Proof. repeat split; vm_compute; reflexivity. Qed.


(* ================================================================= *)
(** * Further properties of the program *)

From Stdlib Require Import DecimalPos DecimalZ Permutation.

(** ** Integers as text *)

Lemma of_uint_acc_val d : forall p,
  Z.pos (Pos.of_uint_acc d p) = uint_val d (Z.pos p).
Proof.
  induction d; intros p; cbn [uint_val Pos.of_uint_acc]; try reflexivity;
    rewrite IHd; f_equal; lia.
Qed.

Lemma of_uint_val d : Z.of_N (Pos.of_uint d) = uint_val d 0.
Proof.
  induction d; cbn [uint_val Pos.of_uint]; try reflexivity; try assumption;
    cbn [Z.of_N]; rewrite of_uint_acc_val; f_equal.
Qed.

(** The digits of a number are read back as the number. *)
Lemma int_digits_uint d : forall acc b,
  (d <> Decimal.Nil \/ b = true) ->
  Py.int_digits (L (NilEmpty.string_of_uint d)) acc b = Some (uint_val d acc).
Proof.
  induction d; intros acc b H.
  1: { cbn. destruct H as [H| ->]; [congruence | reflexivity]. }
  all: cbn [NilEmpty.string_of_uint L list_ascii_of_string Py.int_digits uint_val].
  all: match goal with
       | |- context [Py.isdigit ?c] =>
           change (Py.isdigit c) with true;
           let v := eval vm_compute in (Py.digit_val c) in
           change (Py.digit_val c) with v
       end; cbv iota.
  all: fold (L (NilEmpty.string_of_uint d)); rewrite IHd by (now right).
  all: f_equal; f_equal; lia.
Qed.

Lemma L_digits_head d :
  d <> Decimal.Nil ->
  exists c t, L (NilEmpty.string_of_uint d) = c :: t /\ Py.isdigit c = true.
Proof.
  destruct d; intros N; try congruence; cbn; eexists; eexists; split;
    reflexivity.
Qed.

Lemma forall_digits_nonspace d :
  Forall (fun c => Py.isspace c = false) (L (NilEmpty.string_of_uint d)).
Proof. induction d; cbn; constructor; (reflexivity || assumption). Qed.

Lemma lstrip_nonspace_head c t : Py.isspace c = false -> Py.lstrip (c :: t) = c :: t.
Proof. intros N. simpl. now rewrite N. Qed.

Lemma strip_all_nonspace s :
  Forall (fun c => Py.isspace c = false) s -> Py.strip s = s.
Proof.
  intros F. unfold Py.strip, Py.rstrip.
  assert (E : forall t, Forall (fun c => Py.isspace c = false) t -> Py.lstrip t = t).
  { intros [|c t] Ft; [reflexivity|]. apply lstrip_nonspace_head.
    now inversion Ft. }
  rewrite (E s F), E, rev_involutive; [reflexivity|].
  apply Forall_rev. assumption.
Qed.

Lemma int_of_str_digits d :
  d <> Decimal.Nil ->
  Py.int_of_str (L (NilEmpty.string_of_uint d)) = Some (uint_val d 0).
Proof.
  intros N. unfold Py.int_of_str.
  rewrite strip_all_nonspace by apply forall_digits_nonspace.
  rewrite <- (int_digits_uint d 0 false) by (now left).
  destruct d; try congruence; reflexivity.
Qed.

Lemma int_of_str_minus_digits d :
  Py.int_of_str ("-"%char :: L (NilEmpty.string_of_uint d))
  = option_map Z.opp (Py.int_digits (L (NilEmpty.string_of_uint d)) 0 false).
Proof.
  unfold Py.int_of_str.
  rewrite strip_all_nonspace; [reflexivity|].
  constructor; [reflexivity | apply forall_digits_nonspace].
Qed.

Lemma string_of_uint_nonnil d :
  d <> Decimal.Nil -> NilZero.string_of_uint d = NilEmpty.string_of_uint d.
Proof. destruct d; intros N; (congruence || reflexivity). Qed.

(** [int(str(z)) == z] *)
Lemma int_of_str_of_int z : Py.int_of_str (Py.str_of_int z) = Some z.
Proof.
  unfold Py.str_of_int. destruct z as [|p|p]; [reflexivity| |].
  - unfold Z.to_int, NilZero.string_of_int.
    rewrite string_of_uint_nonnil by apply Unsigned.to_uint_nonnil.
    rewrite int_of_str_digits by apply Unsigned.to_uint_nonnil.
    rewrite <- of_uint_val, Unsigned.of_to. reflexivity.
  - unfold Z.to_int, NilZero.string_of_int.
    rewrite string_of_uint_nonnil by apply Unsigned.to_uint_nonnil.
    change (L (String "-" (NilEmpty.string_of_uint (Pos.to_uint p))))
      with ("-"%char :: L (NilEmpty.string_of_uint (Pos.to_uint p))).
    rewrite int_of_str_minus_digits, int_digits_uint
      by (left; apply Unsigned.to_uint_nonnil).
    cbn [option_map]. rewrite <- of_uint_val, Unsigned.of_to. reflexivity.
Qed.

(* ================================================================= *)
(** ** Writing the widgets and reading them again *)

Lemma set_stored_id c s k v :
  s <> [] -> stored c s k = Some v -> ConfigParser.set c s k v = c.
Proof.
  intros Ne. unfold stored, ConfigParser.set.
  rewrite to_defaults_nonempty by assumption.
  destruct c as [sects dflt]. cbn [_sections _defaults].
  destruct (Py.str_eqb s DEFAULTSECT).
  - intros G. now rewrite set_same.
  - destruct (Dict.get s sects) as [d|] eqn:Gs; [|discriminate].
    intros G. unfold Dict.get_default. rewrite Gs.
    rewrite (set_same d k v G). now rewrite set_same.
Qed.

Lemma stored_In_keys c s k v :
  stored c s k = Some v -> In k (ConfigParser.keys c s).
Proof.
  unfold stored, ConfigParser.keys, ConfigParser.items.
  destruct (Py.str_eqb s DEFAULTSECT).
  - intros G. apply get_Some_In in G. unfold Dict.keys.
    now apply (in_map fst) in G.
  - destruct (Dict.get s (_sections c)) as [d|] eqn:Gs; [|discriminate].
    intros G. unfold Dict.get_default. rewrite Gs, keys_app.
    apply in_or_app. left. apply get_Some_In in G. unfold Dict.keys.
    now apply (in_map fst) in G.
Qed.

Lemma stored_contains c s k v :
  stored c s k = Some v -> ConfigParser.contains c s = true.
Proof.
  unfold stored, ConfigParser.contains, ConfigParser.has_section, Dict.mem.
  destruct (Py.str_eqb s DEFAULTSECT); [reflexivity|].
  now destruct (Dict.get s (_sections c)).
Qed.

Section BindingMore.

Variable float : Type.
Variable float_of_str : str -> option float.
Variable str_of_float : float -> str.

Implicit Types (config : ConfigParser.t) (section : str)
         (uniforms : list uniform) (widgets : Dict.t (widget float)).

Local Abbreviation push := (push_value str_of_float).

Lemma update_unfold config section uniforms widgets :
  update_ini_from_widgets str_of_float config section uniforms widgets
  = fold_left (push section widgets) uniforms
              (if ConfigParser.contains config section then config
               else ConfigParser.add_section config section).
Proof. reflexivity. Qed.

Lemma update_contains config section uniforms widgets :
  ConfigParser.contains
    (update_ini_from_widgets str_of_float config section uniforms widgets)
    section = true.
Proof.
  rewrite update_unfold. apply push_contains.
  destruct (ConfigParser.contains config section) eqn:C;
    [assumption | apply contains_add_section].
Qed.

Lemma update_written config section uniforms widgets u w :
  section <> [] ->
  In u uniforms -> Dict.get (name u) widgets = Some w ->
  stored (update_ini_from_widgets str_of_float config section uniforms widgets)
         section (name u)
  = Some (widget_value str_of_float w).
Proof. intros Ne I G. rewrite update_unfold. now apply push_written. Qed.

(** Pushing values the store already holds changes nothing. *)
Lemma push_fixed section widgets uniforms : forall config,
  section <> [] ->
  (forall u w, In u uniforms -> Dict.get (name u) widgets = Some w ->
               stored config section (name u) = Some (widget_value str_of_float w)) ->
  fold_left (push section widgets) uniforms config = config.
Proof.
  induction uniforms as [|a l IH]; intros config Ne H; simpl; [reflexivity|].
  assert (E : push section widgets config a = config).
  { unfold push_value. destruct (Dict.get (name a) widgets) as [w|] eqn:G;
      [|reflexivity].
    apply set_stored_id; [assumption|]. apply H; [now left | assumption]. }
  rewrite E. apply IH; [assumption|]. intros u w I G. apply H; [now right | assumption].
Qed.

(** [update_ini_from_widgets] is idempotent: a second call with the same
    widgets leaves the store as the first call made it.  (Here and below the
    name of the target section is not empty: [RawConfigParser.set] files an
    empty section name under the default section.) *)
Theorem update_ini_from_widgets_idempotent config section uniforms widgets :
  section <> [] ->
  let config' :=
    update_ini_from_widgets str_of_float config section uniforms widgets in
  update_ini_from_widgets str_of_float config' section uniforms widgets = config'.
Proof.
  intros Ne config'. rewrite (update_unfold config').
  unfold config' at 1. rewrite update_contains.
  apply push_fixed; [assumption|]. intros u w I G. now apply update_written.
Qed.

(** What a widget wrote is what it is handed when the value is read again:
    the index of a combo box, the state of a check box, the text of any
    other widget. *)
Theorem set_widget_of_widget_value :
  (forall i, set_widget float_of_str (QComboBox i)
                        (widget_value str_of_float (QComboBox i))
             = Some (setCurrentIndex i))
  /\ (forall b, set_widget float_of_str (QCheckBox b)
                           (widget_value str_of_float (QCheckBox b))
                = Some (setChecked b))
  /\ (forall s, set_widget float_of_str (QLineEdit s)
                           (widget_value str_of_float (QLineEdit s))
                = Some (setText s)).
Proof.
  split; [|split]; try reflexivity.
  - intros i. cbn [set_widget widget_value]. now rewrite int_of_str_of_int.
  - intros []; reflexivity.
Qed.

Lemma mem_str_keys {V} (d : Dict.t V) k : mem_str k (Dict.keys d) = Dict.mem k d.
Proof.
  destruct (Dict.mem k d) eqn:M.
  - apply mem_str_In. now apply mem_keys.
  - destruct (mem_str k (Dict.keys d)) eqn:Q; [|reflexivity].
    apply mem_str_In, mem_keys in Q. congruence.
Qed.

Lemma sections_set_eq c s k v :
  ConfigParser.contains c s = true ->
  ConfigParser.sections (ConfigParser.set c s k v) = ConfigParser.sections c.
Proof.
  unfold ConfigParser.contains, ConfigParser.sections, ConfigParser.set,
    ConfigParser.has_section.
  destruct (ConfigParser.to_defaults s) eqn:T; cbn [_sections]; [reflexivity|].
  assert (D : Py.str_eqb s DEFAULTSECT = false) by (now destruct s).
  rewrite D. cbn [orb]. intros M. rewrite keys_set_cases. now rewrite M.
Qed.

Lemma own_keys_set_same c s k v :
  s <> [] ->
  ConfigParser.contains c s = true ->
  own_keys (ConfigParser.set c s k v) s
  = if mem_str k (own_keys c s) then own_keys c s else own_keys c s ++ [k].
Proof.
  intros Ne.
  unfold ConfigParser.contains, own_keys, ConfigParser.set, ConfigParser.has_section.
  rewrite to_defaults_nonempty by assumption.
  destruct (Py.str_eqb s DEFAULTSECT) eqn:D; cbn [orb _sections _defaults].
  - intros _. rewrite keys_set_cases. now rewrite mem_str_keys.
  - intros M. unfold Dict.get_default at 1. rewrite get_set_same.
    rewrite keys_set_cases. now rewrite mem_str_keys.
Qed.

Lemma own_keys_set_other c s k v s' :
  s <> [] -> s' <> s -> own_keys (ConfigParser.set c s k v) s' = own_keys c s'.
Proof.
  intros Ne N. unfold own_keys, ConfigParser.set.
  rewrite to_defaults_nonempty by assumption.
  destruct (Py.str_eqb s DEFAULTSECT) eqn:D; cbn [_sections _defaults].
  - destruct (Py.str_eqb s' DEFAULTSECT) eqn:D'; [|reflexivity].
    apply str_eqb_eq in D, D'. congruence.
  - destruct (Py.str_eqb s' DEFAULTSECT); [reflexivity|].
    unfold Dict.get_default at 1. now rewrite get_set_other.
Qed.

Lemma own_keys_add_section c s s' :
  ConfigParser.contains c s = false ->
  own_keys (ConfigParser.add_section c s) s' = own_keys c s'.
Proof.
  unfold ConfigParser.contains, ConfigParser.has_section, own_keys,
    ConfigParser.add_section.
  intros H. apply orb_false_iff in H. destruct H as [D M]. cbn [_sections _defaults].
  destruct (Py.str_eqb s' DEFAULTSECT); [reflexivity|].
  destruct (list_eq_dec ascii_dec s' s) as [->|N].
  - unfold Dict.get_default. rewrite get_set_same. unfold Dict.mem in M.
    now destruct (Dict.get s (_sections c)).
  - unfold Dict.get_default. now rewrite get_set_other.
Qed.

Lemma sections_add_section c s :
  ConfigParser.contains c s = false ->
  ConfigParser.sections (ConfigParser.add_section c s)
  = ConfigParser.sections c ++ [s].
Proof.
  unfold ConfigParser.contains, ConfigParser.has_section, ConfigParser.sections,
    ConfigParser.add_section.
  intros H. apply orb_false_iff in H. destruct H as [_ M]. cbn [_sections].
  rewrite keys_set_cases. now rewrite M.
Qed.

Lemma push_order section widgets uniforms : forall config,
  section <> [] ->
  ConfigParser.contains config section = true ->
  let config' := fold_left (push section widgets) uniforms config in
  ConfigParser.sections config' = ConfigParser.sections config
  /\ (forall s, s <> section -> own_keys config' s = own_keys config s)
  /\ exists extra,
       own_keys config' section = own_keys config section ++ extra
       /\ forall k, In k extra ->
                    ~ In k (own_keys config section)
                    /\ exists u, In u uniforms /\ name u = k
                                 /\ Dict.get k widgets <> None.
Proof.
  induction uniforms as [|a l IH]; intros config Ne C; cbn zeta.
  - split; [reflexivity|]. split; [reflexivity|]. exists [].
    rewrite app_nil_r. split; [reflexivity | intros k []].
  - cbn [fold_left].
    assert (C1 : ConfigParser.contains (push section widgets config a) section = true).
    { unfold push_value. destruct (Dict.get (name a) widgets); [|assumption].
      now apply contains_set. }
    destruct (IH _ Ne C1) as [S1 [O1 [extra [E1 X1]]]].
    unfold push_value in *.
    destruct (Dict.get (name a) widgets) as [w|] eqn:G.
    + rewrite S1, sections_set_eq by assumption. split; [reflexivity|].
      split.
      { intros s N. rewrite O1 by assumption. now apply own_keys_set_other. }
      rewrite E1, own_keys_set_same by assumption.
      rewrite own_keys_set_same in X1 by assumption.
      destruct (mem_str (name a) (own_keys config section)) eqn:M.
      * exists extra. split; [reflexivity|]. intros k I.
        destruct (X1 k I) as [N [u [Iu [Eu Gu]]]]. split; [assumption|].
        exists u. repeat split; [now right | assumption..].
      * exists (name a :: extra). rewrite <- app_assoc. split; [reflexivity|].
        intros k [<-|I].
        -- split.
           ++ intros I. apply mem_str_In in I. congruence.
           ++ exists a. repeat split; [now left | congruence].
        -- destruct (X1 k I) as [N [u [Iu [Eu Gu]]]]. split.
           ++ intros I'. apply N. apply in_or_app. now left.
           ++ exists u. repeat split; [now right | assumption..].
    + split; [assumption|]. split; [assumption|]. exists extra.
      split; [assumption|]. intros k I.
      destruct (X1 k I) as [N [u [Iu [Eu Gu]]]]. split; [assumption|].
      exists u. repeat split; [now right | assumption..].
Qed.

(** [update_ini_from_widgets] keeps the order of the file: the sections stay
    in their order, the target section being added at the end when it is
    new; the keys of every other section are untouched; in the target section
    the keys stay in their order and the new ones, all names of declarations
    with a widget, come after them. *)
Theorem update_ini_from_widgets_order config section uniforms widgets :
  section <> [] ->
  let config' :=
    update_ini_from_widgets str_of_float config section uniforms widgets in
  ConfigParser.sections config'
  = ConfigParser.sections config
      ++ (if ConfigParser.contains config section then [] else [section])
  /\ (forall s, s <> section -> own_keys config' s = own_keys config s)
  /\ exists extra,
       own_keys config' section = own_keys config section ++ extra
       /\ forall k, In k extra ->
                    ~ In k (own_keys config section)
                    /\ exists u, In u uniforms /\ name u = k
                                 /\ Dict.get k widgets <> None.
Proof.
  intros Ne config'. unfold config'. rewrite update_unfold.
  destruct (ConfigParser.contains config section) eqn:C.
  - rewrite app_nil_r. now apply push_order.
  - pose proof (push_order section widgets uniforms
                  (ConfigParser.add_section config section) Ne
                  (contains_add_section config section)) as P.
    cbn zeta in P. destruct P as [S1 [O1 [extra [E1 X1]]]].
    rewrite S1, sections_add_section by assumption. split; [reflexivity|].
    split.
    + intros s N. rewrite O1 by assumption. now apply own_keys_add_section.
    + exists extra. rewrite E1, own_keys_add_section by assumption.
      split; [reflexivity|]. intros k I.
      rewrite own_keys_add_section in X1 by assumption. now apply X1.
Qed.

(** After [update_ini_from_widgets], when every declaration has a widget, the
    store passes the layout check of [load_ini] for the same declarations. *)
Theorem update_then_check_layout config section uniforms widgets :
  section <> [] ->
  covered uniforms widgets ->
  check_layout
    (update_ini_from_widgets str_of_float config section uniforms widgets)
    section uniforms = LayoutOk.
Proof.
  intros Ne Cov. apply check_layout_ok. intros u I. split.
  - apply update_contains.
  - exists (name u). split; [|reflexivity].
    destruct (Dict.get (name u) widgets) as [w|] eqn:G.
    + eapply stored_In_keys. now apply update_written with (w := w).
    + exfalso. now apply (Cov u I).
Qed.

End BindingMore.

(* ================================================================= *)
(** ** [sorted] *)

Lemma ltb_asym : forall a b, PyStr.ltb a b = true -> PyStr.ltb b a = false.
Proof.
  induction a as [|x a IH]; intros [|y b] H; simpl in *; try congruence.
  apply orb_true_iff in H. apply orb_false_iff.
  destruct H as [H|H].
  - apply Nat.ltb_lt in H. split.
    + apply Nat.ltb_ge. lia.
    + apply andb_false_iff. left. apply Nat.eqb_neq. lia.
  - apply andb_true_iff in H. destruct H as [E H]. apply Nat.eqb_eq in E.
    split.
    + apply Nat.ltb_ge. lia.
    + apply andb_false_iff. right. now apply IH.
Qed.

Lemma leb_total a b : PyStr.leb a b = false -> PyStr.leb b a = true.
Proof.
  unfold PyStr.leb. rewrite negb_false_iff, negb_true_iff. apply ltb_asym.
Qed.

Lemma insert_perm x l : Permutation (x :: l) (PyStr.insert x l).
Proof.
  induction l as [|y l IH]; simpl; [reflexivity|].
  destruct (PyStr.leb x y); [reflexivity|].
  rewrite perm_swap. now constructor.
Qed.

Lemma sorted_perm l : Permutation l (PyStr.sorted l).
Proof.
  induction l as [|x l IH]; simpl; [constructor|].
  rewrite <- insert_perm. now constructor.
Qed.

Lemma insert_ascending x l : ascending l -> ascending (PyStr.insert x l).
Proof.
  unfold ascending. induction l as [|y l IH]; intros S; simpl.
  - repeat constructor.
  - destruct (PyStr.leb x y) eqn:E.
    + constructor; [assumption | now constructor].
    + inversion S as [|? ? S' H]; subst. constructor; [now apply IH|].
      destruct l as [|z l]; simpl.
      * constructor. now apply leb_total.
      * destruct (PyStr.leb x z); constructor;
          [now apply leb_total | now inversion H].
Qed.

Lemma sorted_ascending l : ascending (PyStr.sorted l).
Proof.
  induction l as [|x l IH]; simpl; [constructor | now apply insert_ascending].
Qed.

(* ================================================================= *)
(** ** [load_ini] as a whole *)

Lemma orig_fx_unmatched ks uniforms :
  filter (fun u => mem_str (normkey (name u))
                           (filter (fun k => negb (mem_str k ks)) (fx_keys uniforms)))
         uniforms
  = filter (fun u => negb (mem_str (normkey (name u)) ks)) uniforms.
Proof.
  apply filter_ext_in. intros u Hu.
  destruct (mem_str (normkey (name u)) ks) eqn:K; simpl.
  - destruct (mem_str _ (filter _ _)) eqn:Q; [|reflexivity].
    apply mem_str_In, filter_In in Q. rewrite K in Q. now destruct Q.
  - apply mem_str_In, filter_In. split.
    + unfold fx_keys. now apply (in_map (fun u => normkey (name u))).
    + now rewrite K.
Qed.

Lemma missing_nil ks uniforms :
  filter (fun k => negb (mem_str k ks)) (fx_keys uniforms) = []
  <-> filter (fun u => negb (mem_str (normkey (name u)) ks)) uniforms = [].
Proof.
  rewrite !filter_nil_iff. unfold fx_keys. split.
  - intros H u Hu. apply H. now apply (in_map (fun u => normkey (name u))).
  - intros H k Hk. apply in_map_iff in Hk. destruct Hk as [u [<- Hu]]. now apply H.
Qed.

Section WindowFacts.

Variable float : Type.
Variable float_of_str : str -> option float.
Variable str_of_float : float -> str.

Implicit Types (config : ConfigParser.t) (uniforms : list uniform)
         (widgets : Dict.t (widget float)) (section : option str)
         (file : option str).

(** [load_ini], once [parse_ini] has returned a store. *)
Lemma load_ini_parsed uniforms widgets section file config smap kmap err :
  FXUniformUI.parse_ini_file file = Returned (Some config) smap kmap err ->
  FXUniformUI.load_ini float_of_str uniforms widgets section file
  = match unmatched config section uniforms with
    | _ :: _ =>
        FXUniformUI.LayoutError config smap kmap
          (FXUniformUI.layout_message
             (map name (unmatched config section uniforms)))
    | [] =>
        match section with
        | Some s =>
            if ConfigParser.contains config s
            then FXUniformUI.Loaded config smap kmap
                   (set_widgets_from_ini float_of_str config s uniforms widgets)
                   (ConfigParser.get config s (L "game_window_title") [])
            else FXUniformUI.KeyError config smap kmap
        | None => FXUniformUI.KeyError config smap kmap
        end
    end.
Proof.
  intros P. unfold FXUniformUI.load_ini. rewrite P.
  fold (seen_keys config section).
  destruct (filter (fun k => negb (mem_str k (seen_keys config section)))
                   (fx_keys uniforms)) as [|m0 m] eqn:M.
  - apply missing_nil in M. unfold unmatched. now rewrite M.
  - rewrite <- M, orig_fx_unmatched. fold (unmatched config section uniforms).
    destruct (unmatched config section uniforms) as [|u0 us] eqn:U; [|reflexivity].
    apply missing_nil in U. rewrite U in M. discriminate.
Qed.

Lemma parse_ini_file_err file config smap kmap err :
  FXUniformUI.parse_ini_file file = Returned (Some config) smap kmap err ->
  err = None.
Proof.
  destruct file as [content|]; cbn [FXUniformUI.parse_ini_file].
  - destruct (parse_ini_read content) as [sm [km ->]].
    destruct (read_string (text_read content)) as [c0|[]]; congruence.
  - congruence.
Qed.

Lemma unmatched_nil config s uniforms :
  unmatched config (Some s) uniforms = []
  <-> forall u, In u uniforms -> has_match config s u.
Proof.
  unfold unmatched. rewrite filter_nil_iff. cbn [seen_keys].
  split; intros H u Hu.
  - apply has_match_ini_keys. specialize (H u Hu). now apply negb_false_iff in H.
  - apply negb_false_iff. apply has_match_ini_keys. now apply H.
Qed.

Lemma unmatched_all config section uniforms :
  section_in config section = false ->
  unmatched config section uniforms = uniforms.
Proof.
  intros H. unfold unmatched.
  assert (E : seen_keys config section = []).
  { destruct section as [s|]; [|reflexivity]. cbn in *. unfold ini_keys.
    now rewrite H. }
  rewrite E. induction uniforms as [|u l IH]; [reflexivity|].
  cbn. f_equal. exact IH.
Qed.

(** [load_ini] hands values to the widgets exactly when [parse_ini] returns a
    store that has the target section and, for each declaration, a key of the
    same normalized name there.  The values are then those of
    [set_widgets_from_ini], and the window title is the value of
    game_window_title in the section, else in the DEFAULT section, else
    empty. *)
Theorem load_ini_loaded uniforms widgets s file config smap kmap calls title :
  FXUniformUI.load_ini float_of_str uniforms widgets (Some s) file
  = FXUniformUI.Loaded config smap kmap calls title
  <-> FXUniformUI.parse_ini_file file = Returned (Some config) smap kmap None
      /\ ConfigParser.contains config s = true
      /\ (forall u, In u uniforms -> has_match config s u)
      /\ calls = set_widgets_from_ini float_of_str config s uniforms widgets
      /\ title = match lookup config s (L "game_window_title") with
                 | Some v => v
                 | None => []
                 end.
Proof.
  split.
  - destruct (FXUniformUI.parse_ini_file file) as [[c|] sm km err|exn] eqn:P.
    + rewrite (load_ini_parsed _ _ _ _ _ _ _ _ P).
      pose proof (parse_ini_file_err _ _ _ _ _ P) as ->.
      destruct (unmatched c (Some s) uniforms) as [|u0 us] eqn:U; [|discriminate].
      destruct (ConfigParser.contains c s) eqn:C; [|discriminate].
      intros [= <- <- <- <- <-]. rewrite <- get_lookup.
      split; [reflexivity|]. split; [assumption|].
      split; [now apply unmatched_nil|]. split; reflexivity.
    + unfold FXUniformUI.load_ini. rewrite P. discriminate.
    + unfold FXUniformUI.load_ini. rewrite P. discriminate.
  - intros [P [C [M [-> ->]]]].
    rewrite (load_ini_parsed _ _ _ _ _ _ _ _ P).
    apply unmatched_nil in M. rewrite M, C, get_lookup. reflexivity.
Qed.

(** Without the target section in the store (or before any FX file is loaded,
    or when there is no file at the path) [load_ini] never hands over a
    value: with declarations it reports every one of them as missing, without
    any it ends in the [KeyError] of the look-up of the window title. *)
Theorem load_ini_without_section uniforms widgets section file config smap kmap err :
  FXUniformUI.parse_ini_file file = Returned (Some config) smap kmap err ->
  section_in config section = false ->
  FXUniformUI.load_ini float_of_str uniforms widgets section file
  = match uniforms with
    | [] => FXUniformUI.KeyError config smap kmap
    | _ :: _ =>
        FXUniformUI.LayoutError config smap kmap
          (FXUniformUI.layout_message (map name uniforms))
    end.
Proof.
  intros P H. rewrite (load_ini_parsed _ _ _ _ _ _ _ _ P).
  rewrite unmatched_all by assumption.
  destruct uniforms; [|reflexivity].
  destruct section as [s|]; [|reflexivity]. cbn in H. now rewrite H.
Qed.

(** The layout error names, in ascending order and separated by commas, the
    declarations without a matching key, one name per declaration; there is
    at least one. *)
Theorem load_ini_layout_error uniforms widgets section file config smap kmap msg :
  FXUniformUI.load_ini float_of_str uniforms widgets section file
  = FXUniformUI.LayoutError config smap kmap msg ->
  exists names,
    msg = L "INI file does not match FX layout!" ++ nl ++ L "Missing keys: "
            ++ Py.join (L ", ") names
    /\ names <> [] /\ ascending names
    /\ Permutation names (map name (unmatched config section uniforms)).
Proof.
  destruct (FXUniformUI.parse_ini_file file) as [[c|] sm km err|exn] eqn:P.
  - rewrite (load_ini_parsed _ _ _ _ _ _ _ _ P).
    destruct (unmatched c section uniforms) as [|u0 us] eqn:U.
    + destruct section as [s|]; [destruct (ConfigParser.contains c s)|]; discriminate.
    + intros [= <- <- <- <-].
      exists (PyStr.sorted (map name (u0 :: us))). split; [|split; [|split]].
      * reflexivity.
      * intros E. pose proof (sorted_perm (map name (u0 :: us))) as Pm.
        rewrite E in Pm. apply Permutation_sym, Permutation_nil in Pm. discriminate.
      * apply sorted_ascending.
      * rewrite U. apply Permutation_sym, sorted_perm.
  - unfold FXUniformUI.load_ini. rewrite P. discriminate.
  - unfold FXUniformUI.load_ini. rewrite P. discriminate.
Qed.

Lemma set_widgets_written_back config s uniforms widgets :
  ConfigParser.contains config s = true ->
  (forall u w, In u uniforms -> Dict.get (name u) widgets = Some w ->
               lookup config s (name u) = Some (widget_value str_of_float w)) ->
  set_widgets_from_ini float_of_str config s uniforms widgets
  = written_back float_of_str str_of_float uniforms widgets.
Proof.
  intros C H. unfold set_widgets_from_ini, written_back. rewrite C. cbn [negb].
  induction uniforms as [|a l IH]; [reflexivity|]. cbn [flat_map].
  rewrite IH by (intros u w I G; apply H; [now right | assumption]).
  f_equal. destruct (Dict.get (name a) widgets) as [w|] eqn:G; [|reflexivity].
  rewrite get_lookup, (H a w) by (assumption || now left). reflexivity.
Qed.

Lemma lookup_reread c s k : lookup (reread_store c) s k = lookup c s k.
Proof. unfold lookup. now rewrite stored_reread. Qed.

(** A section of a store that can be read back has a name. *)
Lemma writable_contains_nonempty c smap kmap s :
  writable c smap kmap = true -> ConfigParser.contains c s = true -> s <> [].
Proof.
  unfold writable, plain_sections. intros W C ->.
  apply andb_true_iff in W. destruct W as [W _].
  apply andb_true_iff in W. destruct W as [_ W].
  apply andb_true_iff in W. destruct W as [W _].
  rewrite forallb_forall in W.
  unfold ConfigParser.contains, ConfigParser.has_section, Dict.mem in C.
  cbn [Py.str_eqb orb] in C.
  destruct (Dict.get [] (_sections c)) as [d|] eqn:G; [|discriminate].
  apply get_Some_In in G. specialize (W _ G). cbn in W. discriminate.
Qed.

(** Saving and loading again.  When [save_ini] has written a store that can be
    read back (nothing in the DEFAULT section, plain names, keys and values,
    casing maps that keep the names) for a form in which every declaration
    has a widget, [load_ini] on the written text succeeds: the layout check
    passes, each widget is handed the text that was written for it, and the
    window title is the one of the store. *)
Theorem save_then_load ini_path config s uniforms widgets smap kmap game_title
        config' text reload :
  FXUniformUI.save_ini str_of_float ini_path (Some config) (Some s) uniforms
                       widgets smap kmap game_title
  = FXUniformUI.Saved config' text reload ->
  covered uniforms widgets -> uniforms <> [] ->
  writable config' smap kmap = true ->
  exists smap' kmap',
    FXUniformUI.load_ini float_of_str uniforms widgets (Some s) (Some text)
    = FXUniformUI.Loaded (reread_store config') smap' kmap'
        (written_back float_of_str str_of_float uniforms widgets)
        (ConfigParser.get config' s (L "game_window_title") []).
Proof.
  unfold FXUniformUI.save_ini. destruct ini_path as [[|c0 p]|]; try discriminate.
  intros [= <- <- _] Cov Ne W.
  set (c' := update_ini_from_widgets str_of_float config s uniforms widgets) in *.
  assert (Ns : s <> []).
  { apply (writable_contains_nonempty c' smap kmap); [exact W|].
    apply update_contains. }
  assert (Wr : forall u w, In u uniforms -> Dict.get (name u) widgets = Some w ->
               stored c' s (name u) = Some (widget_value str_of_float w)).
  { intros u w I G. now apply update_written. }
  destruct (parse_ini_read (write_ini c' smap kmap)) as [sm [km Q]].
  rewrite (read_back c' smap kmap W) in Q. exists sm, km.
  apply load_ini_loaded. split; [exact Q|].
  assert (C : ConfigParser.contains (reread_store c') s = true).
  { destruct uniforms as [|u0 us]; [congruence|].
    destruct (Dict.get (name u0) widgets) as [w|] eqn:G.
    - apply stored_contains with (k := name u0) (v := widget_value str_of_float w).
      rewrite stored_reread. apply Wr; [now left | assumption].
    - exfalso. apply (Cov u0); [now left | assumption]. }
  split; [exact C|]. split; [|split].
  - intros u I. split; [exact C|]. exists (name u). split; [|reflexivity].
    destruct (Dict.get (name u) widgets) as [w|] eqn:G.
    + apply stored_In_keys with (v := widget_value str_of_float w).
      rewrite stored_reread. now apply Wr.
    + exfalso. now apply (Cov u I).
  - symmetry. apply set_widgets_written_back; [exact C|].
    intros u w I G. rewrite lookup_reread. unfold lookup. now rewrite (Wr u w I G).
  - rewrite get_lookup, lookup_reread. reflexivity.
Qed.

End WindowFacts.


(* ================================================================= *)
(** ** What [parse_fx_uniforms] recognises *)

Lemma none_of_1 (a c : ascii) :
  Re.none_of (String a EmptyString) c = true -> c <> a.
Proof.
  unfold Re.none_of, Py.contains, L. cbn. rewrite orb_false_r, negb_true_iff.
  intros H ->. now rewrite Ascii.eqb_refl in H.
Qed.

Lemma pattern_shape prev x rest p caps :
  matches pattern prev x rest p caps ->
  exists t n m d, caps = [t; n; m; d] /\ uniform_block x t n m d.
Proof.
  intros M. unfold pattern, Re.seq, Re.lit in M. simpl in M. inv_matches.
  repeat match goal with
         | H : true = true -> _ |- _ => specialize (H eq_refl)
         | H : false = true -> _ |- _ => clear H
         | H : Forall (fun c => Re.none_of _ c = true) _ |- _ =>
             apply (Forall_impl _ (none_of_1 _)) in H
         end.
  do 4 eexists. split; [reflexivity|].
  unfold uniform_block, spaces, word_text. do 5 eexists.
  split; [reflexivity|].
  repeat split; assumption.
Qed.

Lemma uniforms_from_blocks text u :
  In u (parse_fx_uniforms text) ->
  exists pre b post t n m d,
    text = pre ++ b ++ post
    /\ uniform_block b t n m d
    /\ u = {| utype := t; name := n;
              meta := resolve (parse_defines text) (parse_meta m);
              default := Py.strip d |}.
Proof.
  unfold parse_fx_uniforms. intros I. apply in_map_iff in I.
  destruct I as [f [<- I]].
  pose proof (finditer_matched pattern text) as F. rewrite Forall_forall in F.
  destruct (F f I) as [pre [s [rest [-> [_ M]]]]].
  apply match_at_sound in M. destruct M as [x [prev' [-> M]]].
  apply pattern_shape in M. destruct M as [t [n [m [d [E B]]]]].
  exists pre, x, rest, t, n, m, d. split; [reflexivity|]. split; [assumption|].
  unfold make_uniform, group. rewrite E. reflexivity.
Qed.

(** Every declaration [parse_fx_uniforms] returns was read from a block of
    the text of the form: the keyword uniform, whitespace, a type, whitespace,
    a name, the annotations between angle brackets, an equals sign, a default
    and a semicolon.  Type and name are words, the annotations hold no closing
    bracket, the default is not empty and holds no semicolon; the declaration
    carries the type, the name, the default without surrounding whitespace
    and the annotations after the resolution of ui_min and ui_max. *)
Theorem parse_fx_uniforms_sound text u :
  In u (parse_fx_uniforms text) ->
  exists pre b post t n m d,
    text = pre ++ b ++ post
    /\ uniform_block b t n m d
    /\ u = {| utype := t; name := n;
              meta := resolve (parse_defines text) (parse_meta m);
              default := Py.strip d |}.
Proof. apply uniforms_from_blocks. Qed.

Lemma contains_app c a b :
  Py.contains c (a ++ b) = Py.contains c a || Py.contains c b.
Proof. unfold Py.contains. apply existsb_app. Qed.

(** A text without an opening or without a closing angle bracket, without an
    equals sign or without a semicolon declares nothing: a uniform written
    without annotations is not recognised. *)
Theorem parse_fx_uniforms_needs_annotations text :
  Py.contains "<" text = false \/ Py.contains ">" text = false
  \/ Py.contains "=" text = false \/ Py.contains ";" text = false ->
  parse_fx_uniforms text = [].
Proof.
  intros H. destruct (parse_fx_uniforms text) as [|u l] eqn:E; [reflexivity|].
  exfalso.
  destruct (uniforms_from_blocks text u) as [pre [b [post [t [n [m [d [T [B _]]]]]]]]].
  { rewrite E. now left. }
  destruct B as [s1 [s2 [s3 [s4 [s5 [-> _]]]]]]. subst text.
  repeat (rewrite !contains_app in H; cbn [Py.contains existsb L list_ascii_of_string] in H).
  rewrite ?orb_true_r, ?orb_true_l in H.
  destruct H as [H|[H|[H|H]]]; discriminate.
Qed.

Lemma keys_resolve_key defines k d :
  Dict.keys (resolve_key defines k d) = Dict.keys d.
Proof.
  unfold resolve_key. destruct (Dict.get k d) as [[|c v]|] eqn:G; try reflexivity.
  assert (M : Dict.mem k d = true) by (unfold Dict.mem; now rewrite G).
  destruct (is_number (c :: v)); [reflexivity|].
  destruct (Dict.get (c :: v) defines); rewrite keys_set_cases, M; reflexivity.
Qed.

(** The resolution against the [#define] constants touches ui_min and ui_max
    only: it adds and removes no key, keeps the order of the keys, and every
    other key (ui_step, ui_label, ...) keeps the text of the annotations. *)
Theorem resolve_only_min_max defines meta_dict :
  Dict.keys (resolve defines meta_dict) = Dict.keys meta_dict
  /\ forall k, k <> L "ui_min" -> k <> L "ui_max" ->
               Dict.get k (resolve defines meta_dict) = Dict.get k meta_dict.
Proof.
  unfold resolve. split.
  - now rewrite !keys_resolve_key.
  - intros k N1 N2. now rewrite !resolve_key_other.
Qed.

(* ================================================================= *)
(** ** What [parse_ini] guarantees *)

(** In a store [parse_ini] returns, the sections have distinct names, none
    empty and none the name of the default section; in each section the keys
    are distinct, not empty, without surrounding whitespace, without
    delimiter, and start with no comment sign; a value of one line has no
    surrounding whitespace. *)
Theorem parse_ini_store_well_formed content c smap kmap err :
  parse_ini content = Returned (Some c) smap kmap err ->
  NoDup (ConfigParser.sections c)
  /\ forall s d, In (s, d) (_sections c) ->
       s <> [] /\ s <> DEFAULTSECT
       /\ NoDup (Dict.keys d)
       /\ forall k v, In (k, v) d ->
            parsed_key k = true /\ (one_line v = true -> stripped v = true).
Proof.
  intros P. apply parse_ini_store, read_string_parsed in P.
  destruct P as [N F]. split; [exact N|]. intros s d I.
  rewrite Forall_forall in F. destruct (F _ I) as [Pn [Nd Fd]]. cbn [fst snd] in *.
  apply plain_name_spec in Pn. destruct Pn as [Ne [_ Nd']].
  split; [exact Ne|]. split; [now apply str_eqb_neq|]. split; [exact Nd|].
  intros k v Ik. rewrite Forall_forall in Fd. exact (Fd (k, v) Ik).
Qed.

(* ================================================================= *)
(** ** The casing maps *)

Lemma lower_char_idem c : Py.lower_char (Py.lower_char c) = Py.lower_char c.
Proof. destruct c as [[] [] [] [] [] [] [] []]; reflexivity. Qed.

Lemma lower_idem s : Py.lower (Py.lower s) = Py.lower s.
Proof.
  unfold Py.lower. rewrite map_map. apply map_ext. intros c. apply lower_char_idem.
Qed.

Lemma get_set_cases {V} (d : Dict.t V) k v k' x :
  Dict.get k' (Dict.set k v d) = Some x ->
  (k' = k /\ x = v) \/ (k' <> k /\ Dict.get k' d = Some x).
Proof.
  destruct (list_eq_dec ascii_dec k' k) as [->|N].
  - rewrite get_set_same. intros [= <-]. now left.
  - rewrite get_set_other by assumption. now right.
Qed.

Lemma scan_line_lower_keyed st line :
  lower_keyed st -> lower_keyed (scan_line st line).
Proof.
  intros [Hs Hk]. unfold scan_line.
  destruct (Re.match_ header_line_pattern line) as [[caps rest]|].
  - split; cbn [section_name_map key_name_map].
    + intros k v G. apply get_set_cases in G.
      destruct G as [[-> ->]|[_ G]]; [reflexivity | now apply Hs].
    + intros s km k v G Gk. apply get_set_cases in G.
      destruct G as [[-> ->]|[_ G]]; [discriminate | exact (Hk s km k v G Gk)].
  - destruct (current_section st) as [[|c cs]|]; try (now split).
    destruct (Py.contains "=" line); [|now split].
    split; cbn [section_name_map key_name_map]; [exact Hs|].
    intros s km k v G Gk. apply get_set_cases in G.
    destruct G as [[-> ->]|[_ G]]; [|exact (Hk s km k v G Gk)].
    apply get_set_cases in Gk. destruct Gk as [[-> ->]|[_ Gk]]; [reflexivity|].
    unfold Dict.get_default in Gk.
    destruct (Dict.get (Py.lower (c :: cs)) (key_name_map st)) as [inner|] eqn:Gi;
      [exact (Hk _ inner k v Gi Gk) | discriminate].
Qed.

Lemma scan_casing_lower_keyed content : lower_keyed (scan_casing content).
Proof.
  unfold scan_casing.
  assert (G : forall ls st, lower_keyed st -> lower_keyed (fold_left scan_line ls st)).
  { induction ls as [|l ls IH]; intros st H; [assumption|].
    apply IH. now apply scan_line_lower_keyed. }
  apply G. split; cbn; intros; discriminate.
Qed.

Lemma parse_ini_maps content c smap kmap err :
  parse_ini content = Returned c smap kmap err ->
  (forall k v, Dict.get k smap = Some v -> k = Py.lower v)
  /\ forall s km k v, Dict.get s kmap = Some km -> Dict.get k km = Some v ->
                      Py.lower k = Py.lower v.
Proof.
  destruct (scan_casing_lower_keyed content) as [Hs Hk].
  unfold parse_ini. destruct (has_leading_header content).
  - destruct (read_string content) as [c0|[]]; intros [= _ <- <- _];
      (split; [exact Hs|]); intros s km k v G Gk;
      rewrite (Hk s km k v G Gk); now rewrite lower_idem.
  - assert (S : forall k v,
               Dict.get k (Dict.set (L "global") (L "GLOBAL")
                                    (section_name_map (scan_casing content))) = Some v ->
               k = Py.lower v).
    { intros k v G. apply get_set_cases in G.
      destruct G as [[-> ->]|[_ G]]; [reflexivity | now apply Hs]. }
    assert (K : forall l s km k v,
               Dict.get s (Dict.set (L "global")
                                    (Dict.of_pairs (map (fun k => (k, k)) l))
                                    (key_name_map (scan_casing content))) = Some km ->
               Dict.get k km = Some v -> Py.lower k = Py.lower v).
    { intros l s km k v G Gk. apply get_set_cases in G.
      destruct G as [[-> ->]|[_ G]].
      - apply of_pairs_In, in_map_iff in Gk. destruct Gk as [x [[= <- <-] _]].
        reflexivity.
      - rewrite (Hk s km k v G Gk). now rewrite lower_idem. }
    destruct (read_string (L "[GLOBAL]" ++ nl ++ content)) as [c0|[]];
      intros [= _ <- <- _]; (split; [exact S | apply K]).
Qed.

(** The names [save_ini] writes differ from the stored ones in letter case at
    most: with the maps [parse_ini] returns, the header written for a section
    and the key written for an entry have the lower-case form of the stored
    name. *)
Theorem written_names_same_up_to_case content c smap kmap err :
  parse_ini content = Returned c smap kmap err ->
  (forall s, Py.lower (Dict.get_default (Py.lower s) s smap) = Py.lower s)
  /\ (forall s k,
         Py.lower (Dict.get_default k k (Dict.get_default (Py.lower s) [] kmap))
         = Py.lower k).
Proof.
  intros P. apply parse_ini_maps in P. destruct P as [Hs Hk]. split.
  - intros s. unfold Dict.get_default.
    destruct (Dict.get (Py.lower s) smap) as [v|] eqn:G; [|reflexivity].
    apply Hs in G. now symmetry.
  - intros s k. unfold Dict.get_default.
    destruct (Dict.get (Py.lower s) kmap) as [km|] eqn:G; [|reflexivity].
    destruct (Dict.get k km) as [v|] eqn:Gk; [|reflexivity].
    exact (eq_sym (Hk _ km k v G Gk)).
Qed.

(* ================================================================= *)
(** ** Looking for the INI file *)

Lemma startswith_spec p : forall s,
  Py.startswith p s = true <-> exists r, s = p ++ r.
Proof.
  induction p as [|a p IH]; intros s; simpl.
  - split; [intros _; now exists s | reflexivity].
  - destruct s as [|b s].
    + split; [discriminate | intros [r E]; discriminate].
    + rewrite andb_true_iff, Ascii.eqb_eq, IH. split.
      * intros [-> [r ->]]. now exists r.
      * intros [r [= -> ->]]. split; [reflexivity | now exists r].
Qed.

Lemma isin_spec sub : forall s, PyStr.isin sub s = true <-> occurs sub s.
Proof.
  unfold occurs. induction s as [|c s IH]; simpl.
  - rewrite orb_false_r, startswith_spec. split.
    + intros [r E]. exists [], r. exact E.
    + intros [pre [post E]]. destruct pre; [now exists post | discriminate].
  - rewrite orb_true_iff, startswith_spec, IH. split.
    + intros [[r E]|[pre [post E]]].
      * exists [], r. exact E.
      * exists (c :: pre), post. simpl. now rewrite E.
    + intros [[|x pre] [post E]].
      * left. now exists post.
      * right. injection E as _ E. now exists pre, post.
Qed.

Lemma endswith_spec suffix s :
  PyStr.endswith suffix s = true <-> exists stem, s = stem ++ suffix.
Proof.
  unfold PyStr.endswith. rewrite startswith_spec. split.
  - intros [r E]. exists (rev r).
    rewrite <- (rev_involutive s), E, rev_app_distr, rev_involutive. reflexivity.
  - intros [stem ->]. exists (rev stem). apply rev_app_distr.
Qed.

Lemma ini_candidate_spec base fname :
  ini_candidate base fname = true <-> ini_name base fname.
Proof.
  unfold ini_candidate, ini_name.
  now rewrite andb_true_iff, endswith_spec, isin_spec.
Qed.

Lemma find_first {A} (f : A -> bool) : forall l,
  match find f l with
  | Some x => exists before after,
                l = before ++ x :: after /\ f x = true
                /\ forall y, In y before -> f y = false
  | None => forall y, In y l -> f y = false
  end.
Proof.
  induction l as [|a l IH]; simpl; [intros y []|].
  destruct (f a) eqn:Fa.
  - exists [], l. repeat split; [assumption | intros y []].
  - destruct (find f l) as [x|].
    + destruct IH as [before [after [-> [Fx B]]]].
      exists (a :: before), after. repeat split; [assumption|].
      intros y [<-|I]; [assumption | now apply B].
    + intros y [<-|I]; [assumption | now apply IH].
Qed.

Section FindIniFacts.

Variables basename dirname : str -> str.
Variable splitext : str -> str * str.
Variable path_join : str -> str -> str.
Variable listdir : str -> option (list str).

(** [find_ini_for_fx] returns the first entry of the directory, in the order
    of [os.listdir], whose name in lower case ends in .ini and holds the base
    name of the FX file in lower case, joined to the directory; it returns
    [None] exactly when no entry is of that kind.  Letter case plays no role,
    and the base name may stand anywhere in the name. *)
Theorem find_ini_for_fx_first fx_path names :
  listdir (dirname fx_path) = Some names ->
  let base := fst (splitext (basename fx_path)) in
  match find_ini_for_fx basename dirname splitext path_join listdir fx_path with
  | Some (Some p) =>
      exists before fname after,
        names = before ++ fname :: after
        /\ p = path_join (dirname fx_path) fname
        /\ ini_name base fname
        /\ forall x, In x before -> ~ ini_name base x
  | Some None => forall x, In x names -> ~ ini_name base x
  | None => False
  end.
Proof.
  intros Ld base. unfold find_ini_for_fx. rewrite Ld. fold base.
  pose proof (find_first (ini_candidate base) names) as F.
  destruct (find (ini_candidate base) names) as [fname|]; cbn [option_map].
  - destruct F as [before [after [-> [Fx B]]]].
    exists before, fname, after. split; [reflexivity|]. split; [reflexivity|].
    split; [now apply ini_candidate_spec|].
    intros x I H. apply ini_candidate_spec in H. rewrite (B x I) in H. discriminate.
  - intros x I H. apply ini_candidate_spec in H. rewrite (F x I) in H. discriminate.
Qed.

End FindIniFacts.

(* ================================================================= *)
(** ** The window titles *)

(** [get_all_window_titles] lists, in ascending order and each once, the
    titles that are not empty of the windows that are visible; without
    [win32gui] the list is empty. *)
Theorem get_all_window_titles_spec :
  FXUniformUI.get_all_window_titles None = []
  /\ forall ws,
       let titles := FXUniformUI.get_all_window_titles (Some ws) in
       ascending titles /\ NoDup titles
       /\ forall t, In t titles <-> t <> [] /\ In (true, t) ws.
Proof.
  split; [reflexivity|]. intros ws titles. unfold titles.
  cbn [FXUniformUI.get_all_window_titles].
  set (raw := flat_map _ ws).
  assert (R : forall t, In t raw <-> t <> [] /\ In (true, t) ws).
  { intros t. unfold raw. rewrite in_flat_map. split.
    - intros [[v x] [I H]]. cbn [fst snd] in H. destruct v; [|destruct H].
      destruct x as [|c x]; [destruct H|]. destruct H as [<-|[]].
      split; [discriminate | assumption].
    - intros [N I]. exists (true, t). split; [assumption|]. cbn [fst snd].
      destruct t; [congruence | now left]. }
  split; [apply sorted_ascending|]. split.
  - apply (Permutation_NoDup (sorted_perm _)). apply NoDup_nodup.
  - intros t. rewrite <- R. unfold PyStr.set_of.
    rewrite <- (nodup_In (list_eq_dec ascii_dec) raw t).
    split; intros I.
    + apply (Permutation_in _ (Permutation_sym (sorted_perm _))). exact I.
    + apply (Permutation_in _ (sorted_perm _)). exact I.
Qed.

(* ================================================================= *)
(** ** The form *)

Lemma split_aux_skip sep : forall pre s cur,
  PyStr.split_aux sep (pre ++ s) cur (List.length pre) = PyStr.split_aux sep s cur 0.
Proof.
  induction pre as [|c pre IH]; intros s cur; [reflexivity|]. apply IH.
Qed.

Lemma split_aux_nonempty sep : forall s cur skip, PyStr.split_aux sep s cur skip <> [].
Proof.
  induction s as [|c s IH]; intros cur skip; simpl; [discriminate|].
  destruct skip; [|apply IH]. destruct (Py.startswith sep (c :: s)); [discriminate|].
  apply IH.
Qed.

(** One step of [split] at a position where the separator stands. *)
Lemma split_aux_found a sep r cur :
  PyStr.split_aux (a :: sep) ((a :: sep) ++ r) cur 0
  = rev cur :: PyStr.split_aux (a :: sep) r [] 0.
Proof.
  cbn [app PyStr.split_aux].
  assert (S : Py.startswith (a :: sep) (a :: sep ++ r) = true)
    by (apply startswith_spec; now exists r).
  rewrite S.
  replace (List.length (a :: sep) - 1) with (List.length sep) by (simpl; lia).
  f_equal. apply split_aux_skip.
Qed.

Lemma split_aux_join a sep : forall n s cur,
  List.length s <= n ->
  Py.join (a :: sep) (PyStr.split_aux (a :: sep) s cur 0) = rev cur ++ s.
Proof.
  induction n as [|n IH]; intros s cur Hn.
  - destruct s; [|simpl in Hn; lia]. cbn. now rewrite app_nil_r.
  - destruct s as [|c s]; [cbn; now rewrite app_nil_r|].
    destruct (Py.startswith (a :: sep) (c :: s)) eqn:S.
    + apply startswith_spec in S. destruct S as [r E]. rewrite E.
      rewrite split_aux_found, join_cons by apply split_aux_nonempty.
      rewrite (IH r []); [reflexivity|].
      apply (f_equal (@List.length ascii)) in E. rewrite length_app in E.
      simpl in E, Hn. lia.
    + cbn [PyStr.split_aux]. rewrite S. rewrite IH by (simpl in Hn; lia).
      cbn [rev]. now rewrite <- app_assoc.
Qed.

(** No piece holds the separator. *)
Lemma split_aux_pieces a sep : forall n s cur,
  List.length s <= n ->
  (forall i, i < List.length cur ->
             Py.startswith (a :: sep) (skipn i (rev cur ++ s)) = false) ->
  Forall (fun p => PyStr.isin (a :: sep) p = false)
         (PyStr.split_aux (a :: sep) s cur 0).
Proof.
  assert (Piece : forall cur s,
            (forall i, i < List.length cur ->
                       Py.startswith (a :: sep) (skipn i (rev cur ++ s)) = false) ->
            PyStr.isin (a :: sep) (rev cur) = false).
  { intros cur s H. destruct (PyStr.isin (a :: sep) (rev cur)) eqn:I; [|reflexivity].
    exfalso. apply isin_spec in I. destruct I as [pre [post E]].
    assert (L1 : List.length pre < List.length cur).
    { rewrite <- (length_rev cur), E, !length_app. simpl. lia. }
    specialize (H _ L1). rewrite E, <- !app_assoc, skipn_app in H.
    rewrite skipn_all, Nat.sub_diag in H. cbn [skipn app] in H.
    assert (T : Py.startswith (a :: sep) ((a :: sep) ++ post ++ s) = true)
      by (apply startswith_spec; now exists (post ++ s)).
    cbn [app] in T. congruence. }
  induction n as [|n IH]; intros s cur Hn H.
  - destruct s; [|simpl in Hn; lia]. cbn. constructor; [|constructor].
    now apply (Piece cur []).
  - destruct s as [|c s]; [cbn; constructor; [now apply (Piece cur []) | constructor]|].
    destruct (Py.startswith (a :: sep) (c :: s)) eqn:S.
    + pose proof S as S'. apply startswith_spec in S'. destruct S' as [r E]. rewrite E.
      rewrite split_aux_found. constructor.
      * apply (Piece cur (c :: s)). exact H.
      * apply IH; [|intros i Hi; simpl in Hi; lia].
        apply (f_equal (@List.length ascii)) in E. rewrite length_app in E.
        simpl in E, Hn. lia.
    + cbn [PyStr.split_aux]. rewrite S. apply IH; [simpl in Hn; lia|].
      intros i Hi. cbn [rev List.length] in *. rewrite <- app_assoc. cbn [app].
      destruct (Nat.eq_dec i (List.length cur)) as [->|Ni].
      * rewrite skipn_app, <- (length_rev cur), skipn_all, Nat.sub_diag.
        cbn [skipn app]. exact S.
      * apply H. lia.
Qed.

Lemma split_spec a sep s :
  Py.join (a :: sep) (PyStr.split (a :: sep) s) = s
  /\ Forall (fun p => PyStr.isin (a :: sep) p = false) (PyStr.split (a :: sep) s).
Proof.
  unfold PyStr.split. split.
  - now rewrite (split_aux_join a sep (List.length s)).
  - apply (split_aux_pieces a sep (List.length s)); [lia|].
    intros i Hi. simpl in Hi. lia.
Qed.

Lemma last_named_cons n u us :
  last_named n (u :: us)
  = match last_named n us with
    | Some x => Some x
    | None => if Py.str_eqb (name u) n then Some u else None
    end.
Proof.
  unfold last_named. cbn [rev].
  induction (rev us) as [|x l IH]; cbn [app find]; [reflexivity|].
  destruct (Py.str_eqb (name x) n); [reflexivity | exact IH].
Qed.

Lemma last_named_In n uniforms u :
  In u uniforms -> name u = n -> last_named n uniforms <> None.
Proof.
  induction uniforms as [|a l IH]; intros I E; [destruct I|].
  rewrite last_named_cons. destruct I as [->|I].
  - destruct (last_named n l); [discriminate|].
    rewrite E, str_eqb_refl. discriminate.
  - specialize (IH I E). now destruct (last_named n l).
Qed.

Lemma last_named_Some n uniforms u :
  last_named n uniforms = Some u -> In u uniforms /\ name u = n.
Proof.
  unfold last_named. intros H. apply find_some in H. destruct H as [I E].
  split; [now apply in_rev | now apply str_eqb_eq].
Qed.

Section FormFacts.

Variable float : Type.
Variable float_of_str : str -> option float.
Variable float_of_int : Z -> float.
Variable int_of_float : float -> option Z.

Local Abbreviation make_widget :=
  (FXUniformUI.make_widget float_of_str float_of_int int_of_float).
Local Abbreviation build_form :=
  (FXUniformUI.build_form float_of_str float_of_int int_of_float).
Local Abbreviation add_rows :=
  (FXUniformUI.add_rows float_of_str float_of_int int_of_float).

(** For a declaration of the combo type [make_widget] does not fail: the
    items of the box are, in order, the pieces of ui_items between the
    separators (a backslash followed by the digit zero) that are not empty;
    no item holds the separator; the index is set when the default is an
    integer. *)
Theorem make_widget_combo u :
  FXUniformUI.is_combo u = true ->
  exists pieces,
    Dict.get_default (L "ui_items") [] (meta u) = Py.join (L "\0") pieces
    /\ Forall (fun p => ~ occurs (L "\0") p) pieces
    /\ make_widget u
       = Some (FXUniformUI.NewComboBox (filter PyStr.nonempty pieces)
                                       (Py.int_of_str (default u))).
Proof.
  intros C. unfold FXUniformUI.make_widget. rewrite C.
  set (v := Dict.get_default (L "ui_items") [] (meta u)).
  exists (PyStr.split (L "\0") v).
  destruct (split_spec "\"%char ["0"%char] v) as [J F].
  split; [symmetry; exact J|]. split; [|reflexivity].
  eapply Forall_impl; [|exact F]. intros p H O.
  apply isin_spec in O. change (L "\0") with ["\"%char; "0"%char] in O. congruence.
Qed.

Lemma add_rows_spec : forall uniforms rows0 w0 rows w,
  add_rows (rows0, w0) uniforms = Some (rows, w) ->
  (exists more,
      rows = rows0 ++ more
      /\ Forall2 (fun u r => FXUniformUI.row_label r = label_of u
                             /\ FXUniformUI.row_tooltip r = tooltip_of u
                             /\ make_widget u = Some (FXUniformUI.row_widget r))
                 uniforms more)
  /\ forall n, Dict.get n w
               = match last_named n uniforms with
                 | Some u => make_widget u
                 | None => Dict.get n w0
                 end.
Proof.
  induction uniforms as [|u us IH]; intros rows0 w0 rows w H.
  - injection H as <- <-. split; [|reflexivity].
    exists []. rewrite app_nil_r. split; [reflexivity | constructor].
  - cbn [FXUniformUI.add_rows] in H. unfold FXUniformUI.add_row in H.
    destruct (make_widget u) as [b|] eqn:M; [|discriminate].
    cbn [fst snd] in H. apply IH in H. destruct H as [[more [-> F]] G]. split.
    + eexists. rewrite <- app_assoc. split; [reflexivity|]. cbn [app].
      constructor; [|exact F].
      cbn [FXUniformUI.row_label FXUniformUI.row_tooltip FXUniformUI.row_widget].
      split; [reflexivity|]. split; [|exact M].
      unfold tooltip_of, Dict.get_default.
      destruct (Dict.get (L "ui_tooltip") (meta u)) as [[|c t]|]; reflexivity.
    + intros n. rewrite G, last_named_cons.
      destruct (last_named n us); [reflexivity|].
      str_cases (name u) n.
      * subst n. rewrite get_set_same. now rewrite M.
      * rewrite get_set_other by congruence. reflexivity.
Qed.

Lemma add_rows_fails : forall uniforms acc,
  add_rows acc uniforms = None <-> exists u, In u uniforms /\ make_widget u = None.
Proof.
  induction uniforms as [|u us IH]; intros acc.
  - split; [discriminate | intros [u [[] _]]].
  - cbn [FXUniformUI.add_rows]. unfold FXUniformUI.add_row.
    destruct (make_widget u) as [b|] eqn:M.
    + rewrite IH. split.
      * intros [x [I H]]. exists x. split; [now right | assumption].
      * intros [x [[<-|I] H]]; [congruence | now exists x].
    + split; [intros _; exists u; split; [now left | assumption] | reflexivity].
Qed.

(** [build_form] makes one row per declaration, in the order of the
    declarations, with the label ui_label (else the name), the tool tip
    ui_tooltip when it is not empty, and the widget of [make_widget]; but
    [self.widgets] holds one widget per name, that of the last declaration
    with the name: an earlier declaration of the same name has a row whose
    widget is not in [self.widgets].  The form is not built when
    [make_widget] raises for some declaration. *)
Theorem build_form_rows_and_widgets uniforms :
  match build_form uniforms with
  | Some (rows, widgets) =>
      Forall2 (fun u r => FXUniformUI.row_label r = label_of u
                          /\ FXUniformUI.row_tooltip r = tooltip_of u
                          /\ make_widget u = Some (FXUniformUI.row_widget r))
              uniforms rows
      /\ (forall n, Dict.get n widgets
                    = match last_named n uniforms with
                      | Some u => make_widget u
                      | None => None
                      end)
      /\ covered uniforms widgets
  | None => exists u, In u uniforms /\ make_widget u = None
  end.
Proof.
  unfold FXUniformUI.build_form.
  destruct (add_rows ([], []) uniforms) as [[rows widgets]|] eqn:B.
  - pose proof B as B'. apply add_rows_spec in B. destruct B as [[more [-> F]] G].
    split; [exact F|]. split; [exact G|].
    intros u I. rewrite G.
    destruct (last_named (name u) uniforms) as [x|] eqn:Ln.
    + apply last_named_Some in Ln. destruct Ln as [Ix _].
      intros Mx.
      assert (Fl : add_rows ([], []) uniforms = None)
        by (apply add_rows_fails; now exists x).
      congruence.
    + exfalso. now apply (last_named_In (name u) uniforms u).
  - now apply add_rows_fails in B.
Qed.

End FormFacts.

(* ================================================================= *)
(** ** The constants *)

Lemma define_shape prev x rest p caps :
  matches define_pattern prev x rest p caps ->
  exists k v s1 s2,
    caps = [k; v]
    /\ x = L "#define" ++ s1 ++ k ++ s2 ++ v
    /\ spaces s1 /\ s1 <> [] /\ spaces s2 /\ s2 <> []
    /\ word_text k /\ v <> []
    /\ Forall (fun c => Py.isdigit c = true \/ c = "."%char) v.
Proof.
  intros M. unfold define_pattern, Re.seq, Re.lit in M. simpl in M. inv_matches.
  repeat match goal with
         | H : true = true -> _ |- _ => specialize (H eq_refl)
         | H : false = true -> _ |- _ => clear H
         end.
  do 4 eexists. split; [reflexivity|]. split.
  { cbn [app]. rewrite ?app_nil_r. reflexivity. }
  unfold spaces, word_text. repeat split; try assumption.
  match goal with
  | H : Forall (fun c => (Re.digit c || _)%bool = true) _ |- _ =>
      eapply Forall_impl; [|exact H]
  end.
  intros c H. apply orb_true_iff in H. destruct H as [H|H]; [now left | right].
  now apply Ascii.eqb_eq in H.
Qed.

(** Every constant of the table was read from a piece of the text of the
    form: #define, whitespace, a name, whitespace, a value; the name is a
    word and the value a run, not empty, of digits and dots (a sign, an
    exponent or a suffix is not part of it). *)
Theorem parse_defines_sound text k v :
  Dict.get k (parse_defines text) = Some v ->
  exists pre s1 s2 post,
    text = pre ++ L "#define" ++ s1 ++ k ++ s2 ++ v ++ post
    /\ spaces s1 /\ s1 <> [] /\ spaces s2 /\ s2 <> []
    /\ word_text k /\ v <> []
    /\ Forall (fun c => Py.isdigit c = true \/ c = "."%char) v.
Proof.
  unfold parse_defines. intros G.
  assert (I : In (k, v) (map (fun m => (group 0 m, group 1 m))
                             (Re.finditer define_pattern text))).
  { assert (E : forall l d,
               fold_left (fun d m => Dict.set (group 0 m) (group 1 m) d) l d
               = fold_left (fun d kv => Dict.set (fst kv) (snd kv) d)
                           (map (fun m => (group 0 m, group 1 m)) l) d).
    { induction l as [|m l IH]; intros d; [reflexivity|]. cbn. apply IH. }
    rewrite E in G. apply fold_set_In in G.
    destruct G as [G|G]; [exact G | discriminate]. }
  apply in_map_iff in I. destruct I as [f [[= <- <-] I]].
  pose proof (finditer_matched define_pattern text) as F. rewrite Forall_forall in F.
  destruct (F f I) as [pre [s [rest [-> [_ M]]]]].
  apply match_at_sound in M. destruct M as [x [prev' [-> M]]].
  apply define_shape in M.
  destruct M as [k [v [s1 [s2 [E [-> [A1 [A2 [A3 [A4 [A5 [A6 A7]]]]]]]]]]]].
  unfold group. rewrite E. cbn [nth].
  exists pre, s1, s2, rest. rewrite <- !app_assoc.
  repeat split; try assumption; try apply A5.
Qed.

(* ================================================================= *)
(** ** Annotations and numbers *)

Lemma meta_value_char_spec c :
  meta_value_char c = true -> c <> ";"%char /\ c <> Py.LF /\ c <> dquote.
Proof.
  unfold meta_value_char. rewrite negb_true_iff, !orb_false_iff.
  intros [[A B] C]. repeat split; intros ->; now rewrite Ascii.eqb_refl in *.
Qed.

(** An optional character takes nothing or that character, and closes no
    group. *)
Lemma opt_lit_shape c prev x rest p g :
  matches (Re.Opt (Re.Lit c)) prev x rest p g -> (x = [] \/ x = [c]) /\ g = [].
Proof.
  intros M. inversion M as [| | | |? ? ? ? ? ? M'| | | | |]; subst.
  - inversion M'; subst. split; [now right | reflexivity].
  - split; [now left | reflexivity].
Qed.

Ltac inv_plain :=
  repeat match goal with
         | H : matches (Re.Seq _ _) _ _ _ _ _ |- _ => inversion H; subst; clear H
         | H : matches (Re.Cap _) _ _ _ _ _ |- _ => inversion H; subst; clear H
         | H : matches (Re.Rep _ _ _) _ _ _ _ _ |- _ => inversion H; subst; clear H
         | H : matches (Re.Lit _) _ _ _ _ _ |- _ => inversion H; subst; clear H
         | H : matches (Re.Cls _) _ _ _ _ _ |- _ => inversion H; subst; clear H
         | H : matches (Re.Bol _) _ _ _ _ _ |- _ => inversion H; subst; clear H
         | H : matches Re.Eol _ _ _ _ _ |- _ => inversion H; subst; clear H
         | H : matches Re.Eps _ _ _ _ _ |- _ => inversion H; subst; clear H
         | H : matches (Re.Opt (Re.Lit _)) _ _ _ _ _ |- _ =>
             apply opt_lit_shape in H; destruct H as [H ->]
         | H : true = true -> _ |- _ => specialize (H eq_refl)
         | H : false = true -> _ |- _ => clear H
         end.

Lemma meta_shape prev x rest p caps :
  matches meta_pattern prev x rest p caps ->
  exists k v s1 s2 q tail,
    caps = [k; v]
    /\ x = k ++ s1 ++ L "=" ++ s2 ++ q ++ v ++ tail
    /\ spaces s1 /\ spaces s2 /\ (q = [] \/ q = [dquote])
    /\ word_text k /\ v <> []
    /\ Forall (fun c => c <> ";"%char /\ c <> Py.LF /\ c <> dquote) v.
Proof.
  intros M. unfold meta_pattern, Re.seq in M. simpl in M. inv_plain.
  match goal with
  | H : Forall (fun c => meta_value_char c = true) _ |- _ =>
      apply (Forall_impl _ meta_value_char_spec) in H
  end.
  do 6 eexists. split; [reflexivity|].
  split; [rewrite app_nil_r; reflexivity|].
  unfold spaces, word_text.
  repeat match goal with |- _ /\ _ => split end; assumption.
Qed.

(** Every pair the scan of the annotation text yields was read from a piece
    of that text. *)
Lemma parse_meta_pieces m k v :
  Dict.get k (parse_meta m) = Some v -> annotation_piece m k v.
Proof.
  unfold parse_meta. intros G. apply of_pairs_In, in_map_iff in G.
  destruct G as [f [[= <- <-] I]].
  pose proof (finditer_matched meta_pattern m) as F. rewrite Forall_forall in F.
  destruct (F f I) as [pre [s [rest [-> [_ M]]]]].
  apply match_at_sound in M. destruct M as [x [prev' [-> M]]].
  apply meta_shape in M.
  destruct M as [k [v [s1 [s2 [q [tail [E [-> [A1 [A2 [A3 [A4 [A5 A6]]]]]]]]]]]]].
  unfold group. rewrite E. cbn [nth].
  exists pre, s1, s2, q, (tail ++ rest). rewrite <- !app_assoc.
  split; [reflexivity|]. split; [exact A1|]. split; [exact A2|].
  split; [exact A3|]. split; [exact A4|]. split; [exact A5 | exact A6].
Qed.

Lemma resolve_other defines d k :
  k <> L "ui_min" -> k <> L "ui_max" ->
  Dict.get k (resolve defines d) = Dict.get k d.
Proof.
  intros N1 N2. unfold resolve. now rewrite !resolve_key_other by assumption.
Qed.

(** Every annotation a declaration carries comes from a piece of the text
    between the angle brackets of its block, of the form: a key, an equals
    sign, an optional double quote, a value; the key is a word, the value is
    not empty and holds no semicolon, no line feed and no double quote.  The
    declaration holds the value of the piece itself, except under ui_min and
    ui_max when that value is not a number: it then holds the value of the
    constant of that name, or the fallback when there is no such constant. *)
Theorem uniform_meta_sound text u k v :
  In u (parse_fx_uniforms text) ->
  Dict.get k (meta u) = Some v ->
  exists pre b post t n m d v0,
    text = pre ++ b ++ post
    /\ uniform_block b t n m d
    /\ utype u = t /\ name u = n
    /\ annotation_piece m k v0
    /\ ((v = v0 /\ ((k <> L "ui_min" /\ k <> L "ui_max") \/ is_number v0 = true))
        \/ ((k = L "ui_min" \/ k = L "ui_max") /\ is_number v0 = false
            /\ v = match Dict.get v0 (parse_defines text) with
                   | Some x => x
                   | None => fallback k
                   end)).
Proof.
  intros I G.
  destruct (uniforms_from_blocks text u I) as [pre [b [post [t [n [m [d [T [B U]]]]]]]]].
  subst u. cbn [meta utype name] in *.
  exists pre, b, post, t, n, m, d.
  destruct (list_eq_dec ascii_dec k (L "ui_min")) as [E1|N1];
    [|destruct (list_eq_dec ascii_dec k (L "ui_max")) as [E2|N2]].
  3:{ rewrite resolve_other in G by assumption. exists v.
      repeat (split; [assumption || reflexivity|]).
      split; [now apply parse_meta_pieces|]. left. split; [reflexivity|]. now left. }
  all: assert (K : k = L "ui_min" \/ k = L "ui_max") by tauto;
    rewrite (resolve_spec _ _ k K) in G;
    destruct (Dict.get k (parse_meta m)) as [v0|] eqn:G0; [|discriminate];
    pose proof (parse_meta_nonempty m k v0 G0) as Nv;
    destruct v0 as [|c0 v0]; [congruence|];
    exists (c0 :: v0);
    repeat (split; [assumption || reflexivity|]);
    (split; [now apply parse_meta_pieces|]);
    injection G as G;
    destruct (is_number (c0 :: v0)) eqn:Nb;
    [left; split; [now symmetry | now right]
    | right; split; [assumption|]; split; [reflexivity | now symmetry]].
Qed.

(** The optional fraction of a number. *)
Lemma opt_fraction_shape prev x rest p g :
  matches (Re.Opt (Re.Cap (Re.Seq (Re.Lit ".") (Re.Rep false true Re.digit))))
          prev x rest p g ->
  x = [] \/ exists ds, x = L "." ++ ds /\ ds <> []
                       /\ Forall (fun c => Py.isdigit c = true) ds.
Proof.
  intros M. inversion M as [| | | |? ? ? ? ? ? M'| | | | |]; subst; [|now left].
  right. inv_plain. eexists. split; [reflexivity|]. split; assumption.
Qed.

(** A value counts as a number only when it is an optional minus sign, digits
    and, optionally, a dot followed by digits (a line feed may follow): a
    value with a plus sign, an exponent, a suffix, or a dot without digits on
    both sides is not a number, and as ui_min or ui_max it is replaced by a
    constant or by the fallback. *)
Theorem is_number_shape v :
  is_number v = true ->
  exists sign whole frac tail,
    v = sign ++ whole ++ frac ++ tail
    /\ (sign = [] \/ sign = L "-")
    /\ whole <> [] /\ Forall (fun c => Py.isdigit c = true) whole
    /\ (frac = [] \/ exists ds, frac = L "." ++ ds /\ ds <> []
                                /\ Forall (fun c => Py.isdigit c = true) ds)
    /\ (tail = [] \/ tail = nl).
Proof.
  unfold is_number, Re.match_.
  destruct (Re.match_at number_pattern None v) as [[caps rest]|] eqn:M;
    [intros _ | discriminate].
  apply match_at_sound in M. destruct M as [x [prev' [-> M]]].
  unfold number_pattern, Re.seq in M. simpl in M.
  assert (T : forall r, Re.at_eol r = true -> r = [] \/ r = nl).
  { intros [|c [|d r]] H; [now left | right | discriminate].
    simpl in H. apply Ascii.eqb_eq in H. now subst. }
  repeat match goal with
         | H : matches (Re.Seq _ _) _ _ _ _ _ |- _ => inversion H; subst; clear H
         | H : matches (Re.Rep _ _ _) _ _ _ _ _ |- _ => inversion H; subst; clear H
         | H : matches (Re.Bol _) _ _ _ _ _ |- _ => inversion H; subst; clear H
         | H : matches Re.Eol _ _ _ _ _ |- _ => inversion H; subst; clear H
         | H : matches Re.Eps _ _ _ _ _ |- _ => inversion H; subst; clear H
         | H : matches (Re.Opt (Re.Lit _)) _ _ _ _ _ |- _ =>
             apply opt_lit_shape in H; destruct H as [H _]
         | H : matches (Re.Opt (Re.Cap _)) _ _ _ _ _ |- _ =>
             apply opt_fraction_shape in H
         | H : true = true -> _ |- _ => specialize (H eq_refl)
         | H : Re.at_eol _ = true |- _ => apply T in H
         end.
  match goal with
  | Hs : ?s = [] \/ ?s = ["-"%char], Hw : Forall _ ?w, Hf : ?f = [] \/ (exists _, _)
    |- _ => exists s, w, f, rest
  end.
  cbn [app] in *. rewrite !app_nil_r, <- !app_assoc.
  split; [reflexivity|]. split; [assumption|]. split; [assumption|].
  split; [assumption|]. split; assumption.
Qed.


(* ================================================================= *)
(** ** The statements at concrete inputs *)

Lemma C4_witness :
  ConfigParser.contains ex_store (L "Demo.fx") = true /\
  set_widgets_from_ini ex_float_of_str ex_store (L "Demo.fx")
    ([ex_uniform "Strength" "4"] ++ ex_uniform "Mode" "1"
       :: [ex_uniform "MaxRadius" "2"]) ex_widgets
  = set_widgets_from_ini ex_float_of_str ex_store (L "Demo.fx")
      [ex_uniform "Strength" "4"] ex_widgets
      ++ calls_with ex_float_of_str ex_widgets (ex_uniform "Mode" "1")
           (value_for ex_store (L "Demo.fx") (ex_uniform "Mode" "1"))
      ++ set_widgets_from_ini ex_float_of_str ex_store (L "Demo.fx")
           [ex_uniform "MaxRadius" "2"] ex_widgets.
Proof.
  split; [reflexivity|].
  apply (C4_set_widgets_from_ini Z ex_float_of_str ex_store (L "Demo.fx") ex_widgets
           [ex_uniform "Strength" "4"] (ex_uniform "Mode" "1")
           [ex_uniform "MaxRadius" "2"]).
  reflexivity.
Defined.

Lemma C6_witness :
  In {| utype := L "float"; name := L "Strength";
        meta := [(L "ui_min", L "0.0"); (L "ui_max", L "2.0")];
        default := L "0.5" |} (parse_fx_uniforms ex_define)
  /\ fallback (L "ui_max") = L "100".
Proof.
  assert (I : In {| utype := L "float"; name := L "Strength";
                    meta := [(L "ui_min", L "0.0"); (L "ui_max", L "2.0")];
                    default := L "0.5" |} (parse_fx_uniforms ex_define))
    by (vm_compute; left; reflexivity).
  split; [exact I|].
  exact (proj1 (proj2 (proj2 (C6_min_max_resolution ex_define _ I)))).
Defined.

Lemma C10_witness :
  ConfigParser.contains ex_store (L "Other.fx") = false /\
  set_widgets_from_ini ex_float_of_str ex_store (L "Other.fx")
    [ex_uniform "Strength" "4"] ex_widgets = [].
Proof.
  split; [reflexivity|].
  apply (C10_absent_section_no_call Z ex_float_of_str); reflexivity.
Defined.

Lemma C5_witness :
  L "Demo.fx" <> []
  /\ stored (update_ini_from_widgets ex_str_of_float ex_store (L "Demo.fx")
               [ex_uniform "Strength" "4"] ex_widgets)
            (L "Demo.fx") (L "Strength")
     = Some (L "5").
Proof.
  assert (Ne : L "Demo.fx" <> []) by discriminate.
  split; [exact Ne|].
  apply (proj1 (proj2 (C5_update_ini_from_widgets Z ex_str_of_float ex_store
                         (L "Demo.fx") [ex_uniform "Strength" "4"] ex_widgets Ne))
           (ex_uniform "Strength" "4") (QDoubleSpinBox 5%Z)).
  - now left.
  - reflexivity.
Defined.

Lemma C9_witness :
  In (L "[GLOBAL]" ++ nl) (Py.readlines ex_explicit_global)
  /\ header_of (L "[GLOBAL]" ++ nl) = Some GLOBAL
  /\ has_section (config_of ex_explicit_global) GLOBAL = true.
Proof.
  assert (I : In (L "[GLOBAL]" ++ nl) (Py.readlines ex_explicit_global))
    by (vm_compute; tauto).
  assert (H : header_of (L "[GLOBAL]" ++ nl) = Some GLOBAL)
    by (vm_compute; reflexivity).
  split; [exact I|]. split; [exact H|].
  refine (proj1 (proj2 C9_explicit_global) ex_explicit_global _ _ _ None _ _ I H).
  vm_compute. reflexivity.
Defined.


Lemma C7_witness :
  ~ leading_header ex_late_header
  /\ exists c others,
       parse_ini ex_late_header
       = Returned (Some c) [(L "s", L "S"); (L "global", GLOBAL)]
                  [(L "s", [(L "b", L "b")]);
                   (L "global", [(L "a", L "a"); (L "b", L "b")])] None
       /\ sections c = GLOBAL :: others.
Proof.
  assert (N : ~ leading_header ex_late_header).
  { intros H. apply has_leading_header_spec in H. vm_compute in H. discriminate. }
  split; [exact N|].
  exists (config_of (text_read ex_late_header)).
  assert (P : parse_ini ex_late_header
              = Returned (Some (config_of (text_read ex_late_header)))
                  [(L "s", L "S"); (L "global", GLOBAL)]
                  [(L "s", [(L "b", L "b")]);
                   (L "global", [(L "a", L "a"); (L "b", L "b")])] None)
    by (vm_compute; reflexivity).
  destruct (proj1 (proj1 (proj2 C7_implicit_section) _ _ _ _ _ N P)) as [others E].
  exists others. split; [exact P | exact E].
Defined.

Lemma update_ini_from_widgets_idempotent_witness :
  L "Demo.fx" <> []
  /\ update_ini_from_widgets ex_str_of_float
       (update_ini_from_widgets ex_str_of_float ex_store (L "Demo.fx") ex_two ex_widgets)
       (L "Demo.fx") ex_two ex_widgets
     = update_ini_from_widgets ex_str_of_float ex_store (L "Demo.fx") ex_two ex_widgets.
Proof.
  split; [discriminate|].
  apply (update_ini_from_widgets_idempotent Z ex_str_of_float ex_store (L "Demo.fx")
           ex_two ex_widgets).
  discriminate.
Defined.

Lemma update_ini_from_widgets_order_witness :
  L "New.fx" <> []
  /\ ConfigParser.sections
       (update_ini_from_widgets ex_str_of_float ex_store (L "New.fx") ex_two ex_widgets)
     = ConfigParser.sections ex_store
         ++ (if ConfigParser.contains ex_store (L "New.fx") then [] else [L "New.fx"]).
Proof.
  assert (N : L "New.fx" <> []) by discriminate.
  split; [exact N|].
  exact (proj1 (update_ini_from_widgets_order Z ex_str_of_float ex_store (L "New.fx")
                  ex_two ex_widgets N)).
Defined.

Lemma update_then_check_layout_witness :
  L "Demo.fx" <> [] /\ covered ex_two ex_widgets
  /\ check_layout
       (update_ini_from_widgets ex_str_of_float ex_store (L "Demo.fx") ex_two ex_widgets)
       (L "Demo.fx") ex_two = LayoutOk.
Proof.
  assert (N : L "Demo.fx" <> []) by discriminate.
  assert (C : covered ex_two ex_widgets).
  { intros u [<-|[<-|[]]]; vm_compute; discriminate. }
  split; [exact N|]. split; [exact C|].
  exact (update_then_check_layout Z ex_str_of_float ex_store (L "Demo.fx")
           ex_two ex_widgets N C).
Defined.

Lemma load_ini_loaded_witness :
  FXUniformUI.load_ini ex_float_of_str [ex_uniform "MaxRadius" "7"] ex_widgets
                       (Some (L "Demo.fx")) (Some ex_underscore_ini)
  = FXUniformUI.Loaded (config_of ex_underscore_ini)
      [(L "demo.fx", L "Demo.fx")]
      [(L "demo.fx", [(L "max_radius", L "max_radius")])]
      [(L "MaxRadius", setValue 7%Z)] []
  /\ forall u, In u [ex_uniform "MaxRadius" "7"] ->
               has_match (config_of ex_underscore_ini) (L "Demo.fx") u.
Proof.
  assert (E : FXUniformUI.load_ini ex_float_of_str [ex_uniform "MaxRadius" "7"]
                ex_widgets (Some (L "Demo.fx")) (Some ex_underscore_ini)
              = FXUniformUI.Loaded (config_of ex_underscore_ini)
                  [(L "demo.fx", L "Demo.fx")]
                  [(L "demo.fx", [(L "max_radius", L "max_radius")])]
                  [(L "MaxRadius", setValue 7%Z)] [])
    by (vm_compute; reflexivity).
  split; [exact E|].
  exact (proj1 (proj2 (proj2 (proj1 (load_ini_loaded Z ex_float_of_str _ _ _ _ _ _ _ _ _) E)))).
Defined.

Lemma load_ini_without_section_witness :
  FXUniformUI.parse_ini_file (Some ex_other_ini)
  = Returned (Some (config_of ex_other_ini)) [(L "other.fx", L "Other.fx")]
             [(L "other.fx", [(L "a", L "a")])] None
  /\ section_in (config_of ex_other_ini) (Some (L "Demo.fx")) = false
  /\ FXUniformUI.load_ini ex_float_of_str ex_two ex_widgets (Some (L "Demo.fx"))
                          (Some ex_other_ini)
     = FXUniformUI.LayoutError (config_of ex_other_ini) [(L "other.fx", L "Other.fx")]
         [(L "other.fx", [(L "a", L "a")])]
         (FXUniformUI.layout_message [L "Strength"; L "MaxRadius"]).
Proof.
  assert (P : FXUniformUI.parse_ini_file (Some ex_other_ini)
              = Returned (Some (config_of ex_other_ini)) [(L "other.fx", L "Other.fx")]
                         [(L "other.fx", [(L "a", L "a")])] None)
    by (vm_compute; reflexivity).
  assert (S : section_in (config_of ex_other_ini) (Some (L "Demo.fx")) = false)
    by (vm_compute; reflexivity).
  split; [exact P|]. split; [exact S|].
  exact (load_ini_without_section Z ex_float_of_str ex_two ex_widgets _ _ _ _ _ _ P S).
Defined.

Lemma load_ini_layout_error_witness :
  exists names,
    FXUniformUI.layout_message [L "Strength"; L "MaxRadius"]
    = L "INI file does not match FX layout!" ++ nl ++ L "Missing keys: "
        ++ Py.join (L ", ") names
    /\ names <> [] /\ ascending names
    /\ Permutation names
         (map name (unmatched (config_of ex_other_ini) (Some (L "Demo.fx")) ex_two)).
Proof.
  apply (load_ini_layout_error Z ex_float_of_str ex_two ex_widgets
           (Some (L "Demo.fx")) (Some ex_other_ini) (config_of ex_other_ini)
           [(L "other.fx", L "Other.fx")] [(L "other.fx", [(L "a", L "a")])]).
  vm_compute. reflexivity.
Defined.

Lemma save_then_load_witness :
  covered ex_two ex_widgets /\ ex_two <> []
  /\ writable (update_ini_from_widgets ex_str_of_float ex_plain_store (L "Demo.fx")
                 ex_two ex_widgets) ex_plain_smap ex_plain_kmap = true
  /\ exists smap' kmap',
       FXUniformUI.load_ini ex_float_of_str ex_two ex_widgets (Some (L "Demo.fx"))
         (Some (write_ini
                  (update_ini_from_widgets ex_str_of_float ex_plain_store
                     (L "Demo.fx") ex_two ex_widgets)
                  ex_plain_smap ex_plain_kmap))
       = FXUniformUI.Loaded
           (reread_store
              (update_ini_from_widgets ex_str_of_float ex_plain_store
                 (L "Demo.fx") ex_two ex_widgets))
           smap' kmap'
           (written_back ex_float_of_str ex_str_of_float ex_two ex_widgets)
           (ConfigParser.get
              (update_ini_from_widgets ex_str_of_float ex_plain_store
                 (L "Demo.fx") ex_two ex_widgets)
              (L "Demo.fx") (L "game_window_title") []).
Proof.
  assert (C : covered ex_two ex_widgets).
  { intros u [<-|[<-|[]]]; vm_compute; discriminate. }
  assert (N : ex_two <> []) by discriminate.
  assert (W : writable (update_ini_from_widgets ex_str_of_float ex_plain_store
                          (L "Demo.fx") ex_two ex_widgets)
                       ex_plain_smap ex_plain_kmap = true)
    by (vm_compute; reflexivity).
  split; [exact C|]. split; [exact N|]. split; [exact W|].
  exact (save_then_load Z ex_float_of_str ex_str_of_float (Some (L "demo.ini"))
           ex_plain_store (L "Demo.fx") ex_two ex_widgets ex_plain_smap ex_plain_kmap
           (L "Demo") _ _ _ eq_refl C N W).
Defined.

Lemma parse_fx_uniforms_sound_witness :
  exists pre b post t n m d,
    ex_define = pre ++ b ++ post
    /\ uniform_block b t n m d
    /\ {| utype := L "float"; name := L "Strength";
          meta := [(L "ui_min", L "0.0"); (L "ui_max", L "2.0")];
          default := L "0.5" |}
       = {| utype := t; name := n;
            meta := resolve (parse_defines ex_define) (parse_meta m);
            default := Py.strip d |}.
Proof.
  apply (parse_fx_uniforms_sound ex_define).
  vm_compute. left. reflexivity.
Defined.

Lemma parse_fx_uniforms_needs_annotations_witness :
  Py.contains "<" ex_no_annotations = false
  /\ parse_fx_uniforms ex_no_annotations = [].
Proof.
  assert (H : Py.contains "<" ex_no_annotations = false) by reflexivity.
  split; [exact H|].
  apply (parse_fx_uniforms_needs_annotations ex_no_annotations). left. exact H.
Defined.

Lemma parse_ini_store_well_formed_witness :
  NoDup (ConfigParser.sections ex_plain_store)
  /\ forall s d, In (s, d) (ConfigParser._sections ex_plain_store) ->
       s <> [] /\ s <> ConfigParser.DEFAULTSECT
       /\ NoDup (Dict.keys d)
       /\ forall k v, In (k, v) d ->
            parsed_key k = true /\ (one_line v = true -> stripped v = true).
Proof.
  apply (parse_ini_store_well_formed ex_plain ex_plain_store ex_plain_smap
           ex_plain_kmap None).
  vm_compute. reflexivity.
Defined.

Lemma written_names_same_up_to_case_witness :
  (forall s, Py.lower (Dict.get_default (Py.lower s) s ex_plain_smap) = Py.lower s)
  /\ (forall s k,
         Py.lower (Dict.get_default k k
                     (Dict.get_default (Py.lower s) [] ex_plain_kmap))
         = Py.lower k).
Proof.
  apply (written_names_same_up_to_case ex_plain (Some ex_plain_store) ex_plain_smap
           ex_plain_kmap None).
  vm_compute. reflexivity.
Defined.

Lemma find_ini_for_fx_first_witness :
  find_ini_for_fx (fun p => p) (fun _ => L "shaders") ex_splitext ex_join ex_listdir
                  (L "Bloom.fx")
  = Some (Some (L "shaders/BLOOM_settings.INI"))
  /\ match find_ini_for_fx (fun p => p) (fun _ => L "shaders") ex_splitext ex_join
                           ex_listdir (L "Bloom.fx") with
     | Some (Some p) =>
         exists before fname after,
           [L "notes.txt"; L "BLOOM_settings.INI"; L "bloom.ini"]
           = before ++ fname :: after
           /\ p = ex_join (L "shaders") fname
           /\ ini_name (fst (ex_splitext (L "Bloom.fx"))) fname
           /\ forall x, In x before ->
                        ~ ini_name (fst (ex_splitext (L "Bloom.fx"))) x
     | Some None =>
         forall x, In x [L "notes.txt"; L "BLOOM_settings.INI"; L "bloom.ini"] ->
                   ~ ini_name (fst (ex_splitext (L "Bloom.fx"))) x
     | None => False
     end.
Proof.
  split; [vm_compute; reflexivity|].
  apply (find_ini_for_fx_first (fun p => p) (fun _ => L "shaders") ex_splitext ex_join
           ex_listdir (L "Bloom.fx")).
  reflexivity.
Defined.

Lemma make_widget_combo_witness :
  FXUniformUI.is_combo ex_combo = true
  /\ FXUniformUI.make_widget ex_float_of_str (fun z => z) (fun z => Some z) ex_combo
     = Some (FXUniformUI.NewComboBox [L "Off"; L "On"] (Some 1%Z))
  /\ exists pieces,
       Dict.get_default (L "ui_items") [] (meta ex_combo) = Py.join (L "\0") pieces
       /\ Forall (fun p => ~ occurs (L "\0") p) pieces
       /\ FXUniformUI.make_widget ex_float_of_str (fun z => z) (fun z => Some z) ex_combo
          = Some (FXUniformUI.NewComboBox (filter PyStr.nonempty pieces)
                                          (Py.int_of_str (default ex_combo))).
Proof.
  assert (C : FXUniformUI.is_combo ex_combo = true) by reflexivity.
  split; [exact C|]. split; [vm_compute; reflexivity|].
  exact (make_widget_combo Z ex_float_of_str (fun z => z) (fun z => Some z) ex_combo C).
Defined.

Lemma parse_defines_sound_witness :
  exists pre s1 s2 post,
    ex_define = pre ++ L "#define" ++ s1 ++ L "MAX_STR" ++ s2 ++ L "2.0" ++ post
    /\ spaces s1 /\ s1 <> [] /\ spaces s2 /\ s2 <> []
    /\ word_text (L "MAX_STR") /\ L "2.0" <> []
    /\ Forall (fun c => Py.isdigit c = true \/ c = "."%char) (L "2.0").
Proof.
  apply (parse_defines_sound ex_define (L "MAX_STR") (L "2.0")).
  vm_compute. reflexivity.
Defined.
Lemma uniform_meta_sound_witness :
  exists pre b post t n m d v0,
    ex_define = pre ++ b ++ post
    /\ uniform_block b t n m d
    /\ L "float" = t /\ L "Strength" = n
    /\ annotation_piece m (L "ui_max") v0
    /\ ((L "2.0" = v0
         /\ ((L "ui_max" <> L "ui_min" /\ L "ui_max" <> L "ui_max")
             \/ is_number v0 = true))
        \/ ((L "ui_max" = L "ui_min" \/ L "ui_max" = L "ui_max")
            /\ is_number v0 = false
            /\ L "2.0" = match Dict.get v0 (parse_defines ex_define) with
                         | Some x => x
                         | None => fallback (L "ui_max")
                         end)).
Proof.
  apply (uniform_meta_sound ex_define
           {| utype := L "float"; name := L "Strength";
              meta := [(L "ui_min", L "0.0"); (L "ui_max", L "2.0")];
              default := L "0.5" |} (L "ui_max") (L "2.0")).
  - vm_compute. left. reflexivity.
  - vm_compute. reflexivity.
Defined.

Lemma is_number_shape_witness :
  exists sign whole frac tail,
    L "-0.5" = sign ++ whole ++ frac ++ tail
    /\ (sign = [] \/ sign = L "-")
    /\ whole <> [] /\ Forall (fun c => Py.isdigit c = true) whole
    /\ (frac = [] \/ exists ds, frac = L "." ++ ds /\ ds <> []
                                /\ Forall (fun c => Py.isdigit c = true) ds)
    /\ (tail = [] \/ tail = nl).
Proof.
  apply (is_number_shape (L "-0.5")). vm_compute. reflexivity.
Defined.
